(** * ManageCommand agent: line buffering, output streaming, process
      supervision and the execution coordinator

    A shallow embedding of [djangocommand/executor.py],
    [djangocommand/agent.py] and [djangocommand/security.py].

    Python objects are records that are passed and returned explicitly.
    Everything the code observes from outside (the wall clock, the outcome
    of a control-plane call, the tokenizer of the standard library, the way
    a child process reacts to signals) is an oracle: the definitions are
    functions of the oracles, and the theorems quantify over them. *)

From Stdlib Require Import ZArith QArith Ascii String List Sorted.
From stdpp Require Import base tactics option list strings gmap fin_maps sorting.

Local Open Scope Z_scope.

(** ** Strings *)

Definition newline : ascii := "010"%char.

(** Python truthiness of a [str] and of a [list]. *)
Definition str_truthy (s : string) : bool :=
  match s with EmptyString => false | String _ _ => true end.

Definition list_truthy {A} (l : list A) : bool :=
  match l with [] => false | _ :: _ => true end.

(** [''.join(l)] *)
Definition join (l : list string) : string := foldr String.append EmptyString l.

(** ** Data model *)

(** A flushed segment: the dict [{"timestamp": ..., "content": ...}]. *)
Record Segment := {
  timestamp : option Z;
  content : string }.

(** [ExecutionResult] *)
Record ExecutionResult := {
  exit_code : Z;
  status : string }.

(** The exception classes the code raises or handles. *)
Inductive Exn :=
| DjangoCommandClientError
| TimeoutExpired
| ProcessLookupError
| ValueError
| OSError.

Inductive Outcome (A : Type) :=
| Returned (a : A)
| Raised (e : Exn).
Arguments Returned {A} a.
Arguments Raised {A} e.

(** What the agent does to the outside: the calls on the control-plane
    client, the operations on the child process, and (as ghost events) the
    updates of the agent's dict of active executions. *)
Inductive Event :=
| start_execution (execution_id : string)
| send_output (execution_id : string) (segments : list Segment)
              (is_stderr : bool) (chunk_number : Z)
| complete_execution (execution_id : string) (exit_code : Z) (status : string)
| spawn (cmd : list string) (cwd : string)
| terminate
| kill
| active_insert (execution_id : string)
| active_pop (execution_id : string).

(** The oracles.  [time_at n] is what the [n]-th call of [time.time()]
    returns; [client_ok n] tells whether the [n]-th call on the client
    returns ([true]) or raises [DjangoCommandClientError] ([false]);
    [shlex_split] is the tokenizer of the standard library, [None] standing
    for its [ValueError]. *)
Record Oracle := {
  time_at : nat -> Z;
  client_ok : nat -> bool;
  shlex_split : string -> option (list string) }.

(** The part of the outside that the code changes: how often the clock was
    read, how many client calls were made, and what happened so far. *)
Record World := {
  clock : nat;
  calls : nat;
  events : list Event }.

Definition world0 : World := {| clock := 0; calls := 0; events := [] |}.

Definition log (e : Event) (w : World) : World :=
  {| clock := clock w; calls := calls w; events := events w ++ [e] |}.

(** [time.time()] *)
Definition time_time (o : Oracle) (w : World) : Z * World :=
  (time_at o (clock w),
   {| clock := S (clock w); calls := calls w; events := events w |}).

(** A call on the client: logged, and answered by the oracle. *)
Definition client_call (o : Oracle) (e : Event) (w : World) : bool * World :=
  (client_ok o (calls w),
   {| clock := clock w; calls := S (calls w); events := events w ++ [e] |}).

(** ** LineBuffer *)

Module LineBuffer.

Record t := {
  is_stderr : bool;
  completed_lines : list (Z * string);
  current_line_timestamp : option Z;
  current_line_content : string }.

Definition __init__ (is_stderr : bool) : t :=
  {| is_stderr := is_stderr;
     completed_lines := [];
     current_line_timestamp := None;
     current_line_content := EmptyString |}.

(** The body of the loop [for char in content]. *)
Definition append_char (o : Oracle) (char : ascii) (st : t * World) : t * World :=
  let '(b, w) := st in
  let '(ts, w) :=
    match current_line_timestamp b with
    | None => time_time o w
    | Some ts => (ts, w)
    end in
  let line := String.append (current_line_content b) (String char EmptyString) in
  if Ascii.eqb char newline then
    ({| is_stderr := is_stderr b;
        completed_lines := completed_lines b ++ [(ts, line)];
        current_line_timestamp := None;
        current_line_content := EmptyString |}, w)
  else
    ({| is_stderr := is_stderr b;
        completed_lines := completed_lines b;
        current_line_timestamp := Some ts;
        current_line_content := line |}, w).

Fixpoint append_loop (o : Oracle) (content : string) (st : t * World) : t * World :=
  match content with
  | EmptyString => st
  | String char rest => append_loop o rest (append_char o char st)
  end.

Definition append (o : Oracle) (content : string) (b : t) (w : World) : t * World :=
  append_loop o content (b, w).

Definition completed_segment (l : Z * string) : Segment :=
  {| timestamp := Some (fst l); content := snd l |}.

Definition flush (b : t) : list Segment * t :=
  let segments := map completed_segment (completed_lines b) in
  if str_truthy (current_line_content b) then
    (segments ++ [{| timestamp := current_line_timestamp b;
                     content := current_line_content b |}],
     {| is_stderr := is_stderr b;
        completed_lines := [];
        current_line_timestamp := None;
        current_line_content := EmptyString |})
  else
    (segments,
     {| is_stderr := is_stderr b;
        completed_lines := [];
        current_line_timestamp := current_line_timestamp b;
        current_line_content := current_line_content b |}).

(** A history of calls on one buffer. *)
Inductive Op :=
| Append (content : string)
| Flush.

(** Runs a history; returns the segments of every flush, in order. *)
Fixpoint run (o : Oracle) (ops : list Op) (b : t) (w : World)
  : list (list Segment) * t * World :=
  match ops with
  | [] => ([], b, w)
  | Append s :: ops =>
      let '(b, w) := append o s b w in
      run o ops b w
  | Flush :: ops =>
      let '(segments, b) := flush b in
      let '(rest, b, w) := run o ops b w in
      (segments :: rest, b, w)
  end.

(** Everything a history appends, in order. *)
Fixpoint appended (ops : list Op) : string :=
  match ops with
  | [] => EmptyString
  | Append s :: ops => String.append s (appended ops)
  | Flush :: ops => appended ops
  end.

Definition flushed_content (flushes : list (list Segment)) : string :=
  join (map content (concat flushes)).

(** A history followed by the final flush. *)
Definition run_final (o : Oracle) (ops : list Op) (b : t) (w : World)
  : list (list Segment) :=
  let '(flushes, b, _) := run o ops b w in
  flushes ++ [fst (flush b)].

End LineBuffer.

(** ** OutputStreamManager *)

Module OutputStreamManager.

Record t := {
  execution_id : string;
  stdout_buffer : LineBuffer.t;
  stderr_buffer : LineBuffer.t;
  chunk_number : Z;
  running : bool }.

Definition __init__ (execution_id : string) : t :=
  {| execution_id := execution_id;
     stdout_buffer := LineBuffer.__init__ false;
     stderr_buffer := LineBuffer.__init__ true;
     chunk_number := 0;
     running := true |}.

Definition append (o : Oracle) (content : string) (is_stderr : bool)
    (m : t) (w : World) : t * World :=
  if is_stderr then
    let '(b, w) := LineBuffer.append o content (stderr_buffer m) w in
    ({| execution_id := execution_id m; stdout_buffer := stdout_buffer m;
        stderr_buffer := b; chunk_number := chunk_number m;
        running := running m |}, w)
  else
    let '(b, w) := LineBuffer.append o content (stdout_buffer m) w in
    ({| execution_id := execution_id m; stdout_buffer := b;
        stderr_buffer := stderr_buffer m; chunk_number := chunk_number m;
        running := running m |}, w).

(** One round of the loop of [_flush], on the buffer [b]: returns the
    flushed buffer and the new chunk number.  Whether [send_output]
    returns or raises, the round ends the same way (the handler only
    logs a warning). *)
Definition flush_buffer (o : Oracle) (execution_id : string) (b : LineBuffer.t)
    (chunk_number : Z) (w : World) : LineBuffer.t * Z * World :=
  let '(segments, b) := LineBuffer.flush b in
  if list_truthy segments then
    let chunk_num := chunk_number + 1 in
    let '(ok, w) :=
      client_call o (send_output execution_id segments (LineBuffer.is_stderr b) chunk_num) w in
    if ok then (b, chunk_num, w) else (b, chunk_num, w)
  else (b, chunk_number, w).

(** [for buffer in [self.stdout_buffer, self.stderr_buffer]] *)
Definition _flush (o : Oracle) (m : t) (w : World) : t * World :=
  let '(out, n, w) := flush_buffer o (execution_id m) (stdout_buffer m) (chunk_number m) w in
  let '(err, n, w) := flush_buffer o (execution_id m) (stderr_buffer m) n w in
  ({| execution_id := execution_id m; stdout_buffer := out;
      stderr_buffer := err; chunk_number := n; running := running m |}, w).

Definition finalize (o : Oracle) (m : t) (w : World) : t * World :=
  _flush o {| execution_id := execution_id m; stdout_buffer := stdout_buffer m;
              stderr_buffer := stderr_buffer m; chunk_number := chunk_number m;
              running := false |} w.

(** What happens to a manager between [start_flush_loop] and [finalize]:
    the reader threads append, the flush thread wakes up. *)
Inductive Op :=
| Append (content : string) (is_stderr : bool)
| Tick.

Definition step (o : Oracle) (op : Op) (st : t * World) : t * World :=
  match op with
  | Append content is_stderr => append o content is_stderr (fst st) (snd st)
  | Tick => _flush o (fst st) (snd st)
  end.

Definition run (o : Oracle) (ops : list Op) (m : t) (w : World) : t * World :=
  foldl (fun st op => step o op st) (m, w) ops.

End OutputStreamManager.

(** The chunk numbers of the [send_output] calls of a log, in order. *)
Definition sent_numbers (l : list Event) : list Z :=
  omap (fun e => match e with send_output _ _ _ n => Some n | _ => None end) l.

(** ** The child process *)

(** How the child of one execution behaves: the result of each of the three
    waits of the code, should the wait be reached with the child still
    running ([None]: the wait raises [TimeoutExpired]). *)
Record Child := {
  wait_timeout : option Z;   (* [process.wait(timeout=timeout)] in [execute] *)
  wait_grace : option Z;     (* [process.wait(timeout=GRACE_PERIOD)], after terminate *)
  wait_killed : option Z }.  (* [process.wait(timeout=1.0)], after kill *)

Module Popen.

(** [returncode] is [None] until a wait has seen the child exit. *)
Record t := { returncode : option Z }.

Definition started : t := {| returncode := None |}.

(** [Popen.wait]: the code of a child known to have exited is returned
    at once. *)
Definition wait (answer : option Z) (p : t) : Outcome Z * t :=
  match returncode p with
  | Some c => (Returned c, p)
  | None =>
      match answer with
      | Some c => (Returned c, {| returncode := Some c |})
      | None => (Raised TimeoutExpired, p)
      end
  end.

(** [Popen.send_signal] sends nothing to a child known to have exited. *)
Definition send_signal (sig : Event) (p : t) (w : World) : World :=
  match returncode p with
  | Some _ => w
  | None => log sig w
  end.

End Popen.

(** ** CommandExecutor *)

(** The watcher thread calls [cancel] at most once per execution; these are
    the places of [execute] at which the call can land. *)
Inductive CancelPoint :=
| BeforeEntry    (* before [self.cancelled = False] *)
| BeforeSpawn    (* after the reset, before [self.process] is assigned *)
| WhileRunning   (* the child is running, [process.wait] has not returned *)
| AfterExit.     (* [process.wait] has returned, the flag is not yet checked *)

Global Instance CancelPoint_eq_dec : EqDecision CancelPoint.
Proof. solve_decision. Defined.

(** One execution as the outside makes it happen. *)
Record Scenario := {
  cancel_request : option (CancelPoint * bool);  (* where, and the force flag *)
  spawn_ok : bool;                                (* [subprocess.Popen] returns *)
  child : Child;
  stream : list OutputStreamManager.Op }.         (* until [finalize] *)

(** [os.path.join(a, b)] for a relative [b]. *)
Fixpoint ends_with_sep (a : string) : bool :=
  match a with
  | EmptyString => false
  | String c EmptyString => Ascii.eqb c "/"%char
  | String _ rest => ends_with_sep rest
  end.

Definition os_path_join (a b : string) : string :=
  if negb (str_truthy a) || ends_with_sep a then String.append a b
  else String.append a (String "/"%char b).

Module CommandExecutor.

(** [GRACE_PERIOD = 5.0], in seconds. *)
Definition GRACE_PERIOD : Z := 5.

Record t := {
  project_path : string;
  process : option Popen.t;
  cancelled : bool }.

Definition __init__ (project_path : string) : t :=
  {| project_path := project_path; process := None; cancelled := false |}.

Definition set_process (p : option Popen.t) (ex : t) : t :=
  {| project_path := project_path ex; process := p; cancelled := cancelled ex |}.

Definition set_cancelled (b : bool) (ex : t) : t :=
  {| project_path := project_path ex; process := process ex; cancelled := b |}.

Definition _kill_process (c : Child) (sigkill : bool) (ex : t) (w : World)
  : Outcome unit * t * World :=
  match process ex with
  | None => (Returned tt, ex, w)
  | Some p =>
      if sigkill then (Returned tt, ex, Popen.send_signal kill p w)
      else
        let w := Popen.send_signal terminate p w in
        match Popen.wait (wait_grace c) p with
        | (Returned _, p) => (Returned tt, set_process (Some p) ex, w)
        | (Raised _, p) =>
            let w := Popen.send_signal kill p w in
            match Popen.wait (wait_killed c) p with
            | (Returned _, p) => (Returned tt, set_process (Some p) ex, w)
            | (Raised e, p) => (Raised e, set_process (Some p) ex, w)
            end
        end
  end.

Definition cancel (c : Child) (force : bool) (ex : t) (w : World)
  : Outcome unit * t * World :=
  let ex := set_cancelled true ex in
  match process ex with
  | None => (Returned tt, ex, w)
  | Some _ =>
      if force then _kill_process c true ex w
      else _kill_process c false ex w
  end.

(** The watcher's call, if the scenario has it land at [pt].  An exception
    of [cancel] ends the watcher thread and nothing else. *)
Definition watcher (s : Scenario) (pt : CancelPoint) (ex : t) (w : World) : t * World :=
  match cancel_request s with
  | Some (pt', force) =>
      if decide (pt' = pt) then
        let '(_, ex, w) := cancel (child s) force ex w in (ex, w)
      else (ex, w)
  | None => (ex, w)
  end.

(** [cmd]: the interpreter, [-u], [manage.py], the command, and the
    tokens of a non-empty argument string. *)
Definition build_cmd (o : Oracle) (sys_executable : string) (ex : t)
    (command args : string) : Outcome (list string) :=
  let manage_py := os_path_join (project_path ex) "manage.py" in
  let cmd := [sys_executable; "-u"%string; manage_py; command] in
  if str_truthy args then
    match shlex_split o args with
    | Some tokens => Returned (cmd ++ tokens)
    | None => Raised ValueError
    end
  else Returned cmd.

(** What a call of [execute] leaves behind.  [popen] is the [Popen] object
    the call created, as it stands when the call ends; [manager] is its
    [OutputStreamManager]. *)
Record Run := {
  outcome : Outcome ExecutionResult;
  executor : t;
  world : World;
  popen : option Popen.t;
  manager : OutputStreamManager.t }.

Definition status_of (exit_code : Z) : string :=
  if decide (exit_code = 0) then "success"%string else "failed"%string.

Definition execute (o : Oracle) (sys_executable : string) (s : Scenario)
    (execution_id command args : string) (timeout : Z) (ex : t) (w : World) : Run :=
  let '(ex, w) := watcher s BeforeEntry ex w in
  let ex := set_cancelled false ex in
  let stream_manager := OutputStreamManager.__init__ execution_id in
  let '(ex, w) := watcher s BeforeSpawn ex w in
  match build_cmd o sys_executable ex command args with
  | Raised e =>
      {| outcome := Raised e; executor := ex; world := w; popen := None;
         manager := stream_manager |}
  | Returned cmd =>
      (* try *)
      if spawn_ok s then
        let w := log (spawn cmd (project_path ex)) w in
        let ex := set_process (Some Popen.started) ex in
        let '(ex, w) := watcher s WhileRunning ex w in
        let '(stream_manager, w) := OutputStreamManager.run o (stream s) stream_manager w in
        match process ex with
        | None =>
            (* [self.process.wait] on [None]: an AttributeError, which
               [except Exception] handles *)
            let '(stream_manager, w) := OutputStreamManager.finalize o stream_manager w in
            {| outcome := Returned {| exit_code := -1; status := "failed" |};
               executor := set_process None ex; world := w; popen := None;
               manager := stream_manager |}
        | Some p =>
            match Popen.wait (wait_timeout (child s)) p with
            | (Raised _, p) =>
                (* except subprocess.TimeoutExpired *)
                match _kill_process (child s) false (set_process (Some p) ex) w with
                | (Returned _, ex, w) =>
                    let '(stream_manager, w) := OutputStreamManager.finalize o stream_manager w in
                    {| outcome := Returned {| exit_code := -1; status := "timed_out" |};
                       executor := set_process None ex; world := w;
                       popen := process ex; manager := stream_manager |}
                | (Raised _, ex, w) =>
                    (* except Exception *)
                    let '(stream_manager, w) := OutputStreamManager.finalize o stream_manager w in
                    {| outcome := Returned {| exit_code := -1; status := "failed" |};
                       executor := set_process None ex; world := w;
                       popen := process ex; manager := stream_manager |}
                end
            | (Returned exit_code, p) =>
                let ex := set_process (Some p) ex in
                let '(ex, w) := watcher s AfterExit ex w in
                let '(stream_manager, w) := OutputStreamManager.finalize o stream_manager w in
                if cancelled ex then
                  {| outcome := Returned {| exit_code := exit_code; status := "cancelled" |};
                     executor := set_process None ex; world := w;
                     popen := process ex; manager := stream_manager |}
                else
                  {| outcome := Returned {| exit_code := exit_code;
                                            status := status_of exit_code |};
                     executor := set_process None ex; world := w;
                     popen := process ex; manager := stream_manager |}
            end
        end
      else
        (* [Popen] raised: except Exception *)
        let '(stream_manager, w) := OutputStreamManager.finalize o stream_manager w in
        {| outcome := Returned {| exit_code := -1; status := "failed" |};
           executor := set_process None ex; world := w; popen := None;
           manager := stream_manager |}
  end.

End CommandExecutor.

(** ** Security policy *)

Definition DEFAULT_DISALLOWED_COMMANDS : list string :=
  [ "flush"; "sqlflush"; "reset_db";
    "shell"; "shell_plus"; "dbshell";
    "runserver"; "runserver_plus"; "testserver";
    "createsuperuser"; "changepassword";
    "makemigrations"; "squashmigrations";
    "drop_test_database"; "delete_squashed_migrations"; "clean_pyc" ]%string.

(** The two Django settings the policy reads; [None] is an absent
    attribute. *)
Record Settings := {
  DJANGOCOMMAND_ALLOWED_COMMANDS : option (list string);
  DJANGOCOMMAND_DISALLOWED_COMMANDS : option (list string) }.

Definition is_command_allowed (settings : Settings) (command : string) : bool * string :=
  let allowed_commands := default [] (DJANGOCOMMAND_ALLOWED_COMMANDS settings) in
  if list_truthy allowed_commands then
    if bool_decide (command ∈ allowed_commands) then (true, EmptyString)
    else (false, "not in DJANGOCOMMAND_ALLOWED_COMMANDS allowlist"%string)
  else
    let disallowed_commands :=
      default DEFAULT_DISALLOWED_COMMANDS (DJANGOCOMMAND_DISALLOWED_COMMANDS settings) in
    if bool_decide (command ∈ disallowed_commands)
    then (false, "in DJANGOCOMMAND_DISALLOWED_COMMANDS blocklist"%string)
    else (true, EmptyString).

(** ** Agent *)

(** One entry of [get_pending_executions()], the defaults of [.get]
    applied. *)
Record Execution := {
  id : string;
  command : string;
  args : string;
  timeout : Z }.

Module Agent.

Definition MAX_CONCURRENT_EXECUTIONS : nat := 4.

Record t := {
  _project_path : string;
  _active_executions : gmap string CommandExecutor.t }.

Definition __init__ (project_path : string) : t :=
  {| _project_path := project_path; _active_executions := ∅ |}.

(** [self._active_executions[execution_id] = executor] *)
Definition track (execution_id : string) (executor : CommandExecutor.t) (a : t) : t :=
  {| _project_path := _project_path a;
     _active_executions := <[execution_id := executor]> (_active_executions a) |}.

(** [self._active_executions.pop(execution_id, None)] *)
Definition untrack (execution_id : string) (a : t) : t :=
  {| _project_path := _project_path a;
     _active_executions := delete execution_id (_active_executions a) |}.

Definition nl : string := String newline EmptyString.

Definition rejection_message (command reason : string) : string :=
  join [ "Command '"; command; "' rejected by agent security policy."; nl;
         "Reason: "; reason; nl;
         nl;
         "To allow this command, update your Django settings:"; nl;
         "  DJANGOCOMMAND_ALLOWED_COMMANDS = ('"; command; "', ...)"; nl;
         "or remove it from DJANGOCOMMAND_DISALLOWED_COMMANDS."; nl ]%string.

Definition _reject_execution (o : Oracle) (execution_id command reason : string)
    (w : World) : World :=
  let '(ok, w) := client_call o (start_execution execution_id) w in
  if negb ok then w
  else
    let error_message := rejection_message command reason in
    let '(now, w) := time_time o w in
    let '(ok, w) :=
      client_call o
        (send_output execution_id
           [{| timestamp := Some now; content := error_message |}] true 1) w in
    let w := if ok then w else w in
    let '(ok, w) := client_call o (complete_execution execution_id (-1) "failed") w in
    if ok then w else w.

(** [_run_execution], the function a pool thread runs for one item.  The
    scenario tells how the child and the watcher behave, should the
    command be run. *)
Definition _run_execution (o : Oracle) (settings : Settings) (sys_executable : string)
    (s : Scenario) (execution_id command args : string) (timeout : Z)
    (a : t) (w : World) : Outcome unit * t * World :=
  let '(allowed, reason) := is_command_allowed settings command in
  if negb allowed then
    (Returned tt, a, _reject_execution o execution_id command reason w)
  else
    let executor := CommandExecutor.__init__ (_project_path a) in
    let a := track execution_id executor a in
    let w := log (active_insert execution_id) w in
    (* try *)
    let '(r, w) :=
      let '(ok, w) := client_call o (start_execution execution_id) w in
      if negb ok then (Returned tt, w)
      else
        let run := CommandExecutor.execute o sys_executable s
                     execution_id command args timeout executor w in
        match CommandExecutor.outcome run with
        | Raised e => (Raised e, CommandExecutor.world run)
        | Returned result =>
            let '(ok, w) :=
              client_call o
                (complete_execution execution_id (exit_code result) (status result))
                (CommandExecutor.world run) in
            if ok then (Returned tt, w) else (Returned tt, w)
        end in
    (* finally *)
    (r, untrack execution_id a, log (active_pop execution_id) w).



(** [poll_and_execute] on the schedule on which a pool thread runs every
    submitted item to its end before the loop considers the next one.
    Each item comes with the scenario of its execution; [fetched] is the
    outcome of [get_pending_executions()]. *)
Inductive Verdict := Skip | Stop | Submit.

(** The body of the loop for one item, under [self._executions_lock]. *)
Definition consider (e : Execution) (a : t) : Verdict :=
  if bool_decide (is_Some (_active_executions a !! id e)) then Skip
  else if bool_decide (MAX_CONCURRENT_EXECUTIONS ≤ size (_active_executions a))%nat then Stop
  else Submit.



(** *** The coordinator: the poll loop and the pool, step by step *)

(** A pool thread inside [_run_execution]: before the insert into the
    dict, or inside the [try]. *)
Inductive Phase := Checking | Tracked.

Record Worker := {
  job : Execution;
  phase : Phase }.

Record State := {
  agent : t;
  pending : list Execution;   (* what the running poll loop has yet to consider *)
  queue : list Execution;     (* submitted, no pool thread yet *)
  workers : list Worker }.    (* the busy threads of the pool, [max_workers] at most *)

Definition init (project_path : string) : State :=
  {| agent := __init__ project_path; pending := []; queue := []; workers := [] |}.

(** A new poll cycle starts with the list the server returned. *)
Definition poll_begin (l : list Execution) (st : State) : State :=
  {| agent := agent st; pending := l; queue := queue st; workers := workers st |}.

(** One round of the loop of [poll_and_execute]. *)
Definition poll_item (st : State) : State :=
  match pending st with
  | [] => st
  | e :: rest =>
      match consider e (agent st) with
      | Skip => {| agent := agent st; pending := rest; queue := queue st;
                   workers := workers st |}
      | Stop => {| agent := agent st; pending := []; queue := queue st;
                   workers := workers st |}
      | Submit => {| agent := agent st; pending := rest; queue := queue st ++ [e];
                     workers := workers st |}
      end
  end.

(** A free pool thread takes the oldest queued item. *)
Definition worker_start (st : State) : State :=
  match queue st with
  | [] => st
  | e :: rest =>
      if bool_decide (length (workers st) < MAX_CONCURRENT_EXECUTIONS)%nat then
        {| agent := agent st; pending := pending st; queue := rest;
           workers := workers st ++ [{| job := e; phase := Checking |}] |}
      else st
  end.

(** The [i]-th busy thread moves on: from the security check either out
    (rejected) or into the [try] (inserted into the dict), and from the
    [try] out through the [finally]. *)
Definition worker_step (settings : Settings) (i : nat) (st : State) : State :=
  match workers st !! i with
  | None => st
  | Some wk =>
      match phase wk with
      | Checking =>
          if fst (is_command_allowed settings (command (job wk))) then
            {| agent := track (id (job wk))
                          (CommandExecutor.__init__ (_project_path (agent st))) (agent st);
               pending := pending st; queue := queue st;
               workers := <[i := {| job := job wk; phase := Tracked |}]> (workers st) |}
          else
            {| agent := agent st; pending := pending st; queue := queue st;
               workers := delete i (workers st) |}
      | Tracked =>
          {| agent := untrack (id (job wk)) (agent st);
             pending := pending st; queue := queue st;
             workers := delete i (workers st) |}
      end
  end.

Inductive step (settings : Settings) : State -> State -> Prop :=
| step_poll_begin st l : pending st = [] -> step settings st (poll_begin l st)
| step_poll_item st : step settings st (poll_item st)
| step_worker_start st : step settings st (worker_start st)
| step_worker st i : step settings st (worker_step settings i st).

Definition reachable (settings : Settings) (project_path : string) (st : State) : Prop :=
  rtc (step settings) (init project_path) st.

End Agent.

(** * Vocabulary of the properties *)

(** What a buffer holds: its completed lines, then its open line. *)
Definition held (b : LineBuffer.t) : string :=
  String.append (join (map snd (LineBuffer.completed_lines b)))
                (LineBuffer.current_line_content b).

(** An open line with content has a timestamp. *)
Definition stamped (b : LineBuffer.t) : Prop :=
  str_truthy (LineBuffer.current_line_content b) = true ->
  is_Some (LineBuffer.current_line_timestamp b).

(** The events added between two worlds. *)
Definition new_events (w w' : World) : list Event :=
  drop (length (events w)) (events w').

Definition is_send (execution_id : string) (e : Event) : Prop :=
  match e with send_output i _ _ _ => i = execution_id | _ => False end.

Definition is_signal (e : Event) : Prop :=
  match e with terminate | kill => True | _ => False end.

Definition is_spawn (e : Event) : Prop :=
  match e with spawn _ _ => True | _ => False end.

(** The events of running a command: output, signals, the spawn. *)
Definition is_process_event (execution_id : string) (e : Event) : Prop :=
  match e with
  | send_output i _ _ _ => i = execution_id
  | terminate | kill | spawn _ _ => True
  | _ => False
  end.

(** The [complete_execution] calls of a log, in order. *)
Definition completions (l : list Event) : list (string * Z * string) :=
  omap (fun e => match e with
                 | complete_execution i c st => Some (i, c, st)
                 | _ => None
                 end) l.

Definition is_active_update (e : Event) : Prop :=
  match e with active_insert _ | active_pop _ => True | _ => False end.

Definition terminal_statuses : list string :=
  [ "success"; "failed"; "cancelled"; "timed_out" ]%string.

(** From [w] to [w'] only events in [P] were added, and the chunks sent
    carry the numbers [n + 1] to [n']. *)
Definition produced (P : Event -> Prop) (n n' : Z) (w w' : World) : Prop :=
  exists l, events w' = events w ++ l
            /\ Forall P l
            /\ sent_numbers l = seqZ (n + 1) (n' - n)
            /\ n <= n'.

(** From [w] to [w'] only events in [P] were added, and no chunk was
    sent. *)
Definition quiet (P : Event -> Prop) (w w' : World) : Prop :=
  exists l, events w' = events w ++ l
            /\ Forall P l
            /\ sent_numbers l = [].

(** What [process.wait(timeout=timeout)] of [execute] answers in a scenario
    whose child was spawned: the code of a child that a graceful [cancel]
    of the watcher has already reaped, else the answer of the child
    ([None]: the wait raises [TimeoutExpired]). *)
Definition reaped_by_watcher (s : Scenario) : option Z :=
  match cancel_request s with
  | Some (WhileRunning, false) =>
      match wait_grace (child s) with
      | Some c => Some c
      | None => wait_killed (child s)
      end
  | _ => None
  end.

Definition waited (s : Scenario) : option Z :=
  match reaped_by_watcher s with
  | Some c => Some c
  | None => wait_timeout (child s)
  end.

(** The escalation of the timeout path sees the child exit: within the
    grace period after terminate, or within a second after kill. *)
Definition reaped (c : Child) : bool :=
  match wait_grace c, wait_killed c with
  | None, None => false
  | _, _ => true
  end.

(** The argument string is empty or the tokenizer accepts it. *)
Definition tokenizes (o : Oracle) (args : string) : Prop :=
  str_truthy args = true -> is_Some (shlex_split o args).

(** The signals of the terminate-then-kill escalation on a running child:
    kill follows only if the grace period ends with the child running. *)
Definition escalation (c : Child) : list Event :=
  match wait_grace c with
  | Some _ => [terminate]
  | None => [terminate; kill]
  end.

(** An outside on which every client call returns, and one on which every
    client call raises; the clock counts its readings, and argument
    strings are split at white space. *)
Definition oracle_up : Oracle :=
  {| time_at := Z.of_nat;
     client_ok := fun _ => true;
     shlex_split := fun s => Some (String.words s) |}.

Definition oracle_down : Oracle :=
  {| time_at := Z.of_nat;
     client_ok := fun _ => false;
     shlex_split := fun s => Some (String.words s) |}.

(** The policy of an installation that sets neither list: the default
    blocklist applies. *)
Definition default_settings : Settings :=
  {| DJANGOCOMMAND_ALLOWED_COMMANDS := None;
     DJANGOCOMMAND_DISALLOWED_COMMANDS := None |}.

(** A child that prints one line and exits with code 0, uncancelled. *)
Definition quick_exit : Scenario :=
  {| cancel_request := None;
     spawn_ok := true;
     child := {| wait_timeout := Some 0; wait_grace := None; wait_killed := None |};
     stream := [OutputStreamManager.Append "ok" false] |}.

(** Every active id belongs to a pool thread that is inside the [try] of
    [_run_execution], and the pool has no more than its [max_workers]
    threads busy. *)
Definition covered (st : Agent.State) : Prop :=
  forall i, is_Some (Agent._active_executions (Agent.agent st) !! i) ->
    exists wk, wk ∈ Agent.workers st /\ Agent.phase wk = Agent.Tracked
               /\ id (Agent.job wk) = i.

Definition pool_invariant (st : Agent.State) : Prop :=
  (length (Agent.workers st) <= Agent.MAX_CONCURRENT_EXECUTIONS)%nat /\ covered st.

(** A poll that returns an execution a second time while the first run of
    it is inside its [try]. *)
Definition migrate_job : Execution :=
  {| id := "e1"; command := "migrate"; args := EmptyString; timeout := 300 |}.

Definition polled_again : Agent.State :=
  Agent.poll_begin [migrate_job]
    (Agent.worker_step default_settings 0
       (Agent.worker_start
          (Agent.poll_item
             (Agent.poll_begin [migrate_job] (Agent.init "/srv/app"))))).


(** * More of the code *)

(** ** executor.py: the stream readers *)

(** [_read_stream]: every line the pipe yields goes to the manager, until
    the pipe closes or a read raises; [lines] is what was read till then. *)
Definition _read_stream (o : Oracle) (lines : list string) (is_stderr : bool)
    (stream_manager : OutputStreamManager.t) (w : World)
  : OutputStreamManager.t * World :=
  foldl (fun st line => OutputStreamManager.append o line is_stderr (fst st) (snd st))
        (stream_manager, w) lines.

(** ** Vocabulary of the further properties *)

(** The timestamps a buffer has yet to report: those of its completed
    lines, then that of its open line. *)
Definition pending_stamps (b : LineBuffer.t) : list Z :=
  map fst (LineBuffer.completed_lines b)
  ++ option_list (LineBuffer.current_line_timestamp b).

(** A line is open exactly when it has content. *)
Definition opened (b : LineBuffer.t) : Prop :=
  str_truthy (LineBuffer.current_line_content b) = true
  <-> is_Some (LineBuffer.current_line_timestamp b).

(** The readings of the clock from the [c]-th on, [n] of them. *)
Definition readings (o : Oracle) (c n : nat) : list (option Z) :=
  map (fun k => Some (time_at o k)) (seq c n).

(** The timestamps reported so far ([out]) and those the buffer has yet to
    report are the readings of the clock since [c0], in order. *)
Definition stamps_in_step (o : Oracle) (c0 : nat) (out : list (option Z))
    (b : LineBuffer.t) (w : World) : Prop :=
  out ++ map Some (pending_stamps b) = readings o c0 (clock w - c0)
  /\ (c0 <= clock w)%nat
  /\ opened b.

Fixpoint no_newline (s : string) : bool :=
  match s with
  | EmptyString => true
  | String c rest => negb (Ascii.eqb c newline) && no_newline rest
  end.

(** A terminated line: no newline but the one that ends it. *)
Definition complete_line (s : string) : Prop :=
  exists body, no_newline body = true
               /\ s = String.append body (String newline EmptyString).

(** The start or a further piece of a line that has not ended. *)
Definition open_line (s : string) : Prop :=
  no_newline s = true /\ s <> EmptyString.

(** What one flush returns: terminated lines, then at most one piece of a
    line that has not ended. *)
Definition line_structured (segments : list Segment) : Prop :=
  exists lines rest,
    segments = lines ++ rest
    /\ Forall (fun seg => complete_line (content seg)) lines
    /\ (rest = [] \/ exists seg, rest = [seg] /\ open_line (content seg)).

(** The buffer holds terminated lines and a piece without a newline. *)
Definition line_split (b : LineBuffer.t) : Prop :=
  Forall (fun p => complete_line (snd p)) (LineBuffer.completed_lines b)
  /\ no_newline (LineBuffer.current_line_content b) = true.

(** What the [send_output] calls of a log carry for one stream. *)
Fixpoint sent_content (is_stderr : bool) (l : list Event) : string :=
  match l with
  | [] => EmptyString
  | send_output _ segments e _ :: l =>
      if Bool.eqb e is_stderr
      then String.append (join (map content segments)) (sent_content is_stderr l)
      else sent_content is_stderr l
  | _ :: l => sent_content is_stderr l
  end.

(** What the readers of a history wrote to one stream. *)
Fixpoint written (is_stderr : bool) (ops : list OutputStreamManager.Op) : string :=
  match ops with
  | [] => EmptyString
  | OutputStreamManager.Append s e :: ops =>
      if Bool.eqb e is_stderr then String.append s (written is_stderr ops)
      else written is_stderr ops
  | OutputStreamManager.Tick :: ops => written is_stderr ops
  end.

(** A chunk as the control plane should see it: for this execution, with
    at least one segment, every segment with content and a timestamp. *)
Definition well_formed_chunk (execution_id : string) (e : Event) : Prop :=
  match e with
  | send_output i segments _ _ =>
      i = execution_id
      /\ segments <> []
      /\ Forall (fun seg => content seg <> EmptyString /\ is_Some (timestamp seg)) segments
  | _ => False
  end.

(** The buffer of one stream. *)
Definition buffer_of (is_stderr : bool) (m : OutputStreamManager.t) : LineBuffer.t :=
  if is_stderr then OutputStreamManager.stderr_buffer m
  else OutputStreamManager.stdout_buffer m.

Definition sound (b : LineBuffer.t) : Prop := opened b /\ line_split b.

(** Both buffers are sound and carry the tag of their stream. *)
Definition manager_sound (m : OutputStreamManager.t) : Prop :=
  forall is_stderr,
    sound (buffer_of is_stderr m)
    /\ LineBuffer.is_stderr (buffer_of is_stderr m) = is_stderr.

(** What one call on the manager does to the stream [e]: the content sent
    and the content held afterwards are the content held before and the
    content written by the call. *)
Definition carries (o : Oracle) (op : OutputStreamManager.Op)
    (m : OutputStreamManager.t) (w : World)
    (m' : OutputStreamManager.t) (w' : World) : Prop :=
  exists l,
    events w' = events w ++ l
    /\ manager_sound m'
    /\ OutputStreamManager.execution_id m' = OutputStreamManager.execution_id m
    /\ Forall (well_formed_chunk (OutputStreamManager.execution_id m)) l
    /\ forall e,
         String.append (sent_content e l) (held (buffer_of e m'))
         = String.append (held (buffer_of e m)) (written e [op]).

(** The signals of a log, in order. *)
Fixpoint signals (l : list Event) : list Event :=
  match l with
  | [] => []
  | terminate :: l => terminate :: signals l
  | kill :: l => kill :: signals l
  | _ :: l => signals l
  end.

(** The spawns of a log: command line and working directory. *)
Fixpoint spawns (l : list Event) : list (list string * string) :=
  match l with
  | [] => []
  | spawn cmd cwd :: l => (cmd, cwd) :: spawns l
  | _ :: l => spawns l
  end.

(** The signals the watcher's [cancel] sends: none unless it lands while
    the child runs; then kill at once if forced, else the escalation. *)
Definition watcher_signals (s : Scenario) : list Event :=
  match cancel_request s with
  | Some (WhileRunning, true) => [kill]
  | Some (WhileRunning, false) => escalation (child s)
  | _ => []
  end.


(** The signals of the timeout path of [execute]: the escalation, when the
    wait for the child times out. *)
Definition timeout_signals (s : Scenario) : list Event :=
  match waited s with
  | None => escalation (child s)
  | Some _ => []
  end.

(** Whether [execute] gets as far as a running child: the command line is
    built and [subprocess.Popen] returns. *)
Definition started (o : Oracle) (sys_executable : string) (s : Scenario)
    (ex : CommandExecutor.t) (command args : string) : bool :=
  match CommandExecutor.build_cmd o sys_executable ex command args with
  | Returned _ => spawn_ok s
  | Raised _ => false
  end.

(** A child that ignores terminate and outlives the timeout; the watcher
    asks for a graceful cancel while it runs. *)
Definition stubborn_child : Scenario :=
  {| cancel_request := Some (WhileRunning, false);
     spawn_ok := true;
     child := {| wait_timeout := None; wait_grace := None; wait_killed := None |};
     stream := [OutputStreamManager.Append "tick" false; OutputStreamManager.Tick;
                OutputStreamManager.Append "oops" true] |}.

(** [subprocess.Popen] raises. *)
Definition no_spawn : Scenario :=
  {| cancel_request := Some (WhileRunning, true);
     spawn_ok := false;
     child := {| wait_timeout := Some 0; wait_grace := None; wait_killed := None |};
     stream := [OutputStreamManager.Append "lost" false] |}.

(** ** agent.py: one poll cycle, and what the dict can miss *)

(** The loop of [poll_and_execute] run over the whole list [l] with no
    pool thread moving in between. *)
Definition poll_cycle (l : list Execution) (st : Agent.State) : Agent.State :=
  Nat.iter (length l) Agent.poll_item (Agent.poll_begin l st).

(** No thread has inserted [e]'s id yet. *)
Definition untracked (st : Agent.State) (e : Execution) : Prop :=
  Agent._active_executions (Agent.agent st) !! id e = None.

(** Ten pending executions with ids of their own. *)
Definition backlog : list Execution :=
  map (fun k => {| id := String (ascii_of_nat (65 + k)) EmptyString;
                   command := "migrate"; args := EmptyString; timeout := 300 |})
      (seq 0 10).

(** ** security.py: the blocklist as discovery sees it *)

(** [get_disallowed_commands]: the blocklist of the settings, or else the
    default one, as a set; the allowlist plays no part. *)
Definition get_disallowed_commands (settings : Settings) : gset string :=
  list_to_set (default DEFAULT_DISALLOWED_COMMANDS
                       (DJANGOCOMMAND_DISALLOWED_COMMANDS settings)).

(** ** agent.py: heartbeat, command sync and the main loop *)

Module AgentLoop.

(** [EXCLUDED_COMMANDS = ['djangocommand']] *)
Definition EXCLUDED_COMMANDS : list string := ["djangocommand"%string].

(** [EXECUTION_POLL_INTERVAL = 2.0], in seconds. *)
Definition EXECUTION_POLL_INTERVAL : Q := 2.

(** [max_consecutive_failures = 5] *)
Definition max_consecutive_failures : nat := 5.

(** The dict that [client.sync_commands] returns, as far as the agent reads
    it; [None] is an absent key. *)
Record SyncResponse := {
  commands_hash : option string;
  synced_count : option Z }.

(** The dict that [client.heartbeat] returns, as far as the agent reads
    it; [other_keys] tells whether it has any other key. *)
Record HeartbeatResponse := {
  commands_in_sync : option bool;
  pending_executions : option Z;
  other_keys : bool }.

(** Truth value of the dict: it has a key. *)
Definition response_truthy (r : HeartbeatResponse) : bool :=
  bool_decide (is_Some (commands_in_sync r))
  || bool_decide (is_Some (pending_executions r))
  || other_keys r.

(** What the loop does that the outside sees, in order. *)
Inductive Call {Command : Type} :=
| time_time_call (now : Q)
| heartbeat_call (commands_hash : string)
| sync_commands_call (commands : list Command)
| poll_and_execute_call
| failures_logged (consecutive_failures : nat).
Arguments Call : clear implicits.

(** The control plane: its answer to the [k]-th heartbeat and to the
    [k]-th sync, [None] standing for [DjangoCommandClientError]. *)
Record Server := {
  heartbeat_reply : nat -> option HeartbeatResponse;
  sync_reply : nat -> option SyncResponse }.

(** The agent's part of the state, and the outside's. *)
Record t {Command : Type} := {
  _commands : list Command;
  _commands_hash : string }.
Arguments t : clear implicits.

Record Link {Command : Type} := {
  heartbeats : nat;
  syncs : nat;
  trace : list (Call Command) }.
Arguments Link : clear implicits.

Section WithCommands.
Context {Command : Type}.

Definition link0 : Link Command := {| heartbeats := 0; syncs := 0; trace := [] |}.

Definition record (c : Call Command) (k : Link Command) : Link Command :=
  {| heartbeats := heartbeats k; syncs := syncs k; trace := trace k ++ [c] |}.

(** What [discover_commands] excludes:
    [set(self.EXCLUDED_COMMANDS) | disallowed]. *)
Definition excluded (settings : Settings) : gset string :=
  list_to_set EXCLUDED_COMMANDS ∪ get_disallowed_commands settings.

(** [discover_commands]; [get_commands_with_hash] is the function of the
    discovery module, which takes its [exclude] list for a set. *)
Definition discover_commands
    (get_commands_with_hash : gset string -> list Command * string)
    (settings : Settings) (a : t Command) : t Command :=
  let discovered := get_commands_with_hash (excluded settings) in
  {| _commands := fst discovered; _commands_hash := snd discovered |}.

Definition sync_commands (sv : Server) (a : t Command) (k : Link Command)
  : bool * t Command * Link Command :=
  let reply := sync_reply sv (syncs k) in
  let k := {| heartbeats := heartbeats k; syncs := S (syncs k);
              trace := trace k ++ [sync_commands_call (_commands a)] |} in
  match reply with
  | Some response =>
      let server_hash := default EmptyString (commands_hash response) in
      if str_truthy server_hash && negb (String.eqb server_hash (_commands_hash a)) then
        (true, {| _commands := _commands a; _commands_hash := server_hash |}, k)
      else (true, a, k)
  | None => (false, a, k)
  end.

Definition heartbeat (sv : Server) (a : t Command) (k : Link Command)
  : option HeartbeatResponse * t Command * Link Command :=
  let reply := heartbeat_reply sv (heartbeats k) in
  let k := {| heartbeats := S (heartbeats k); syncs := syncs k;
              trace := trace k ++ [heartbeat_call (_commands_hash a)] |} in
  match reply with
  | Some response =>
      if negb (default true (commands_in_sync response)) then
        let '(_, a, k) := sync_commands sv a k in (Some response, a, k)
      else (Some response, a, k)
  | None => (None, a, k)
  end.

Definition run_once (sv : Server)
    (get_commands_with_hash : gset string -> list Command * string)
    (settings : Settings)
    (a : t Command) (k : Link Command) : bool * t Command * Link Command :=
  let a := discover_commands get_commands_with_hash settings a in
  let '(response, a, k) := heartbeat sv a k in
  match response with
  | Some r =>
      if response_truthy r && negb (default true (commands_in_sync r)) then
        let '(_, a, k) := sync_commands sv a k in (true, a, k)
      else (true, a, k)
  | None => (false, a, k)
  end.

(** The local variables of [run]. *)
Record Loop := {
  consecutive_failures : nat;
  last_heartbeat : Q;
  last_execution_poll : Q }.

(** One round of [while self._running], [now] being what [time.time()]
    returns in it. *)
Definition iteration (sv : Server) (heartbeat_interval : Q) (now : Q)
    (st : Loop * t Command * Link Command) : Loop * t Command * Link Command :=
  let '(l, a, k) := st in
  let k := record (time_time_call now) k in
  let '(l, a, k) :=
    if Qle_bool heartbeat_interval (now - last_heartbeat l) then
      let '(response, a, k) := heartbeat sv a k in
      let truthy := match response with Some r => response_truthy r | None => false end in
      if truthy then
        ({| consecutive_failures := 0; last_heartbeat := now;
            last_execution_poll := last_execution_poll l |}, a, k)
      else
        let n := S (consecutive_failures l) in
        let k := if bool_decide (max_consecutive_failures <= n)%nat
                 then record (failures_logged n) k else k in
        ({| consecutive_failures := n; last_heartbeat := now;
            last_execution_poll := last_execution_poll l |}, a, k)
    else (l, a, k) in
  if Qle_bool EXECUTION_POLL_INTERVAL (now - last_execution_poll l) then
    ({| consecutive_failures := consecutive_failures l;
        last_heartbeat := last_heartbeat l; last_execution_poll := now |},
     a, record poll_and_execute_call k)
  else (l, a, k).

(** [run]: discovery, the initial sync, then the loop, which goes on for
    as long as [self._running] holds; [nows] are the readings of the clock
    in its rounds. *)
Definition run (sv : Server) (heartbeat_interval : Q)
    (get_commands_with_hash : gset string -> list Command * string)
    (settings : Settings) (nows : list Q)
    (a : t Command) (k : Link Command) : Loop * t Command * Link Command :=
  let a := discover_commands get_commands_with_hash settings a in
  let '(_, a, k) := sync_commands sv a k in
  foldl (fun st now => iteration sv heartbeat_interval now st)
        ({| consecutive_failures := 0; last_heartbeat := 0;
            last_execution_poll := 0 |}, a, k)
        nows.

End WithCommands.

End AgentLoop.

(** The times at which the calls in [P] were made: for each, the reading
    of the clock that precedes it. *)
Fixpoint stamps {Command : Type} (P : AgentLoop.Call Command -> bool)
    (now : option Q) (l : list (AgentLoop.Call Command)) : list Q :=
  match l with
  | [] => []
  | AgentLoop.time_time_call t :: l => stamps P (Some t) l
  | c :: l =>
      if P c then option_list now ++ stamps P now l else stamps P now l
  end.

Definition is_poll {Command : Type} (c : AgentLoop.Call Command) : bool :=
  match c with AgentLoop.poll_and_execute_call => true | _ => false end.

Definition is_heartbeat {Command : Type} (c : AgentLoop.Call Command) : bool :=
  match c with AgentLoop.heartbeat_call _ => true | _ => false end.

Definition is_sync {Command : Type} (c : AgentLoop.Call Command) : bool :=
  match c with AgentLoop.sync_commands_call _ => true | _ => false end.

(** Consecutive times are at least [d] apart. *)
Fixpoint spaced (d : Q) (ts : list Q) : Prop :=
  match ts with
  | t1 :: ((t2 :: _) as rest) => (d <= t2 - t1)%Q /\ spaced d rest
  | _ => True
  end.

(** The last reading of the clock in a trace. *)
Fixpoint reading {Command : Type} (now : option Q)
    (tr : list (AgentLoop.Call Command)) : option Q :=
  match tr with
  | [] => now
  | AgentLoop.time_time_call t :: tr => reading (Some t) tr
  | _ :: tr => reading now tr
  end.

(** The calls in [P] of a trace are at least [d] apart, and the loop
    remembers the time of the last one. *)
Definition kept_apart {Command : Type} (P : AgentLoop.Call Command -> bool)
    (d latest : Q) (tr : list (AgentLoop.Call Command)) : Prop :=
  spaced d (stamps P None tr)
  /\ forall t, last (stamps P None tr) = Some t -> t = latest.

(** A control plane that answers every heartbeat with ``out of sync'' and
    every sync with a hash of its own. *)
Definition out_of_sync : AgentLoop.Server :=
  {| AgentLoop.heartbeat_reply := fun _ =>
       Some {| AgentLoop.commands_in_sync := Some false;
               AgentLoop.pending_executions := Some 0;
               AgentLoop.other_keys := false |};
     AgentLoop.sync_reply := fun _ =>
       Some {| AgentLoop.commands_hash := Some "sha256:server"%string;
               AgentLoop.synced_count := Some 2 |} |}.

(** The [j]-th heartbeat counts as failed in [run]: the call raised, or
    returned an empty dict. *)
Definition failed (sv : AgentLoop.Server) (j : nat) : bool :=
  match AgentLoop.heartbeat_reply sv j with
  | Some r => negb (AgentLoop.response_truthy r)
  | None => true
  end.

(** How many of the first [n] heartbeats failed in a row at the end. *)
Fixpoint streak (sv : AgentLoop.Server) (n : nat) : nat :=
  match n with
  | O => O
  | S m => if failed sv m then S (streak sv m) else O
  end.

(** The heartbeat with index [j] finds the commands out of sync. *)
Definition finds_out_of_sync (sv : AgentLoop.Server) (j : nat) : bool :=
  match AgentLoop.heartbeat_reply sv j with
  | Some r => negb (default true (AgentLoop.commands_in_sync r))
  | None => false
  end.

(** No allowlist is in force: the setting is absent or empty. *)
Definition no_allowlist (settings : Settings) : Prop :=
  list_truthy (default [] (DJANGOCOMMAND_ALLOWED_COMMANDS settings)) = false.

(** ** agent.py: the project path *)

Definition sep : ascii := "/"%char.

Fixpoint has_sep (p : string) : bool :=
  match p with
  | EmptyString => false
  | String c rest => Ascii.eqb c sep || has_sep rest
  end.

(** [p == '/' * len(p)] *)
Fixpoint all_sep (p : string) : bool :=
  match p with
  | EmptyString => true
  | String c rest => Ascii.eqb c sep && all_sep rest
  end.

(** [p[:p.rfind('/') + 1]] *)
Fixpoint upto_last_sep (p : string) : string :=
  match p with
  | EmptyString => EmptyString
  | String c rest =>
      if Ascii.eqb c sep || has_sep rest then String c (upto_last_sep rest)
      else EmptyString
  end.

(** [p.rstrip('/')] *)
Fixpoint rstrip_sep (p : string) : string :=
  match p with
  | EmptyString => EmptyString
  | String c rest =>
      if Ascii.eqb c sep && all_sep rest then EmptyString
      else String c (rstrip_sep rest)
  end.

(** [os.path.dirname], as [posixpath] defines it. *)
Definition os_path_dirname (p : string) : string :=
  let head := upto_last_sep p in
  if str_truthy head && negb (all_sep head) then rstrip_sep head else head.

(** The loop of [_find_project_path], for [fuel] rounds at most: [None]
    when it is still going then, [Some None] when it ends without a find. *)
Fixpoint _find_project_path_loop (fuel : nat) (os_path_exists : string -> bool)
    (path : string) : option (option string) :=
  match fuel with
  | O => None
  | S fuel =>
      if String.eqb path "/" then Some None
      else if os_path_exists (os_path_join path "manage.py") then Some (Some path)
      else _find_project_path_loop fuel os_path_exists (os_path_dirname path)
  end.

(** [_find_project_path], [cwd] being what [os.getcwd()] returns. *)
Definition _find_project_path (fuel : nat) (os_path_exists : string -> bool)
    (cwd : string) : option string :=
  match _find_project_path_loop fuel os_path_exists cwd with
  | None => None
  | Some (Some path) => Some path
  | Some None => Some cwd
  end.

(** An absolute path in normal form, from its components: [/] for none,
    else [/c1/c2/.../cn]. *)
Definition below_root (cs : list string) : string :=
  foldr (fun c acc => String sep (String.append c acc)) EmptyString cs.

Definition render (cs : list string) : string :=
  match cs with
  | [] => String sep EmptyString
  | _ => below_root cs
  end.

(** A path component: not empty, and without a separator. *)
Definition component (c : string) : Prop :=
  c <> EmptyString /\ has_sep c = false.

(** The directory with the first [n] components of [cs] holds a
    [manage.py]. *)
Definition holds_manage_py (os_path_exists : string -> bool) (cs : list string)
    (n : nat) : Prop :=
  os_path_exists (os_path_join (render (take n cs)) "manage.py") = true.

(** A file system with a [manage.py] in [/srv/app] only. *)
Definition one_project (p : string) : bool := String.eqb p "/srv/app/manage.py".

(** ** managecommand/discovery.py and managecommand/security.py *)

Module ManageCommand.

(** An entry of a list in [MANAGECOMMAND_BOUND_COMMANDS]: a string, a dict
    (of which the keys [args] and [label] are read; [None] is an absent
    key), or anything else. *)
Inductive RawArgSet :=
| RawStr (arg_set : string)
| RawDict (args : option string) (label : option string)
| RawOther.

(** A normalized argument set: the dict [{'args': ..., 'label': ...}]. *)
Record ArgSet := {
  args : string;
  label : string }.

Definition no_arguments : string := "(no arguments)".

(** [x or '(no arguments)'] *)
Definition or_no_arguments (x : string) : string :=
  if str_truthy x then x else no_arguments.

(** The body of the loop over [arg_sets]: what is appended, if anything. *)
Definition normalized (arg_set : RawArgSet) : option ArgSet :=
  match arg_set with
  | RawStr arg_set => Some {| args := arg_set; label := or_no_arguments arg_set |}
  | RawDict a l =>
      let args := default EmptyString a in
      Some {| args := args; label := default (or_no_arguments args) l |}
  | RawOther => None
  end.

(** [get_bound_commands]; [raw_config] is the setting, [None] when it is
    absent.  A command is kept when it has a normalized set. *)
Definition get_bound_commands (raw_config : option (gmap string (list RawArgSet)))
  : gmap string (list ArgSet) :=
  match raw_config with
  | None => ∅
  | Some raw_config =>
      omap (fun arg_sets =>
              let normalized_sets := omap normalized arg_sets in
              if list_truthy normalized_sets then Some normalized_sets else None)
           raw_config
  end.

(** What [get_commands()] maps a name to: an app label, or a module, of
    which [__name__] (if it has one) and [str] are read. *)
Inductive App :=
| AppLabel (app : string)
| AppModule (__name__ : option string) (str : string).

(** What [load_command_class(app, name)] does: it raises, or it returns an
    instance, of which [create_parser(...).format_help()] ([None]: one of
    the two raises) and the [help] attribute ([None]: absent, or [None])
    are read. *)
Inductive Loaded :=
| LoadFails
| Instance (format_help : option string) (help : option string).

(** A discovered command: the dict [cmd_data]; [bound_args] is an
    optional key. *)
Record Command := {
  name : string;
  app_label : string;
  help_text : string;
  bound_args : option (list ArgSet) }.

Definition _get_command_help (format_help help : option string) : string :=
  match format_help with
  | Some text => text
  | None => default EmptyString help
  end.

(** The body of the loop of [discover_commands] past the filter. *)
Definition cmd_data (bound_commands : gmap string (list ArgSet))
    (name : string) (app : App) (loaded : Loaded) : Command :=
  match loaded with
  | Instance format_help help =>
      {| name := name;
         app_label := match app with
                      | AppLabel app => app
                      | AppModule (Some n) _ => n
                      | AppModule None s => s
                      end;
         help_text := _get_command_help format_help help;
         bound_args := bound_commands !! name |}
  | LoadFails =>
      {| name := name;
         app_label := match app with AppLabel app => app | AppModule _ _ => EmptyString end;
         help_text := EmptyString;
         bound_args := bound_commands !! name |}
  end.

(** The filter: [include], when given and not empty, decides alone; else
    [exclude] does. *)
Definition listed (exclude include : option (list string)) (name : string) : bool :=
  let exclude_set : gset string := list_to_set (default [] exclude) in
  let include_set : option (gset string) :=
    match include with
    | Some include => if list_truthy include then Some (list_to_set include) else None
    | None => None
    end in
  match include_set with
  | Some include_set => bool_decide (name ∈ include_set)
  | None => negb (bool_decide (name ∈ exclude_set))
  end.

(** [discover_commands]; [get_commands] is what Django's [get_commands()]
    returns, in the order of the dict, and [load_command_class] the
    loader. *)
Definition discover_commands (raw_config : option (gmap string (list RawArgSet)))
    (get_commands : list (string * App)) (load_command_class : App -> string -> Loaded)
    (exclude include : option (list string)) : list Command :=
  let bound_commands := get_bound_commands raw_config in
  omap (fun item : string * App =>
          let '(name, app) := item in
          if listed exclude include name
          then Some (cmd_data bound_commands name app (load_command_class app name))
          else None)
       get_commands.

(** [sorted(commands, key=lambda c: c.get('name', ''))]: a stable sort that
    compares keys with [<]. *)
Fixpoint insert_by_name (c : Command) (l : list Command) : list Command :=
  match l with
  | [] => [c]
  | d :: rest =>
      if String.ltb (name d) (name c) then d :: insert_by_name c rest
      else c :: d :: rest
  end.

Definition sorted (commands : list Command) : list Command :=
  foldr insert_by_name [] commands.

Section Hash.

(** [json.dumps(..., sort_keys=True, separators=(',', ':'))] and
    [hashlib.sha256(s.encode()).hexdigest()]. *)
Variable json_dumps : list Command -> string.
Variable sha256_hexdigest : string -> string.

Definition compute_commands_hash (commands : list Command) : string :=
  let sorted_cmds := sorted commands in
  let canonical := json_dumps sorted_cmds in
  let hash_value := sha256_hexdigest canonical in
  String.append "sha256:" hash_value.

Definition get_commands_with_hash (raw_config : option (gmap string (list RawArgSet)))
    (get_commands : list (string * App)) (load_command_class : App -> string -> Loaded)
    (exclude include : option (list string)) : list Command * string :=
  let commands :=
    discover_commands raw_config get_commands load_command_class exclude include in
  (commands, compute_commands_hash commands).

End Hash.

(** *** security.py: bound commands *)

Definition is_command_bound (raw_config : option (gmap string (list RawArgSet)))
    (command : string) : bool :=
  bool_decide (is_Some (get_bound_commands raw_config !! command)).

Definition get_allowed_args_for_command
    (raw_config : option (gmap string (list RawArgSet))) (command : string)
  : option (list string) :=
  match get_bound_commands raw_config !! command with
  | None => None
  | Some arg_sets => Some (map args arg_sets)
  end.

(** [str.isspace] on a character below 256. *)
Definition is_space (c : ascii) : bool :=
  let n := nat_of_ascii c in
  ((9 <=? n) && (n <=? 13) || (28 <=? n) && (n <=? 32)
   || (n =? 133) || (n =? 160))%nat.

Fixpoint all_space (s : string) : bool :=
  match s with
  | EmptyString => true
  | String c rest => is_space c && all_space rest
  end.

Fixpoint lstrip (s : string) : string :=
  match s with
  | EmptyString => EmptyString
  | String c rest => if is_space c then lstrip rest else s
  end.

Fixpoint rstrip (s : string) : string :=
  match s with
  | EmptyString => EmptyString
  | String c rest => if is_space c && all_space rest then EmptyString
                     else String c (rstrip rest)
  end.

(** [s.strip()] *)
Definition strip (s : string) : string := rstrip (lstrip s).

(** [sep.join(l)] *)
Fixpoint join_with (sep : string) (l : list string) : string :=
  match l with
  | [] => EmptyString
  | [s] => s
  | s :: rest => String.append s (String.append sep (join_with sep rest))
  end.

Definition dquote : string := String "034"%char EmptyString.

Definition not_allowed_reason (args : string) (allowed_args : list string) : string :=
  let allowed_str :=
    join_with ", " (map (fun a => String.append dquote (String.append a dquote))
                        allowed_args) in
  join [ "args '"; args; "' not in allowed set for bound command. Allowed: ";
         allowed_str ]%string.

Definition are_args_allowed (raw_config : option (gmap string (list RawArgSet)))
    (command args : string) : bool * string :=
  match get_bound_commands raw_config !! command with
  | None => (true, EmptyString)
  | Some arg_sets =>
      let allowed_args := map ManageCommand.args arg_sets in
      let normalized_args := if str_truthy args then strip args else EmptyString in
      if existsb (fun allowed => String.eqb normalized_args (strip allowed)) allowed_args
      then (true, EmptyString)
      else (false, not_allowed_reason args allowed_args)
  end.

End ManageCommand.

(** The names of a list of commands. *)
Definition names (commands : list ManageCommand.Command) : list string :=
  map ManageCommand.name commands.

(** The order of [sorted]: by name. *)
Definition name_le (c d : ManageCommand.Command) : Prop :=
  String.leb (ManageCommand.name c) (ManageCommand.name d) = true.

(** A configuration that binds [runscript] to two argument sets, and
    lists [migrate] with nothing usable. *)
Definition bound_config : option (gmap string (list ManageCommand.RawArgSet)) :=
  Some (<["runscript"%string :=
            [ ManageCommand.RawDict (Some " backup_db --verbose "%string)
                                    (Some "Backup database"%string);
              ManageCommand.RawStr "cleanup --days=30" ]]>
        (<["migrate"%string := [ ManageCommand.RawOther ]]> ∅)).

(** Django with three commands, the second of which fails to load. *)
Definition three_commands : list (string * ManageCommand.App) :=
  [ ("runscript", ManageCommand.AppLabel "django_extensions");
    ("migrate", ManageCommand.AppLabel "django.core");
    ("check", ManageCommand.AppModule (Some "django.core") "<module>") ]%string.

Definition loader (app : ManageCommand.App) (name : string) : ManageCommand.Loaded :=
  if String.eqb name "migrate" then ManageCommand.LoadFails
  else ManageCommand.Instance (Some (String.append "usage: manage.py " name)) None.

(** * Properties *)

(** ** Strings *)

Lemma append_nil_l (s : string) : String.append EmptyString s = s.
Proof. reflexivity. Qed.

Lemma append_cons (c : ascii) (s t : string) :
  String.append (String c s) t = String c (String.append s t).
Proof. reflexivity. Qed.

Lemma append_nil_r (s : string) : String.append s EmptyString = s.
Proof.
  induction s as [|c s IH]; [reflexivity|].
  now rewrite append_cons, IH.
Qed.

Lemma append_assoc (s1 s2 s3 : string) :
  String.append (String.append s1 s2) s3 = String.append s1 (String.append s2 s3).
Proof.
  induction s1 as [|c s1 IH]; [reflexivity|].
  now rewrite !append_cons, IH.
Qed.

Lemma join_nil : join [] = EmptyString.
Proof. reflexivity. Qed.

Lemma join_app (l1 l2 : list string) :
  join (l1 ++ l2) = String.append (join l1) (join l2).
Proof.
  induction l1 as [|s l1 IH]; [reflexivity|].
  change (String.append s (join (l1 ++ l2))
          = String.append (String.append s (join l1)) (join l2)).
  now rewrite IH, append_assoc.
Qed.

Lemma join_cons (s : string) (l : list string) :
  join (s :: l) = String.append s (join l).
Proof. reflexivity. Qed.

(** ** LineBuffer *)

Lemma held_init is_stderr : held (LineBuffer.__init__ is_stderr) = EmptyString.
Proof. reflexivity. Qed.

Lemma held_append_char o char b w :
  held (fst (LineBuffer.append_char o char (b, w)))
  = String.append (held b) (String char EmptyString).
Proof.
  unfold LineBuffer.append_char, held.
  destruct (LineBuffer.current_line_timestamp b); cbn [time_time];
    destruct (Ascii.eqb char newline); cbn [fst LineBuffer.completed_lines
      LineBuffer.current_line_content].
  all: rewrite ?map_app, ?join_app; cbn [map snd join foldr];
       rewrite ?append_nil_r, ?append_assoc; reflexivity.
Qed.

Lemma held_append_loop o content : forall st,
  held (fst (LineBuffer.append_loop o content st))
  = String.append (held (fst st)) content.
Proof.
  induction content as [|char rest IH]; intros [b w]; cbn [LineBuffer.append_loop fst].
  - now rewrite append_nil_r.
  - rewrite IH, held_append_char, append_assoc. reflexivity.
Qed.

Lemma held_append o content b w :
  held (fst (LineBuffer.append o content b w)) = String.append (held b) content.
Proof. unfold LineBuffer.append. now rewrite held_append_loop. Qed.

Lemma flush_content b :
  join (map content (fst (LineBuffer.flush b))) = held b
  /\ held (snd (LineBuffer.flush b)) = EmptyString.
Proof.
  unfold LineBuffer.flush, held.
  assert (Hm : forall l, map content (map LineBuffer.completed_segment l) = map snd l).
  { intros l. rewrite map_map. reflexivity. }
  destruct (LineBuffer.current_line_content b) as [|c s]; cbn [str_truthy fst snd].
  - cbn [LineBuffer.completed_lines LineBuffer.current_line_content map].
    rewrite Hm, join_nil, append_nil_r. split; reflexivity.
  - cbn [LineBuffer.completed_lines LineBuffer.current_line_content map].
    rewrite map_app, join_app, Hm. cbn [map content].
    rewrite join_cons, join_nil, append_nil_r. split; reflexivity.
Qed.

Lemma run_content o ops : forall b w,
  String.append (LineBuffer.flushed_content (fst (fst (LineBuffer.run o ops b w))))
                (held (snd (fst (LineBuffer.run o ops b w))))
  = String.append (held b) (LineBuffer.appended ops).
Proof.
  unfold LineBuffer.flushed_content.
  induction ops as [|[s|] ops IH]; intros b w; cbn [LineBuffer.run LineBuffer.appended].
  - cbn [fst snd concat map]. now rewrite join_nil, append_nil_l, append_nil_r.
  - destruct (LineBuffer.append o s b w) as [b1 w1] eqn:E.
    rewrite IH, <- append_assoc.
    f_equal. replace b1 with (fst (LineBuffer.append o s b w)) by now rewrite E.
    apply held_append.
  - destruct (LineBuffer.flush b) as [segments b1] eqn:E.
    destruct (LineBuffer.run o ops b1 w) as [[rest b2] w2] eqn:E2.
    cbn [fst snd concat]. rewrite map_app, join_app, append_assoc.
    specialize (IH b1 w). rewrite E2 in IH. cbn [fst snd] in IH. rewrite IH.
    destruct (flush_content b) as [H1 H2]. rewrite E in H1, H2. cbn [fst snd] in H1, H2.
    rewrite H1. unfold held in H2 |- *. rewrite H2, append_nil_l. reflexivity.
Qed.

(** C2. Round trip: whatever the interleaving of [append] and [flush] on a
    fresh buffer, the contents of the segments of all the flushes, the
    final flush included, concatenate to the concatenation of the appended
    strings. *)
Theorem LineBuffer_roundtrip (o : Oracle) (is_stderr : bool) (ops : list LineBuffer.Op)
    (w : World) :
  LineBuffer.flushed_content
    (LineBuffer.run_final o ops (LineBuffer.__init__ is_stderr) w)
  = LineBuffer.appended ops.
Proof.
  unfold LineBuffer.run_final.
  pose proof (run_content o ops (LineBuffer.__init__ is_stderr) w) as H.
  destruct (LineBuffer.run o ops (LineBuffer.__init__ is_stderr) w) as [[flushes b] w'].
  cbn [fst snd] in H. rewrite held_init, append_nil_l in H.
  rewrite <- H. unfold LineBuffer.flushed_content.
  rewrite concat_app, map_app, join_app. cbn [concat]. rewrite app_nil_r.
  now destruct (flush_content b) as [-> _].
Qed.

Lemma stamped_init is_stderr : stamped (LineBuffer.__init__ is_stderr).
Proof. intros H. discriminate H. Qed.

Lemma stamped_append_char o char st :
  stamped (fst (LineBuffer.append_char o char st)).
Proof.
  destruct st as [b w]. unfold LineBuffer.append_char.
  destruct (LineBuffer.current_line_timestamp b); cbn [time_time];
    destruct (Ascii.eqb char newline); cbn [fst]; intros H;
    cbn [LineBuffer.current_line_timestamp LineBuffer.current_line_content] in *;
    first [discriminate H | eexists; reflexivity].
Qed.

Lemma stamped_append_loop o content : forall st,
  stamped (fst st) -> stamped (fst (LineBuffer.append_loop o content st)).
Proof.
  induction content as [|char rest IH]; intros st H; cbn [LineBuffer.append_loop].
  - exact H.
  - apply IH, stamped_append_char.
Qed.

Lemma stamped_flush b : stamped (snd (LineBuffer.flush b)).
Proof.
  unfold LineBuffer.flush, stamped.
  destruct (str_truthy (LineBuffer.current_line_content b)) eqn:E; cbn [snd];
    cbn [LineBuffer.current_line_content]; intros H; [discriminate H | congruence].
Qed.

Lemma flush_timestamps b seg :
  stamped b -> seg ∈ fst (LineBuffer.flush b) -> is_Some (timestamp seg).
Proof.
  unfold LineBuffer.flush. intros Hb.
  destruct (str_truthy (LineBuffer.current_line_content b)) eqn:E; cbn [fst].
  - rewrite elem_of_app, list_elem_of_singleton. intros [H | ->].
    + apply list_elem_of_fmap in H as [l [-> _]]. eexists; reflexivity.
    + exact (Hb E).
  - intros H. apply list_elem_of_fmap in H as [l [-> _]]. eexists; reflexivity.
Qed.

Lemma run_timestamps o ops : forall b w seg,
  stamped b ->
  seg ∈ concat (fst (fst (LineBuffer.run o ops b w))) -> is_Some (timestamp seg).
Proof.
  induction ops as [|[s|] ops IH]; intros b w seg Hb; cbn [LineBuffer.run].
  - cbn. intros H. inversion H.
  - destruct (LineBuffer.append o s b w) as [b1 w1] eqn:E.
    apply IH. replace b1 with (fst (LineBuffer.append o s b w)) by now rewrite E.
    now apply stamped_append_loop.
  - destruct (LineBuffer.flush b) as [segments b1] eqn:E.
    destruct (LineBuffer.run o ops b1 w) as [[rest b2] w2] eqn:E2.
    cbn [fst concat]. rewrite elem_of_app. intros [H | H].
    + apply (flush_timestamps b); [exact Hb | now rewrite E].
    + apply (IH b1 w).
      * replace b1 with (snd (LineBuffer.flush b)) by now rewrite E.
        apply stamped_flush.
      * now rewrite E2.
Qed.

(** No segment that a flush of a buffer returns has a null timestamp,
    whatever was appended and flushed before. *)
Lemma LineBuffer_timestamps_never_null (o : Oracle) (is_stderr : bool)
    (ops : list LineBuffer.Op) (w : World) (seg : Segment) :
  seg ∈ concat (fst (fst (LineBuffer.run o ops (LineBuffer.__init__ is_stderr) w))) ->
  is_Some (timestamp seg).
Proof. apply run_timestamps, stamped_init. Qed.

(** C1. At the history [append("ab"); flush(); append("cd"); flush()] the
    line opened by [ab] is still open when [cd] arrives, and the second
    flush reports [cd] with a fresh, non-null timestamp (the second reading
    of the clock), not with a null one. *)
Theorem LineBuffer_continuation_timestamp (o : Oracle) (is_stderr : bool) :
  fst (fst (LineBuffer.run o
              [LineBuffer.Append "ab"; LineBuffer.Flush;
               LineBuffer.Append "cd"; LineBuffer.Flush]
              (LineBuffer.__init__ is_stderr) world0))
  = [ [ {| timestamp := Some (time_at o 0); content := "ab" |} ];
      [ {| timestamp := Some (time_at o 1); content := "cd" |} ] ].
Proof. reflexivity. Qed.

(** The buffer at work: two lines and the start of a third in one call,
    then the rest of the third. *)
Example LineBuffer_lines (o : Oracle) :
  fst (fst (LineBuffer.run o
              [LineBuffer.Append (String "a" (String newline
                                   (String "b" (String newline (String "c" EmptyString)))));
               LineBuffer.Flush;
               LineBuffer.Append (String "d" (String newline EmptyString));
               LineBuffer.Flush]
              (LineBuffer.__init__ false) world0))
  = [ [ {| timestamp := Some (time_at o 0); content := String "a" (String newline EmptyString) |};
        {| timestamp := Some (time_at o 1); content := String "b" (String newline EmptyString) |};
        {| timestamp := Some (time_at o 2); content := "c" |} ];
      [ {| timestamp := Some (time_at o 3); content := String "d" (String newline EmptyString) |} ] ].
Proof. reflexivity. Qed.

Example LineBuffer_empty_flush (o : Oracle) :
  LineBuffer.flush (LineBuffer.__init__ true) = ([], LineBuffer.__init__ true).
Proof. reflexivity. Qed.

(** ** Logs *)

Lemma new_events_app (w w' : World) (l : list Event) :
  events w' = events w ++ l -> new_events w w' = l.
Proof. intros H. unfold new_events. rewrite H. apply drop_app_length. Qed.

Lemma sent_numbers_app (l1 l2 : list Event) :
  sent_numbers (l1 ++ l2) = sent_numbers l1 ++ sent_numbers l2.
Proof. apply omap_app. Qed.

Lemma completions_app (l1 l2 : list Event) :
  completions (l1 ++ l2) = completions l1 ++ completions l2.
Proof. apply omap_app. Qed.

Lemma seqZ_sorted (n m : Z) : StronglySorted Z.lt (seqZ m n).
Proof.
  destruct (decide (n <= 0)) as [Hn | Hn].
  { rewrite seqZ_nil by exact Hn. constructor. }
  replace n with (Z.of_nat (Z.to_nat n)) by lia.
  generalize (Z.to_nat n) as k. clear n Hn. intros k. revert m.
  induction k as [|k IH]; intros m.
  - rewrite seqZ_nil by lia. constructor.
  - rewrite seqZ_cons by lia. constructor.
    + replace (Z.pred (Z.of_nat (S k))) with (Z.of_nat k) by lia. apply IH.
    + apply Forall_seqZ. intros m' Hm'. lia.
Qed.

Lemma produced_refl P n w : produced P n n w w.
Proof.
  exists []. rewrite app_nil_r. repeat split; [constructor | | lia].
  rewrite seqZ_nil by lia. reflexivity.
Qed.

Lemma produced_trans P n1 n2 n3 w1 w2 w3 :
  produced P n1 n2 w1 w2 -> produced P n2 n3 w2 w3 -> produced P n1 n3 w1 w3.
Proof.
  intros (l1 & E1 & F1 & S1 & H1) (l2 & E2 & F2 & S2 & H2).
  exists (l1 ++ l2). repeat split.
  - rewrite E2, E1. now rewrite app_assoc.
  - apply Forall_app. now split.
  - rewrite sent_numbers_app, S1, S2.
    replace (n3 - n1) with ((n2 - n1) + (n3 - n2)) by lia.
    rewrite seqZ_app by lia. do 2 f_equal. lia.
  - lia.
Qed.

Lemma produced_weaken (P Q : Event -> Prop) n n' w w' :
  (forall e, P e -> Q e) -> produced P n n' w w' -> produced Q n n' w w'.
Proof.
  intros HPQ (l & E & F & S & H). exists l. repeat split; try assumption.
  eapply Forall_impl; [exact F | exact HPQ].
Qed.

Lemma quiet_weaken (P Q : Event -> Prop) w w' :
  (forall e, P e -> Q e) -> quiet P w w' -> quiet Q w w'.
Proof.
  intros HPQ (l & E & F & S). exists l. repeat split; try assumption.
  eapply Forall_impl; [exact F | exact HPQ].
Qed.

Lemma quiet_refl P w : quiet P w w.
Proof. exists []. rewrite app_nil_r. repeat split. constructor. Qed.

Lemma quiet_trans P w1 w2 w3 : quiet P w1 w2 -> quiet P w2 w3 -> quiet P w1 w3.
Proof.
  intros (l1 & E1 & F1 & S1) (l2 & E2 & F2 & S2).
  exists (l1 ++ l2). repeat split.
  - rewrite E2, E1. now rewrite app_assoc.
  - apply Forall_app. now split.
  - now rewrite sent_numbers_app, S1, S2.
Qed.

Lemma quiet_log (P : Event -> Prop) e w :
  P e -> sent_numbers [e] = [] -> quiet P w (log e w).
Proof. intros He Hs. exists [e]. repeat split; [now constructor | exact Hs]. Qed.

Lemma quiet_produced P n w w' : quiet P w w' -> produced P n n w w'.
Proof.
  intros (l & E & F & S). exists l. repeat split; try assumption; [|lia].
  rewrite S, seqZ_nil by lia. reflexivity.
Qed.

Lemma produced_quiet P a b w1 w2 w3 :
  produced P a b w1 w2 -> quiet P w2 w3 -> produced P a b w1 w3.
Proof.
  intros H1 H2. apply (produced_trans P a b b w1 w2 w3 H1).
  now apply quiet_produced.
Qed.

Lemma quiet_then_produced P a b w1 w2 w3 :
  quiet P w1 w2 -> produced P a b w2 w3 -> produced P a b w1 w3.
Proof.
  intros H1 H2. apply (produced_trans P a a b w1 w2 w3); [|exact H2].
  now apply quiet_produced.
Qed.

Lemma send_is_process_event id e : is_send id e -> is_process_event id e.
Proof. destruct e; cbn; intros H; first [exact H | contradiction]. Qed.

Lemma signal_is_process_event id e : is_signal e -> is_process_event id e.
Proof. destruct e; cbn; intros H; first [exact H | contradiction]. Qed.

(** ** OutputStreamManager *)

Lemma append_char_events o char st :
  events (snd (LineBuffer.append_char o char st)) = events (snd st)
  /\ calls (snd (LineBuffer.append_char o char st)) = calls (snd st).
Proof.
  destruct st as [b w]. unfold LineBuffer.append_char.
  destruct (LineBuffer.current_line_timestamp b); cbn [time_time];
    destruct (Ascii.eqb char newline); split; reflexivity.
Qed.

Lemma append_events o content b w :
  events (snd (LineBuffer.append o content b w)) = events w
  /\ calls (snd (LineBuffer.append o content b w)) = calls w.
Proof.
  unfold LineBuffer.append.
  change w with (snd (b, w)) at 2 4. generalize (b, w) as st.
  induction content as [|char rest IH]; intros st; cbn [LineBuffer.append_loop].
  - split; reflexivity.
  - destruct (IH (LineBuffer.append_char o char st)) as [-> ->].
    apply append_char_events.
Qed.

Lemma manager_append_spec o content is_stderr m w :
  let r := OutputStreamManager.append o content is_stderr m w in
  events (snd r) = events w
  /\ OutputStreamManager.chunk_number (fst r) = OutputStreamManager.chunk_number m
  /\ OutputStreamManager.execution_id (fst r) = OutputStreamManager.execution_id m
  /\ OutputStreamManager.running (fst r) = OutputStreamManager.running m.
Proof.
  unfold OutputStreamManager.append. destruct is_stderr.
  - pose proof (append_events o content (OutputStreamManager.stderr_buffer m) w) as [H _].
    destruct (LineBuffer.append o content (OutputStreamManager.stderr_buffer m) w).
    cbn in *. auto.
  - pose proof (append_events o content (OutputStreamManager.stdout_buffer m) w) as [H _].
    destruct (LineBuffer.append o content (OutputStreamManager.stdout_buffer m) w).
    cbn in *. auto.
Qed.

Lemma flush_buffer_spec o id b n w :
  let r := OutputStreamManager.flush_buffer o id b n w in
  produced (is_send id) n (snd (fst r)) w (snd r) /\ held (fst (fst r)) = EmptyString.
Proof.
  unfold OutputStreamManager.flush_buffer.
  destruct (flush_content b) as [_ Hh].
  destruct (LineBuffer.flush b) as [segments b']. cbn [snd] in Hh.
  destruct segments as [|seg segments]; cbn [list_truthy].
  - cbn [fst snd]. split; [apply produced_refl | exact Hh].
  - unfold client_call.
    destruct (client_ok o (calls w)); cbn [fst snd]; (split; [|exact Hh]).
    all: eexists [_]; cbn [events]; repeat split; [repeat constructor | | lia].
    all: replace (n + 1 - n) with 1 by lia; reflexivity.
Qed.

Lemma _flush_spec o m w :
  let r := OutputStreamManager._flush o m w in
  produced (is_send (OutputStreamManager.execution_id m))
           (OutputStreamManager.chunk_number m)
           (OutputStreamManager.chunk_number (fst r)) w (snd r)
  /\ OutputStreamManager.execution_id (fst r) = OutputStreamManager.execution_id m
  /\ OutputStreamManager.running (fst r) = OutputStreamManager.running m
  /\ held (OutputStreamManager.stdout_buffer (fst r)) = EmptyString
  /\ held (OutputStreamManager.stderr_buffer (fst r)) = EmptyString.
Proof.
  unfold OutputStreamManager._flush.
  pose proof (flush_buffer_spec o (OutputStreamManager.execution_id m)
                (OutputStreamManager.stdout_buffer m)
                (OutputStreamManager.chunk_number m) w) as [H1 G1].
  destruct (OutputStreamManager.flush_buffer o (OutputStreamManager.execution_id m)
              (OutputStreamManager.stdout_buffer m)
              (OutputStreamManager.chunk_number m) w) as [[out n1] w1].
  cbn [fst snd] in H1, G1.
  pose proof (flush_buffer_spec o (OutputStreamManager.execution_id m)
                (OutputStreamManager.stderr_buffer m) n1 w1) as [H2 G2].
  destruct (OutputStreamManager.flush_buffer o (OutputStreamManager.execution_id m)
              (OutputStreamManager.stderr_buffer m) n1 w1) as [[err n2] w2].
  cbn [fst snd] in H2, G2 |- *.
  cbn [OutputStreamManager.chunk_number OutputStreamManager.execution_id
       OutputStreamManager.running OutputStreamManager.stdout_buffer
       OutputStreamManager.stderr_buffer].
  repeat split; try assumption. exact (produced_trans _ _ _ _ _ _ _ H1 H2).
Qed.

Lemma finalize_spec o m w :
  let r := OutputStreamManager.finalize o m w in
  produced (is_send (OutputStreamManager.execution_id m))
           (OutputStreamManager.chunk_number m)
           (OutputStreamManager.chunk_number (fst r)) w (snd r)
  /\ OutputStreamManager.execution_id (fst r) = OutputStreamManager.execution_id m
  /\ OutputStreamManager.running (fst r) = false
  /\ held (OutputStreamManager.stdout_buffer (fst r)) = EmptyString
  /\ held (OutputStreamManager.stderr_buffer (fst r)) = EmptyString.
Proof.
  unfold OutputStreamManager.finalize.
  match goal with |- context [OutputStreamManager._flush o ?m' w] =>
    destruct (_flush_spec o m' w) as (P & I & R & H1 & H2) end.
  repeat split; assumption.
Qed.

Lemma manager_step_spec o op m w :
  let r := OutputStreamManager.step o op (m, w) in
  produced (is_send (OutputStreamManager.execution_id m))
           (OutputStreamManager.chunk_number m)
           (OutputStreamManager.chunk_number (fst r)) w (snd r)
  /\ OutputStreamManager.execution_id (fst r) = OutputStreamManager.execution_id m.
Proof.
  destruct op as [content is_stderr|]; cbn [OutputStreamManager.step fst snd].
  - destruct (manager_append_spec o content is_stderr m w) as (E & N & I & _).
    split; [|exact I]. rewrite N. exists []. rewrite app_nil_r.
    repeat split; [exact E | constructor | | lia].
    rewrite seqZ_nil by lia. reflexivity.
  - destruct (_flush_spec o m w) as (P & I & _). now split.
Qed.

Lemma manager_run_spec o ops : forall m w,
  let r := OutputStreamManager.run o ops m w in
  produced (is_send (OutputStreamManager.execution_id m))
           (OutputStreamManager.chunk_number m)
           (OutputStreamManager.chunk_number (fst r)) w (snd r)
  /\ OutputStreamManager.execution_id (fst r) = OutputStreamManager.execution_id m.
Proof.
  unfold OutputStreamManager.run.
  induction ops as [|op ops IH]; intros m w; cbn [foldl].
  - split; [apply produced_refl | reflexivity].
  - destruct (manager_step_spec o op m w) as [P I].
    destruct (OutputStreamManager.step o op (m, w)) as [m1 w1]. cbn [fst snd] in P, I.
    destruct (IH m1 w1) as [P' I']. cbn zeta. rewrite <- I in *.
    split; [exact (produced_trans _ _ _ _ _ _ _ P P') | exact I'].
Qed.


(** ** CommandExecutor *)

Lemma send_signal_quiet sig p w :
  is_signal sig -> quiet is_signal w (Popen.send_signal sig p w).
Proof.
  intros Hs. unfold Popen.send_signal. destruct (Popen.returncode p).
  - apply quiet_refl.
  - apply quiet_log; destruct sig; try contradiction; exact I || reflexivity.
Qed.

(** [_kill_process] sends signals only, and leaves the flag, the path and
    the presence of the handle as they are. *)
Lemma _kill_process_spec c sigkill ex w :
  let r := CommandExecutor._kill_process c sigkill ex w in
  quiet is_signal w (snd r)
  /\ CommandExecutor.cancelled (snd (fst r)) = CommandExecutor.cancelled ex
  /\ CommandExecutor.project_path (snd (fst r)) = CommandExecutor.project_path ex
  /\ (is_Some (CommandExecutor.process (snd (fst r)))
      <-> is_Some (CommandExecutor.process ex)).
Proof.
  unfold CommandExecutor._kill_process.
  destruct (CommandExecutor.process ex) as [p|] eqn:E.
  2:{ cbn [fst snd]. rewrite E. repeat split; auto using quiet_refl. }
  destruct sigkill.
  { cbn [fst snd]. rewrite E. repeat split; auto.
    apply send_signal_quiet. exact I. }
  assert (P1 : quiet is_signal w (Popen.send_signal terminate p w))
    by (apply send_signal_quiet; exact I).
  destruct (Popen.wait (wait_grace c) p) as [[code|e] p1].
  { cbn [fst snd CommandExecutor.set_process CommandExecutor.cancelled
         CommandExecutor.project_path CommandExecutor.process].
    repeat split; eauto. }
  assert (P2 : quiet is_signal w
                 (Popen.send_signal kill p1 (Popen.send_signal terminate p w))).
  { eapply quiet_trans; [exact P1|]. apply send_signal_quiet. exact I. }
  destruct (Popen.wait (wait_killed c) p1) as [[code|e'] p2];
    cbn [fst snd CommandExecutor.set_process CommandExecutor.cancelled
         CommandExecutor.project_path CommandExecutor.process];
    repeat split; eauto.
Qed.

Lemma cancel_spec c force ex w :
  let r := CommandExecutor.cancel c force ex w in
  quiet is_signal w (snd r)
  /\ CommandExecutor.cancelled (snd (fst r)) = true
  /\ CommandExecutor.project_path (snd (fst r)) = CommandExecutor.project_path ex
  /\ (is_Some (CommandExecutor.process (snd (fst r)))
      <-> is_Some (CommandExecutor.process ex)).
Proof.
  unfold CommandExecutor.cancel, CommandExecutor.set_cancelled.
  cbn [CommandExecutor.process].
  destruct (CommandExecutor.process ex) as [p|] eqn:E.
  2:{ cbn [fst snd CommandExecutor.cancelled CommandExecutor.project_path
           CommandExecutor.process]. rewrite ?E.
      repeat split; auto using quiet_refl. }
  assert (H : forall b,
    let r := CommandExecutor._kill_process c b
               {| CommandExecutor.project_path := CommandExecutor.project_path ex;
                  CommandExecutor.process := CommandExecutor.process ex;
                  CommandExecutor.cancelled := true |} w in
    quiet is_signal w (snd r)
    /\ CommandExecutor.cancelled (snd (fst r)) = true
    /\ CommandExecutor.project_path (snd (fst r)) = CommandExecutor.project_path ex
    /\ (is_Some (CommandExecutor.process (snd (fst r)))
        <-> is_Some (CommandExecutor.process ex))).
  { intros b.
    exact (_kill_process_spec c b
             {| CommandExecutor.project_path := CommandExecutor.project_path ex;
                CommandExecutor.process := CommandExecutor.process ex;
                CommandExecutor.cancelled := true |} w). }
  rewrite <- E. destruct force; apply H.
Qed.

Lemma watcher_spec s pt ex w :
  let r := CommandExecutor.watcher s pt ex w in
  quiet is_signal w (snd r)
  /\ CommandExecutor.project_path (fst r) = CommandExecutor.project_path ex
  /\ (is_Some (CommandExecutor.process (fst r))
      <-> is_Some (CommandExecutor.process ex)).
Proof.
  unfold CommandExecutor.watcher.
  destruct (cancel_request s) as [[pt' force]|].
  2:{ cbn [fst snd]. repeat split; auto using quiet_refl. }
  destruct (decide (pt' = pt)).
  2:{ cbn [fst snd]. repeat split; auto using quiet_refl. }
  destruct (cancel_spec (child s) force ex w) as (P & _ & Q & R).
  destruct (CommandExecutor.cancel (child s) force ex w) as [[r ex'] w'].
  cbn [fst snd] in *. auto.
Qed.

(** Naming the result of the next call of the watcher, of the manager or
    of [_kill_process] in the goal, with what is known about it. *)
Ltac next_watcher id :=
  match goal with
  | |- context [CommandExecutor.watcher ?s ?pt ?ex ?w] =>
      let P := fresh "P" in
      let Q := fresh "Q" in
      let R := fresh "R" in
      destruct (watcher_spec s pt ex w) as (P & Q & R);
      apply (quiet_weaken _ _ _ _ (signal_is_process_event id)) in P;
      destruct (CommandExecutor.watcher s pt ex w) as [? ?];
      cbn [fst snd] in P, Q, R
  end.

Ltac next_run :=
  match goal with
  | |- context [OutputStreamManager.run ?o ?ops ?m ?w] =>
      let P := fresh "P" in
      let Q := fresh "Q" in
      destruct (manager_run_spec o ops m w) as (P & Q);
      apply (produced_weaken _ _ _ _ _ _ (send_is_process_event _)) in P;
      destruct (OutputStreamManager.run o ops m w) as [? ?];
      cbn [fst snd] in P, Q
  end.

Ltac next_finalize :=
  match goal with
  | |- context [OutputStreamManager.finalize ?o ?m ?w] =>
      let P := fresh "P" in
      let Q := fresh "Q" in
      let R := fresh "R" in
      let H1 := fresh "H" in
      let H2 := fresh "H" in
      destruct (finalize_spec o m w) as (P & Q & R & H1 & H2);
      apply (produced_weaken _ _ _ _ _ _ (send_is_process_event _)) in P;
      destruct (OutputStreamManager.finalize o m w) as [? ?];
      cbn [fst snd] in P, Q, R, H1, H2
  end.

Ltac next_kill id :=
  match goal with
  | |- context [CommandExecutor._kill_process ?c ?b ?ex ?w] =>
      let P := fresh "P" in
      let Q := fresh "Q" in
      let R := fresh "R" in
      let S := fresh "S" in
      destruct (_kill_process_spec c b ex w) as (P & Q & R & S);
      apply (quiet_weaken _ _ _ _ (signal_is_process_event id)) in P;
      destruct (CommandExecutor._kill_process c b ex w) as [[[[]|?] ?] ?];
      cbn [fst snd] in P, Q, R, S
  end.

(** Composing what is known about consecutive stretches of the log. *)
Ltac chain :=
  repeat match goal with
  | H1 : quiet ?id ?w1 ?w2, H2 : quiet ?id ?w2 ?w3 |- _ =>
      pose proof (quiet_trans id w1 w2 w3 H1 H2); clear H1 H2
  | H1 : produced ?id ?a ?b ?w1 ?w2, H2 : produced ?id ?b ?c ?w2 ?w3 |- _ =>
      pose proof (produced_trans id a b c w1 w2 w3 H1 H2); clear H1 H2
  | H1 : produced ?id ?a ?b ?w1 ?w2, H2 : quiet ?id ?w2 ?w3 |- _ =>
      pose proof (produced_quiet id a b w1 w2 w3 H1 H2); clear H1 H2
  | H1 : quiet ?id ?w1 ?w2, H2 : produced ?id ?a ?b ?w2 ?w3 |- _ =>
      pose proof (quiet_then_produced id a b w1 w2 w3 H1 H2); clear H1 H2
  end.

Ltac same_id :=
  repeat match goal with
  | H : OutputStreamManager.execution_id ?m = _ |- _ => rewrite H in *; clear H
  end.

Ltac wrap_up := cbn in *; same_id; chain; try assumption.

(** [execute] adds events of running the command only; the chunks it sends
    are numbered from 1 to the chunk number its manager ends with. *)
Lemma execute_produced o exe s execution_id command args timeout ex w :
  let run := CommandExecutor.execute o exe s execution_id command args timeout ex w in
  produced (is_process_event execution_id) 0
    (OutputStreamManager.chunk_number (CommandExecutor.manager run))
    w (CommandExecutor.world run).
Proof.
  unfold CommandExecutor.execute.
  next_watcher execution_id. next_watcher execution_id.
  destruct (CommandExecutor.build_cmd o exe _ command args) as [cmd|e].
  2:{ wrap_up. now apply quiet_produced. }
  destruct (spawn_ok s).
  2:{ next_finalize. wrap_up. }
  pose proof (quiet_log (is_process_event execution_id)
                (spawn cmd (CommandExecutor.project_path t0)) w1 I eq_refl) as Hspawn.
  next_watcher execution_id. next_run.
  destruct (CommandExecutor.process t1) as [p|].
  2:{ next_finalize. wrap_up. }
  destruct (Popen.wait (wait_timeout (child s)) p) as [[code|e] p'].
  - next_watcher execution_id. next_finalize.
    destruct (CommandExecutor.cancelled t3); wrap_up.
  - next_kill execution_id; next_finalize; wrap_up.
Qed.

(** Within one execution the chunk numbers are 1, 2, ... across both
    streams, the periodic flushes and the final flush. *)
Lemma execute_sequence_numbers o exe s execution_id command args timeout ex w :
  let run := CommandExecutor.execute o exe s execution_id command args timeout ex w in
  let numbers := sent_numbers (new_events w (CommandExecutor.world run)) in
  numbers = seqZ 1 (OutputStreamManager.chunk_number (CommandExecutor.manager run))
  /\ StronglySorted Z.lt numbers.
Proof.
  destruct (execute_produced o exe s execution_id command args timeout ex w)
    as (l & E & _ & S & _).
  cbn zeta. rewrite (new_events_app _ _ _ E), S.
  replace (0 + 1) with 1 by lia. rewrite Z.sub_0_r.
  split; [reflexivity | apply seqZ_sorted].
Qed.

(** A run with interleaved output on both streams: the three chunks, two
    from the periodic flush and one from the final flush, are numbered
    1, 2, 3. *)
Example execute_numbers_both_streams :
  sent_numbers
    (events (CommandExecutor.world
       (CommandExecutor.execute oracle_up "python"
          {| cancel_request := None; spawn_ok := true;
             child := {| wait_timeout := Some 0; wait_grace := None;
                         wait_killed := None |};
             stream := [ OutputStreamManager.Append "out" false;
                         OutputStreamManager.Append "err" true;
                         OutputStreamManager.Tick;
                         OutputStreamManager.Append "more" true ] |}
          "e1" "migrate" EmptyString 300 (CommandExecutor.__init__ "/srv/app") world0)))
  = [1; 2; 3].
Proof. reflexivity. Qed.

(** Case analysis on a scenario: every choice of the outside but the
    stream is made concrete, and [execute] is run on it. *)
Ltac scenario_cases s :=
  let cr := fresh "cr" in
  let sp := fresh "sp" in
  let ops := fresh "ops" in
  destruct s as [cr sp [[?|] [?|] [?|]] ops];
  destruct cr as [[[] []]|].

Ltac quiet_cbn :=
  with_strategy opaque [OutputStreamManager.run OutputStreamManager.finalize
                        os_path_join OutputStreamManager.__init__] cbn.

Ltac run_execute :=
  unfold CommandExecutor.execute; quiet_cbn;
  repeat (case_decide; [try congruence | try congruence]; quiet_cbn).

(** The two ways a tokenizable argument string is turned into [cmd]. *)
Ltac tokenize Ht :=
  match type of Ht with
  | tokenizes ?o ?args =>
      unfold tokenizes in Ht; unfold CommandExecutor.build_cmd;
      destruct (str_truthy args);
      [ let tokens := fresh "tokens" in
        let E := fresh "E" in
        destruct (Ht eq_refl) as [tokens E]; rewrite E; clear E Ht
      | clear Ht ]
  end.

Ltac settle :=
  run_execute; repeat (first [next_run | next_finalize]); quiet_cbn.

(** On a fresh executor and with the child spawned, the result of
    [execute] in full: what the wait returned, the flag and, on the timeout
    path, the end of the escalation decide it. *)
Lemma execute_result o exe s execution_id command args timeout ex w :
  CommandExecutor.process ex = None ->
  tokenizes o args ->
  spawn_ok s = true ->
  CommandExecutor.outcome
    (CommandExecutor.execute o exe s execution_id command args timeout ex w)
  = Returned
      match waited s with
      | Some code =>
          {| exit_code := code;
             status := match cancel_request s with
                       | None | Some (BeforeEntry, _) => CommandExecutor.status_of code
                       | Some _ => "cancelled"
                       end |}
      | None =>
          {| exit_code := -1;
             status := if reaped (child s) then "timed_out" else "failed" |}
      end.
Proof.
  intros Hp Ht Hs.
  destruct ex as [path proc flag]. cbn in Hp. subst proc.
  scenario_cases s; cbn in Hs; subst.
  all: unfold waited, reaped_by_watcher, reaped;
    cbn [cancel_request child wait_timeout wait_grace wait_killed].
  all: unfold CommandExecutor.execute; tokenize Ht; settle; reflexivity.
Qed.




(** Without a cancellation the result follows the exit code: [success]
    for 0, [failed] for anything else. *)
Lemma execute_uncancelled o exe s execution_id command args timeout ex w code :
  CommandExecutor.process ex = None ->
  tokenizes o args ->
  spawn_ok s = true ->
  cancel_request s = None ->
  waited s = Some code ->
  CommandExecutor.outcome
    (CommandExecutor.execute o exe s execution_id command args timeout ex w)
  = Returned {| exit_code := code; status := CommandExecutor.status_of code |}.
Proof.
  intros Hp Ht Hs Hc Hw.
  rewrite (execute_result o exe s execution_id command args timeout ex w Hp Ht Hs).
  now rewrite Hw, Hc.
Qed.

Example execute_success :
  CommandExecutor.outcome
    (CommandExecutor.execute oracle_up "python" quick_exit
       "e1" "migrate" "--check" 300 (CommandExecutor.__init__ "/srv/app") world0)
  = Returned {| exit_code := 0; status := "success" |}.
Proof. reflexivity. Qed.

(** A spawn that fails is reported as [(-1, failed)]; nothing is sent. *)
Example execute_spawn_failure :
  let run :=
    CommandExecutor.execute oracle_up "python"
      {| cancel_request := None; spawn_ok := false;
         child := {| wait_timeout := None; wait_grace := None; wait_killed := None |};
         stream := [] |}
      "e1" "migrate" EmptyString 300 (CommandExecutor.__init__ "/srv/app") world0 in
  CommandExecutor.outcome run = Returned {| exit_code := -1; status := "failed" |}
  /\ events (CommandExecutor.world run) = [].
Proof. split; reflexivity. Qed.





(** C10. On an executor without a process, [cancel] sets the flag, returns
    and sends nothing; and since [execute] clears the flag when it starts,
    [execute] after such a [cancel] does exactly what it does without it,
    whether the [cancel] came before the call or, from the watcher, before
    the reset. *)
Theorem cancel_before_execute (o : Oracle) (exe : string) (s : Scenario)
    (execution_id command args : string) (timeout : Z)
    (ex : CommandExecutor.t) (w : World) (c : Child) (force : bool) :
  CommandExecutor.process ex = None ->
  CommandExecutor.cancel c force ex w
  = (Returned tt, CommandExecutor.set_cancelled true ex, w)
  /\ CommandExecutor.execute o exe s execution_id command args timeout
       (CommandExecutor.set_cancelled true ex) w
     = CommandExecutor.execute o exe s execution_id command args timeout ex w
  /\ CommandExecutor.execute o exe
       {| cancel_request := Some (BeforeEntry, force); spawn_ok := spawn_ok s;
          child := child s; stream := stream s |}
       execution_id command args timeout ex w
     = CommandExecutor.execute o exe
         {| cancel_request := None; spawn_ok := spawn_ok s;
            child := child s; stream := stream s |}
         execution_id command args timeout ex w.
Proof.
  intros Hp. destruct ex as [path proc flag]. cbn in Hp. subst proc.
  split; [reflexivity|]. split.
  - scenario_cases s; run_execute; reflexivity.
  - destruct force; reflexivity.
Qed.

Lemma cancel_before_execute_witness :
  CommandExecutor.cancel
    {| wait_timeout := Some 0; wait_grace := None; wait_killed := None |}
    true (CommandExecutor.__init__ "/srv/app") world0
  = (Returned tt,
     CommandExecutor.set_cancelled true (CommandExecutor.__init__ "/srv/app"), world0).
Proof.
  apply (cancel_before_execute oracle_up "python"
           {| cancel_request := None; spawn_ok := true;
              child := {| wait_timeout := Some 0; wait_grace := None;
                          wait_killed := None |};
              stream := [] |}
           "e1" "migrate" EmptyString 300 (CommandExecutor.__init__ "/srv/app") world0
           {| wait_timeout := Some 0; wait_grace := None; wait_killed := None |}
           true).
  reflexivity.
Defined.

(** What [execute] returns or raises, on a fresh executor: a result with
    one of the four statuses, or the [ValueError] of the tokenizer. *)
Lemma execute_outcome o exe s execution_id command args timeout ex w :
  CommandExecutor.process ex = None ->
  match CommandExecutor.outcome
          (CommandExecutor.execute o exe s execution_id command args timeout ex w) with
  | Returned r => status r ∈ terminal_statuses
  | Raised e => e = ValueError /\ str_truthy args = true /\ shlex_split o args = None
  end.
Proof.
  intros Hp. destruct ex as [path proc flag]. cbn in Hp. subst proc.
  unfold terminal_statuses, CommandExecutor.execute, CommandExecutor.build_cmd,
    CommandExecutor.status_of.
  destruct (str_truthy args); [destruct (shlex_split o args)|].
  all: scenario_cases s; destruct sp; settle; auto; repeat case_decide.
  all: set_solver.
Qed.

Lemma execute_returns o exe s execution_id command args timeout ex w :
  CommandExecutor.process ex = None ->
  tokenizes o args ->
  exists r, CommandExecutor.outcome
              (CommandExecutor.execute o exe s execution_id command args timeout ex w)
            = Returned r
            /\ status r ∈ terminal_statuses.
Proof.
  intros Hp Ht.
  pose proof (execute_outcome o exe s execution_id command args timeout ex w Hp) as H.
  destruct (CommandExecutor.outcome _) as [r|e].
  - eauto.
  - destruct H as (_ & H1 & H2). destruct (Ht H1) as [tokens E]. congruence.
Qed.

Lemma completions_process_events id l :
  Forall (is_process_event id) l -> completions l = [].
Proof.
  induction 1 as [|e l He _ IH]; [reflexivity|].
  change (completions (e :: l)) with (completions ([e] ++ l)).
  rewrite completions_app, IH. destruct e; cbn in He; try contradiction; reflexivity.
Qed.


(** ** Security policy *)

Example blocklist_default :
  is_command_allowed default_settings "flush"
  = (false, "in DJANGOCOMMAND_DISALLOWED_COMMANDS blocklist"%string)
  /\ is_command_allowed default_settings "migrate" = (true, EmptyString).
Proof. split; reflexivity. Qed.

(** A non-empty allowlist takes precedence: the blocklist is not read. *)
Example allowlist_precedence :
  let settings := {| DJANGOCOMMAND_ALLOWED_COMMANDS := Some ["flush"%string];
                     DJANGOCOMMAND_DISALLOWED_COMMANDS := None |} in
  is_command_allowed settings "flush" = (true, EmptyString)
  /\ is_command_allowed settings "migrate"
     = (false, "not in DJANGOCOMMAND_ALLOWED_COMMANDS allowlist"%string).
Proof. split; reflexivity. Qed.

(** ** Agent *)

(** The log of [_run_execution], by cases. *)
Lemma _run_execution_log o settings exe s execution_id command args timeout a w :
  let '(r, a', w') :=
    Agent._run_execution o settings exe s execution_id command args timeout a w in
  if fst (is_command_allowed settings command) then
    Agent._active_executions a' = delete execution_id (Agent._active_executions a)
    /\ exists mid,
         events w' = events w
                     ++ active_insert execution_id :: start_execution execution_id :: mid
                     ++ [active_pop execution_id]
         /\ if client_ok o (calls w) then
              match r with
              | Returned _ =>
                  exists l c st,
                    mid = l ++ [complete_execution execution_id c st]
                    /\ Forall (is_process_event execution_id) l
                    /\ st ∈ terminal_statuses
              | Raised e =>
                  Forall (is_process_event execution_id) mid
                  /\ e = ValueError /\ ~ tokenizes o args
              end
            else mid = [] /\ r = Returned tt
  else
    r = Returned tt /\ a' = a
    /\ events w' = events w ++
         if client_ok o (calls w) then
           [ start_execution execution_id;
             send_output execution_id
               [ {| timestamp := Some (time_at o (clock w));
                    content := Agent.rejection_message command
                                 (snd (is_command_allowed settings command)) |} ]
               true 1;
             complete_execution execution_id (-1) "failed" ]
         else [ start_execution execution_id ].
Proof.
  unfold Agent._run_execution.
  destruct (is_command_allowed settings command) as [[] reason]; cbn [negb fst snd].
  2:{ unfold Agent._reject_execution, client_call, time_time.
      destruct (client_ok o (calls w));
        with_strategy opaque [Agent.rejection_message] cbn; [|repeat split].
      destruct (client_ok o (S (calls w)));
        with_strategy opaque [Agent.rejection_message] cbn;
        destruct (client_ok o (S (S (calls w))));
        with_strategy opaque [Agent.rejection_message] cbn;
        rewrite <- ?app_assoc; repeat split. }
  unfold client_call at 1. cbn [calls events log].
  destruct (client_ok o (calls w)); cbn [negb].
  2:{ cbn. split; [apply delete_insert_eq|]. exists [].
      split; [|auto]. rewrite <- ?app_assoc. reflexivity. }
  pose proof (execute_outcome o exe s execution_id command args timeout
                (CommandExecutor.__init__ (Agent._project_path a))
                {| clock := clock w; calls := S (calls w);
                   events := (events w ++ [active_insert execution_id])
                             ++ [start_execution execution_id] |} eq_refl) as Ho.
  pose proof (execute_produced o exe s execution_id command args timeout
                (CommandExecutor.__init__ (Agent._project_path a))
                {| clock := clock w; calls := S (calls w);
                   events := (events w ++ [active_insert execution_id])
                             ++ [start_execution execution_id] |}) as Hp.
  cbn zeta in Hp.
  destruct (CommandExecutor.execute _ _ _ _ _ _ _ _ _) as [out ex' w1 p m].
  cbn [CommandExecutor.outcome CommandExecutor.world CommandExecutor.manager] in *.
  destruct Hp as (l & E & F & _). cbn [events] in E.
  destruct out as [r|e].
  - unfold client_call. destruct (client_ok o (calls w1)); cbn.
    all: split; [apply delete_insert_eq|].
    all: exists (l ++ [complete_execution execution_id (exit_code r) (status r)]).
    all: split; [rewrite E, <- ?app_assoc; reflexivity|].
    all: exists l, (exit_code r), (status r); auto.
  - cbn. split; [apply delete_insert_eq|]. exists l.
    split; [rewrite E, <- ?app_assoc; reflexivity|].
    destruct Ho as (-> & H1 & H2). repeat split; [exact F|].
    intros Ht. destruct (Ht H1) as [tokens Et]. congruence.
Qed.

Lemma rejection_message_contains (command reason : string) :
  exists before after,
    Agent.rejection_message command reason
    = String.append before (String.append reason after).
Proof.
  unfold Agent.rejection_message.
  match goal with
  | |- context [join (?a :: ?b :: ?c :: ?d :: ?e :: reason :: ?rest)] =>
      exists (join [a; b; c; d; e]), (join rest);
      change (a :: b :: c :: d :: e :: reason :: rest)
        with ([a; b; c; d; e] ++ reason :: rest)
  end.
  now rewrite join_app, join_cons.
Qed.

Lemma failed_terminal : "failed"%string ∈ terminal_statuses.
Proof. unfold terminal_statuses. set_solver. Qed.

(** C3, amended. Whatever the outside does, [_run_execution] calls
    [complete_execution] at most once, for its own execution id and with
    one of the four terminal statuses; it calls it exactly once when its
    call of [start_execution] returned and the argument string is empty or
    accepted by the tokenizer. *)
Theorem run_execution_completes_once (o : Oracle) (settings : Settings) (exe : string)
    (s : Scenario) (execution_id command args : string) (timeout : Z)
    (a : Agent.t) (w : World) :
  let '(_, _, w') :=
    Agent._run_execution o settings exe s execution_id command args timeout a w in
  let done := completions (new_events w w') in
  (length done <= 1)%nat
  /\ (forall i c st, (i, c, st) ∈ done -> i = execution_id /\ st ∈ terminal_statuses)
  /\ (client_ok o (calls w) = true -> tokenizes o args -> length done = 1%nat)
  /\ (client_ok o (calls w) = false -> done = []).
Proof.
  pose proof (_run_execution_log o settings exe s execution_id command args timeout a w)
    as H.
  destruct (Agent._run_execution o settings exe s execution_id command args timeout a w)
    as [[r a'] w'].
  cbn zeta.
  assert (Hone : forall c st, st ∈ terminal_statuses ->
    completions (new_events w w') = [(execution_id, c, st)] ->
    client_ok o (calls w) = true ->
    (length (completions (new_events w w')) <= 1)%nat
    /\ (forall i c st, (i, c, st) ∈ completions (new_events w w') ->
          i = execution_id /\ st ∈ terminal_statuses)
    /\ (client_ok o (calls w) = true -> tokenizes o args ->
          length (completions (new_events w w')) = 1%nat)
    /\ (client_ok o (calls w) = false -> completions (new_events w w') = [])).
  { intros c st Hst -> Hok. split; [cbn; lia|]. split; [|split; [reflexivity|]].
    - intros i c' st' Hin. apply list_elem_of_singleton in Hin.
      injection Hin as -> -> ->. auto.
    - rewrite Hok. discriminate. }
  assert (Hnone : (client_ok o (calls w) = true -> tokenizes o args -> False) ->
    completions (new_events w w') = [] ->
    (length (completions (new_events w w')) <= 1)%nat
    /\ (forall i c st, (i, c, st) ∈ completions (new_events w w') ->
          i = execution_id /\ st ∈ terminal_statuses)
    /\ (client_ok o (calls w) = true -> tokenizes o args ->
          length (completions (new_events w w')) = 1%nat)
    /\ (client_ok o (calls w) = false -> completions (new_events w w') = [])).
  { intros Hno ->. split; [cbn; lia|]. split; [|split].
    - intros i c st Hin. inversion Hin.
    - intros H1 H2. destruct (Hno H1 H2).
    - reflexivity. }
  destruct (fst (is_command_allowed settings command)).
  - destruct H as (_ & mid & E & H).
    apply new_events_app in E.
    change (active_insert execution_id :: start_execution execution_id
            :: mid ++ [active_pop execution_id])
      with ([active_insert execution_id; start_execution execution_id]
            ++ mid ++ [active_pop execution_id]) in E.
    destruct (client_ok o (calls w)).
    + destruct r as [[]|e].
      * destruct H as (l & c & st & -> & F & Hst).
        apply (Hone c st Hst); [|reflexivity]. rewrite E, !completions_app.
        now rewrite (completions_process_events _ _ F).
      * destruct H as (F & -> & Hn).
        apply Hnone; [intros _ Ht; exact (Hn Ht)|].
        rewrite E, !completions_app.
        now rewrite (completions_process_events _ _ F).
    + destruct H as (-> & _).
      apply Hnone; [discriminate|]. now rewrite E.
  - destruct H as (_ & _ & E). apply new_events_app in E.
    destruct (client_ok o (calls w)).
    + apply (Hone (-1) "failed"%string failed_terminal); [|reflexivity].
      now rewrite E.
    + apply Hnone; [discriminate|]. now rewrite E.
Qed.

Lemma run_execution_completes_once_witness :
  length (completions
            (new_events world0
               (snd (Agent._run_execution oracle_up default_settings "python" quick_exit
                       "e1" "migrate" EmptyString 300 (Agent.__init__ "/srv/app") world0))))
  = 1%nat.
Proof.
  pose proof (run_execution_completes_once oracle_up default_settings "python"
                quick_exit "e1" "migrate" EmptyString 300 (Agent.__init__ "/srv/app") world0) as H.
  destruct (Agent._run_execution oracle_up default_settings "python" quick_exit
              "e1" "migrate" EmptyString 300 (Agent.__init__ "/srv/app") world0) as [[r a'] w'].
  destruct H as (_ & _ & H & _). apply H.
  - reflexivity.
  - intros Hargs. discriminate Hargs.
Defined.

(** With the control plane unreachable, the call of [start_execution]
    raises and [_run_execution] returns at once: [complete_execution] is
    never called for the execution. *)
Lemma run_execution_never_completed :
  completions
    (new_events world0
       (snd (Agent._run_execution oracle_down default_settings "python" quick_exit
               "e1" "migrate" EmptyString 300 (Agent.__init__ "/srv/app") world0)))
  = [].
Proof. reflexivity. Qed.

(** C6, amended. For a command that the policy disallows,
    [_run_execution] calls [start_execution] once, spawns nothing and
    leaves the dict of active executions untouched.  When that call
    returns, it goes on to send one chunk, numbered 1 and tagged stderr,
    whose single segment carries the rejection message with the reason in
    it, and to call [complete_execution] with exit code -1 and status
    [failed]; when that call raises, it stops there. *)
Theorem rejected_execution (o : Oracle) (settings : Settings) (exe : string)
    (s : Scenario) (execution_id command args : string) (timeout : Z)
    (a : Agent.t) (w : World) :
  fst (is_command_allowed settings command) = false ->
  let reason := snd (is_command_allowed settings command) in
  let '(r, a', w') :=
    Agent._run_execution o settings exe s execution_id command args timeout a w in
  r = Returned tt
  /\ a' = a
  /\ new_events w w'
     = (if client_ok o (calls w) then
          [ start_execution execution_id;
            send_output execution_id
              [ {| timestamp := Some (time_at o (clock w));
                   content := Agent.rejection_message command reason |} ]
              true 1;
            complete_execution execution_id (-1) "failed" ]
        else [ start_execution execution_id ])
  /\ Forall (fun e => ~ is_spawn e /\ ~ is_active_update e) (new_events w w')
  /\ exists before after,
       Agent.rejection_message command reason
       = String.append before (String.append reason after).
Proof.
  intros Hno reason.
  pose proof (_run_execution_log o settings exe s execution_id command args timeout a w)
    as H.
  destruct (Agent._run_execution o settings exe s execution_id command args timeout a w)
    as [[r a'] w'].
  rewrite Hno in H. destruct H as (-> & -> & E). apply new_events_app in E.
  split; [reflexivity|]. split; [reflexivity|]. split; [exact E|].
  split; [|apply rejection_message_contains].
  rewrite E. destruct (client_ok o (calls w)); repeat constructor; cbn; tauto.
Qed.

Lemma rejected_execution_witness :
  new_events world0
    (snd (Agent._run_execution oracle_up default_settings "python" quick_exit
            "e7" "flush" EmptyString 300 (Agent.__init__ "/srv/app") world0))
  = [ start_execution "e7";
      send_output "e7"
        [ {| timestamp := Some 0;
             content := Agent.rejection_message "flush"
                          "in DJANGOCOMMAND_DISALLOWED_COMMANDS blocklist" |} ]
        true 1;
      complete_execution "e7" (-1) "failed" ].
Proof.
  pose proof (rejected_execution oracle_up default_settings "python" quick_exit
                "e7" "flush" EmptyString 300 (Agent.__init__ "/srv/app") world0 eq_refl) as H.
  cbn zeta in H.
  destruct (Agent._run_execution oracle_up default_settings "python" quick_exit
              "e7" "flush" EmptyString 300 (Agent.__init__ "/srv/app") world0) as [[r a'] w'].
  destruct H as (_ & _ & H & _). exact H.
Defined.

(** A disallowed command with the control plane unreachable: after the
    failed [start_execution] nothing is sent and nothing is completed. *)
Lemma rejected_execution_unreported :
  new_events world0
    (snd (Agent._run_execution oracle_down default_settings "python" quick_exit
            "e7" "flush" EmptyString 300 (Agent.__init__ "/srv/app") world0))
  = [ start_execution "e7" ].
Proof. reflexivity. Qed.




(** ** The coordinator *)

Lemma size_list_to_set_le (l : list string) :
  (size (list_to_set l : gset string) <= length l)%nat.
Proof.
  induction l as [|x l IH]; [rewrite list_to_set_nil, size_empty; cbn; lia|].
  rewrite list_to_set_cons, size_union_alt, size_singleton.
  assert (Hs : (size (list_to_set l ∖ {[x]} : gset string)
                <= size (list_to_set l : gset string))%nat).
  { apply subseteq_size. apply subseteq_difference_l. reflexivity. }
  cbn [length]. lia.
Qed.

Lemma covered_size (st : Agent.State) :
  covered st ->
  (size (Agent._active_executions (Agent.agent st)) <= length (Agent.workers st))%nat.
Proof.
  intros Hc.
  rewrite <- (size_dom (D := gset string)).
  etransitivity; [|etransitivity;
    [apply (size_list_to_set_le ((fun wk => id (Agent.job wk)) <$> Agent.workers st))|]].
  - apply subseteq_size. intros i Hi. apply elem_of_dom in Hi.
    destruct (Hc i Hi) as (wk & Hin & _ & <-).
    apply elem_of_list_to_set, list_elem_of_fmap. eauto.
  - now rewrite length_fmap.
Qed.

Lemma pool_invariant_init project_path : pool_invariant (Agent.init project_path).
Proof.
  split; [cbn; unfold Agent.MAX_CONCURRENT_EXECUTIONS; lia|].
  intros i [x Hx]. cbn in Hx. rewrite lookup_empty in Hx. discriminate.
Qed.

Lemma pool_invariant_poll_item st : pool_invariant st -> pool_invariant (Agent.poll_item st).
Proof.
  unfold Agent.poll_item. destruct (Agent.pending st) as [|e rest]; [auto|].
  destruct (Agent.consider e (Agent.agent st)); auto.
Qed.

Lemma pool_invariant_worker_start st :
  pool_invariant st -> pool_invariant (Agent.worker_start st).
Proof.
  unfold Agent.worker_start. intros [Hl Hc].
  destruct (Agent.queue st) as [|e rest]; [now split|].
  case_bool_decide; [|now split]. split.
  - cbn. rewrite length_app. cbn. lia.
  - intros i Hi. destruct (Hc i Hi) as (wk & Hin & Hp & Hid).
    exists wk. cbn. rewrite elem_of_app. auto.
Qed.

Lemma pool_invariant_worker_step settings i st :
  pool_invariant st -> pool_invariant (Agent.worker_step settings i st).
Proof.
  unfold Agent.worker_step. intros [Hl Hc].
  destruct (Agent.workers st !! i) as [wk|] eqn:Hwk; [|now split].
  destruct (Agent.phase wk) eqn:Hph.
  - destruct (fst (is_command_allowed settings (command (Agent.job wk)))).
    + split; [cbn; now rewrite length_insert|].
      intros j Hj. cbn in Hj |- *.
      destruct (decide (id (Agent.job wk) = j)) as [<-|Hne].
      * exists {| Agent.job := Agent.job wk; Agent.phase := Agent.Tracked |}.
        split; [|split; reflexivity].
        apply list_elem_of_lookup. exists i.
        apply list_lookup_insert_eq. now apply lookup_lt_Some in Hwk.
      * rewrite lookup_insert_ne in Hj by exact Hne.
        destruct (Hc j Hj) as (wk' & Hin & Hp & Hid).
        exists wk'. split; [|now split].
        apply list_elem_of_lookup in Hin as [k Hk].
        apply list_elem_of_lookup. exists k.
        rewrite list_lookup_insert_ne; [exact Hk|].
        intros ->. rewrite Hwk in Hk. injection Hk as ->. congruence.
    + split; [cbn; rewrite length_delete by eauto; lia|].
      intros j Hj. cbn in Hj |- *.
      destruct (Hc j Hj) as (wk' & Hin & Hp & Hid).
      exists wk'. split; [|now split].
      apply list_elem_of_lookup in Hin as [k Hk].
      apply list_elem_of_lookup.
      destruct (decide (k < i)%nat).
      * exists k. now rewrite list_lookup_delete_lt.
      * assert (k <> i) by (intros ->; rewrite Hwk in Hk; injection Hk as ->; congruence).
        exists (pred k). rewrite list_lookup_delete_ge by lia.
        now replace (S (pred k)) with k by lia.
  - split; [cbn; rewrite length_delete by eauto; lia|].
    intros j Hj. cbn in Hj |- *.
    destruct (decide (id (Agent.job wk) = j)) as [<-|Hne].
    { rewrite lookup_delete_eq in Hj. destruct Hj as [? Hj]. discriminate. }
    rewrite lookup_delete_ne in Hj by exact Hne.
    destruct (Hc j Hj) as (wk' & Hin & Hp & Hid).
    exists wk'. split; [|now split].
    apply list_elem_of_lookup in Hin as [k Hk].
    apply list_elem_of_lookup.
    destruct (decide (k < i)%nat).
    + exists k. now rewrite list_lookup_delete_lt.
    + assert (k <> i) by (intros ->; rewrite Hwk in Hk; injection Hk as ->; congruence).
      exists (pred k). rewrite list_lookup_delete_ge by lia.
      now replace (S (pred k)) with k by lia.
Qed.

Lemma pool_invariant_step settings st st' :
  Agent.step settings st st' -> pool_invariant st -> pool_invariant st'.
Proof.
  destruct 1; intros Hinv.
  - exact Hinv.
  - now apply pool_invariant_poll_item.
  - now apply pool_invariant_worker_start.
  - now apply pool_invariant_worker_step.
Qed.

Lemma pool_invariant_reachable settings project_path st :
  Agent.reachable settings project_path st -> pool_invariant st.
Proof.
  unfold Agent.reachable. revert st. apply rtc_ind_r.
  - apply pool_invariant_init.
  - intros y z _ Hyz IH. exact (pool_invariant_step settings y z Hyz IH).
Qed.

(** C7. In every state that the poll loop and the pool threads can reach,
    in any interleaving, the dict of active executions holds no more than
    [MAX_CONCURRENT_EXECUTIONS] = 4 entries and no id twice; and when the
    poll loop comes to an execution whose id is in the dict, it goes on to
    the rest of the list and submits nothing. *)
Theorem active_executions_bounded (settings : Settings) (project_path : string)
    (st : Agent.State) :
  Agent.reachable settings project_path st ->
  (size (Agent._active_executions (Agent.agent st)) <= 4)%nat
  /\ Agent.MAX_CONCURRENT_EXECUTIONS = 4%nat
  /\ NoDup (map_to_list (Agent._active_executions (Agent.agent st))).*1
  /\ forall e rest,
       Agent.pending st = e :: rest ->
       is_Some (Agent._active_executions (Agent.agent st) !! id e) ->
       Agent.poll_item st
       = {| Agent.agent := Agent.agent st; Agent.pending := rest;
            Agent.queue := Agent.queue st; Agent.workers := Agent.workers st |}.
Proof.
  intros Hr. destruct (pool_invariant_reachable _ _ _ Hr) as [Hl Hc].
  split; [|split; [reflexivity|split]].
  - etransitivity; [apply covered_size, Hc | exact Hl].
  - apply NoDup_fst_map_to_list.
  - intros e rest Hp He. unfold Agent.poll_item, Agent.consider. rewrite Hp.
    now rewrite bool_decide_eq_true_2.
Qed.

Lemma active_executions_bounded_witness :
  Agent.queue (Agent.poll_item polled_again) = []
  /\ Agent.workers (Agent.poll_item polled_again)
     = [ {| Agent.job := migrate_job; Agent.phase := Agent.Tracked |} ].
Proof.
  assert (Hr : Agent.reachable default_settings "/srv/app" polled_again).
  { unfold Agent.reachable, polled_again.
    eapply rtc_r; [|apply Agent.step_poll_begin; reflexivity].
    eapply rtc_r; [|apply Agent.step_worker].
    eapply rtc_r; [|apply Agent.step_worker_start].
    eapply rtc_r; [|apply Agent.step_poll_item].
    eapply rtc_r; [|apply Agent.step_poll_begin; reflexivity].
    apply rtc_refl. }
  destruct (active_executions_bounded default_settings "/srv/app" polled_again Hr)
    as (_ & _ & _ & H).
  rewrite (H migrate_job [] eq_refl).
  - split; reflexivity.
  - eexists. vm_compute. reflexivity.
Defined.

(** * Further properties *)

(** ** LineBuffer: timestamps *)

Lemma readings_S o c n :
  readings o c (S n) = readings o c n ++ [Some (time_at o (c + n)%nat)].
Proof. unfold readings. now rewrite seq_S, map_app. Qed.

Lemma opened_init is_stderr : opened (LineBuffer.__init__ is_stderr).
Proof. split; [discriminate | intros [x H]; discriminate]. Qed.

Lemma append_nonempty s c : str_truthy (String.append s (String c EmptyString)) = true.
Proof. destruct s; reflexivity. Qed.

Lemma stamps_append_char o c0 out char b w :
  stamps_in_step o c0 out b w ->
  stamps_in_step o c0 out (fst (LineBuffer.append_char o char (b, w)))
                          (snd (LineBuffer.append_char o char (b, w))).
Proof.
  unfold stamps_in_step, pending_stamps, opened, LineBuffer.append_char.
  intros (E & Hc & Ho).
  destruct (LineBuffer.current_line_timestamp b) as [t|] eqn:Et; cbn [time_time];
    destruct (Ascii.eqb char newline);
    cbn [fst snd clock LineBuffer.completed_lines LineBuffer.current_line_timestamp
         LineBuffer.current_line_content option_list str_truthy];
    cbn [option_list] in E; rewrite ?map_app, ?app_nil_r in E;
    rewrite ?map_app, ?app_nil_r; cbn [map fst] in E |- *.
  - split; [exact E|]. split; [exact Hc|].
    split; [discriminate | intros [x H]; discriminate].
  - split; [exact E|]. split; [exact Hc|].
    split; [eauto | intros _; apply append_nonempty].
  - replace (S (clock w) - c0)%nat with (S (clock w - c0)) by lia.
    rewrite readings_S, <- E.
    replace (c0 + (clock w - c0))%nat with (clock w) by lia.
    rewrite <- !app_assoc. split; [reflexivity|]. split; [lia|].
    split; [discriminate | intros [x H]; discriminate].
  - replace (S (clock w) - c0)%nat with (S (clock w - c0)) by lia.
    rewrite readings_S, <- E.
    replace (c0 + (clock w - c0))%nat with (clock w) by lia.
    rewrite <- !app_assoc. split; [reflexivity|]. split; [lia|].
    split; [eauto | intros _; apply append_nonempty].
Qed.

Lemma stamps_append o c0 out content b w :
  stamps_in_step o c0 out b w ->
  stamps_in_step o c0 out (fst (LineBuffer.append o content b w))
                          (snd (LineBuffer.append o content b w)).
Proof.
  unfold LineBuffer.append. revert b w.
  induction content as [|char rest IH]; intros b w H; cbn [LineBuffer.append_loop].
  - exact H.
  - pose proof (stamps_append_char o c0 out char b w H) as H'.
    destruct (LineBuffer.append_char o char (b, w)) as [b1 w1]. now apply IH.
Qed.

Lemma stamps_flush o c0 out b w :
  stamps_in_step o c0 out b w ->
  stamps_in_step o c0 (out ++ map timestamp (fst (LineBuffer.flush b)))
                 (snd (LineBuffer.flush b)) w.
Proof.
  unfold stamps_in_step, pending_stamps, opened, LineBuffer.flush.
  intros (E & Hc & Ho).
  assert (Hm : forall l, map timestamp (map LineBuffer.completed_segment l)
                         = map Some (map fst l)).
  { intros l. rewrite !map_map. reflexivity. }
  destruct (str_truthy (LineBuffer.current_line_content b)) eqn:Et;
    cbn [fst snd LineBuffer.completed_lines LineBuffer.current_line_timestamp
         LineBuffer.current_line_content map app option_list str_truthy].
  - destruct (proj1 Ho eq_refl) as [t Ht]. rewrite Ht in E |- *.
    rewrite map_app, Hm. cbn [map timestamp option_list]. rewrite app_nil_r.
    rewrite map_app in E. cbn [option_list map] in E. rewrite <- E.
    split; [reflexivity|]. split; [exact Hc|].
    split; [discriminate | intros [x H]; discriminate].
  - destruct (LineBuffer.current_line_timestamp b) as [t|] eqn:Ets.
    { destruct Ho as [_ Ho]. specialize (Ho (ex_intro _ t eq_refl)). discriminate. }
    rewrite Hm. rewrite map_app, app_assoc in E.
    split; [exact E|]. split; [exact Hc|].
    rewrite ?Et, ?Ets. split; [discriminate | intros [x H]; discriminate].
Qed.

Lemma stamps_run o c0 ops : forall out b w,
  stamps_in_step o c0 out b w ->
  stamps_in_step o c0
    (out ++ map timestamp (concat (fst (fst (LineBuffer.run o ops b w)))))
    (snd (fst (LineBuffer.run o ops b w))) (snd (LineBuffer.run o ops b w)).
Proof.
  induction ops as [|[s|] ops IH]; intros out b w H; cbn [LineBuffer.run].
  - cbn. now rewrite app_nil_r.
  - pose proof (stamps_append o c0 out s b w H) as H'.
    destruct (LineBuffer.append o s b w) as [b1 w1]. now apply IH.
  - pose proof (stamps_flush o c0 out b w H) as H'.
    destruct (LineBuffer.flush b) as [segments b1]. cbn [fst snd] in H'.
    specialize (IH _ _ _ H').
    destruct (LineBuffer.run o ops b1 w) as [[rest b2] w2].
    cbn [fst snd concat] in *. now rewrite map_app, app_assoc.
Qed.

Lemma flush_pending b : opened b -> pending_stamps (snd (LineBuffer.flush b)) = [].
Proof.
  unfold opened, pending_stamps, LineBuffer.flush. intros Ho.
  destruct (str_truthy (LineBuffer.current_line_content b)) eqn:Et;
    cbn [fst snd LineBuffer.completed_lines LineBuffer.current_line_timestamp map app];
    [reflexivity|].
  destruct (LineBuffer.current_line_timestamp b) as [t|]; [|reflexivity].
  destruct Ho as [_ Ho]. specialize (Ho (ex_intro _ t eq_refl)). discriminate.
Qed.

Lemma readings_length o c n : length (readings o c n) = n.
Proof. unfold readings. now rewrite length_map, length_seq. Qed.

(** X1. The segments that the flushes of a buffer return, the final flush
    included, carry the readings of the clock in order, one reading each:
    the [k]-th segment has the timestamp that the [k]-th call of
    [time.time()] since the start returned, and the clock was read exactly
    once for each segment. *)
Theorem LineBuffer_segments_take_readings (o : Oracle) (is_stderr : bool)
    (ops : list LineBuffer.Op) (w : World) :
  let segments := concat (LineBuffer.run_final o ops (LineBuffer.__init__ is_stderr) w) in
  map timestamp segments = readings o (clock w) (length segments)
  /\ clock (snd (LineBuffer.run o ops (LineBuffer.__init__ is_stderr) w))
     = (clock w + length segments)%nat.
Proof.
  assert (H0 : stamps_in_step o (clock w) [] (LineBuffer.__init__ is_stderr) w).
  { split; [|split; [lia | apply opened_init]].
    rewrite Nat.sub_diag. reflexivity. }
  pose proof (stamps_run o (clock w) ops _ _ _ H0) as H.
  unfold LineBuffer.run_final.
  destruct (LineBuffer.run o ops (LineBuffer.__init__ is_stderr) w) as [[flushes b] w'].
  cbn [fst snd app] in H. pose proof H as (_ & _ & Ho).
  apply stamps_flush in H. destruct H as (E & Hc & _).
  rewrite (flush_pending b Ho), app_nil_r, <- map_app in E.
  cbn zeta. cbn [snd]. rewrite concat_app. cbn [concat]. rewrite app_nil_r.
  assert (Hn : length (concat flushes ++ fst (LineBuffer.flush b)) = (clock w' - clock w)%nat).
  { rewrite <- (length_map timestamp), E. apply readings_length. }
  rewrite Hn. split; [exact E | lia].
Qed.

(** ** LineBuffer: line structure *)

Lemma no_newline_app s1 s2 :
  no_newline (String.append s1 s2) = no_newline s1 && no_newline s2.
Proof.
  induction s1 as [|c s1 IH]; [reflexivity|].
  rewrite append_cons. cbn [no_newline]. now rewrite IH, andb_assoc.
Qed.

Lemma line_split_init is_stderr : line_split (LineBuffer.__init__ is_stderr).
Proof. split; [constructor | reflexivity]. Qed.

Lemma line_split_append_char o char b w :
  line_split b -> line_split (fst (LineBuffer.append_char o char (b, w))).
Proof.
  unfold line_split, LineBuffer.append_char. intros [Hl Hc].
  destruct (LineBuffer.current_line_timestamp b) as [t|]; cbn [time_time];
    destruct (Ascii.eqb char newline) eqn:En;
    cbn [fst snd LineBuffer.completed_lines LineBuffer.current_line_content no_newline].
  all: try (split; [|reflexivity]; apply Forall_app; split; [exact Hl|];
            constructor; [|constructor]; cbn [snd];
            exists (LineBuffer.current_line_content b); split; [exact Hc|];
            apply Ascii.eqb_eq in En; now subst char).
  all: split; [exact Hl|]; rewrite no_newline_app, Hc; cbn [no_newline];
       now rewrite En.
Qed.

Lemma line_split_append o content b w :
  line_split b -> line_split (fst (LineBuffer.append o content b w)).
Proof.
  unfold LineBuffer.append. revert b w.
  induction content as [|char rest IH]; intros b w H; cbn [LineBuffer.append_loop].
  - exact H.
  - pose proof (line_split_append_char o char b w H) as H'.
    destruct (LineBuffer.append_char o char (b, w)) as [b1 w1]. now apply IH.
Qed.

Lemma line_split_flush b :
  line_split b ->
  line_structured (fst (LineBuffer.flush b)) /\ line_split (snd (LineBuffer.flush b)).
Proof.
  unfold line_split, LineBuffer.flush. intros [Hl Hc].
  assert (Hm : Forall (fun seg => complete_line (content seg))
                 (map LineBuffer.completed_segment (LineBuffer.completed_lines b))).
  { apply Forall_map. eapply Forall_impl; [exact Hl|]. now intros [ts c]. }
  destruct (str_truthy (LineBuffer.current_line_content b)) eqn:Et;
    cbn [fst snd LineBuffer.completed_lines LineBuffer.current_line_content no_newline].
  - split; [|split; [constructor | reflexivity]].
    eexists _, _. split; [reflexivity|]. split; [exact Hm|]. right.
    eexists. split; [reflexivity|]. cbn [content]. split; [exact Hc|].
    intros E. rewrite E in Et. discriminate.
  - split; [|split; [constructor | exact Hc]].
    eexists _, []. split; [now rewrite app_nil_r|]. split; [exact Hm | now left].
Qed.

Lemma line_split_run o ops : forall b w,
  line_split b ->
  Forall line_structured (fst (fst (LineBuffer.run o ops b w)))
  /\ line_split (snd (fst (LineBuffer.run o ops b w))).
Proof.
  induction ops as [|[s|] ops IH]; intros b w H; cbn [LineBuffer.run].
  - split; [constructor | exact H].
  - pose proof (line_split_append o s b w H) as H'.
    destruct (LineBuffer.append o s b w) as [b1 w1]. now apply IH.
  - destruct (line_split_flush b H) as [Hs H'].
    destruct (LineBuffer.flush b) as [segments b1]. cbn [fst snd] in Hs, H'.
    specialize (IH b1 w H').
    destruct (LineBuffer.run o ops b1 w) as [[rest b2] w2].
    cbn [fst snd] in *. split; [constructor; tauto | tauto].
Qed.

(** X2. Every flush of a buffer, the final one included, returns
    terminated lines (each ending in its one and only newline) followed by
    at most one piece of a line that has not ended, which is not empty and
    holds no newline: no segment spans two lines and none is empty. *)
Theorem LineBuffer_flush_line_structure (o : Oracle) (is_stderr : bool)
    (ops : list LineBuffer.Op) (w : World) :
  Forall line_structured
    (LineBuffer.run_final o ops (LineBuffer.__init__ is_stderr) w).
Proof.
  pose proof (line_split_run o ops _ w (line_split_init is_stderr)) as [Hf Hb].
  unfold LineBuffer.run_final.
  destruct (LineBuffer.run o ops (LineBuffer.__init__ is_stderr) w) as [[flushes b] w'].
  cbn [fst snd] in Hf, Hb. apply Forall_app. split; [exact Hf|].
  constructor; [|constructor]. now apply line_split_flush.
Qed.

(** ** OutputStreamManager: what reaches the control plane *)

Lemma opened_append_char o char b w :
  opened (fst (LineBuffer.append_char o char (b, w))).
Proof.
  unfold opened, LineBuffer.append_char.
  destruct (LineBuffer.current_line_timestamp b) as [t|]; cbn [time_time];
    destruct (Ascii.eqb char newline);
    cbn [fst LineBuffer.current_line_timestamp LineBuffer.current_line_content str_truthy].
  all: try (split; [discriminate | intros [x H]; discriminate]).
  all: split; [eauto | intros _; apply append_nonempty].
Qed.

Lemma is_stderr_append_char o char b w :
  LineBuffer.is_stderr (fst (LineBuffer.append_char o char (b, w))) = LineBuffer.is_stderr b.
Proof.
  unfold LineBuffer.append_char.
  destruct (LineBuffer.current_line_timestamp b); cbn [time_time];
    destruct (Ascii.eqb char newline); reflexivity.
Qed.

Lemma sound_append o content : forall b w,
  sound b ->
  sound (fst (LineBuffer.append o content b w))
  /\ LineBuffer.is_stderr (fst (LineBuffer.append o content b w)) = LineBuffer.is_stderr b.
Proof.
  unfold LineBuffer.append.
  induction content as [|char rest IH]; intros b w H; cbn [LineBuffer.append_loop].
  - split; [exact H | reflexivity].
  - pose proof (opened_append_char o char b w) as H1.
    pose proof (line_split_append_char o char b w (proj2 H)) as H2.
    pose proof (is_stderr_append_char o char b w) as H3.
    destruct (LineBuffer.append_char o char (b, w)) as [b1 w1]. cbn [fst] in *.
    rewrite <- H3. apply IH. now split.
Qed.

Lemma complete_line_nonempty s : complete_line s -> s <> EmptyString.
Proof. intros (body & _ & ->). destruct body; discriminate. Qed.

Lemma sound_flush b :
  sound b ->
  sound (snd (LineBuffer.flush b))
  /\ LineBuffer.is_stderr (snd (LineBuffer.flush b)) = LineBuffer.is_stderr b
  /\ Forall (fun seg => content seg <> EmptyString /\ is_Some (timestamp seg))
            (fst (LineBuffer.flush b)).
Proof.
  intros [Ho Hl]. destruct (line_split_flush b Hl) as [Hs Hl'].
  assert (Ht : forall seg, seg ∈ fst (LineBuffer.flush b) -> is_Some (timestamp seg)).
  { intros seg. apply flush_timestamps. intros H. now apply Ho. }
  split; [split; [|exact Hl']|split].
  - unfold opened, LineBuffer.flush in *.
    destruct (str_truthy (LineBuffer.current_line_content b)) eqn:Et;
      cbn [snd LineBuffer.current_line_timestamp LineBuffer.current_line_content str_truthy].
    + split; [discriminate | intros [x H]; discriminate].
    + rewrite Et. exact Ho.
  - unfold LineBuffer.flush.
    destruct (str_truthy (LineBuffer.current_line_content b)); reflexivity.
  - apply Forall_forall. intros seg Hin. split; [|now apply Ht].
    destruct Hs as (lines & rest & E & Hlines & Hrest). rewrite E in Hin.
    apply elem_of_app in Hin as [Hin | Hin].
    + apply complete_line_nonempty.
      exact (proj1 (Forall_forall _ _) Hlines seg Hin).
    + destruct Hrest as [-> | (seg' & -> & Hopen)]; [inversion Hin|].
      apply list_elem_of_singleton in Hin as ->. apply Hopen.
Qed.

Lemma sent_content_app is_stderr l1 l2 :
  sent_content is_stderr (l1 ++ l2)
  = String.append (sent_content is_stderr l1) (sent_content is_stderr l2).
Proof.
  induction l1 as [|e l1 IH]; [reflexivity|].
  destruct e; cbn [app sent_content]; try exact IH.
  destruct (Bool.eqb _ _); [|exact IH]. now rewrite IH, append_assoc.
Qed.

Lemma manager_sound_init execution_id :
  manager_sound (OutputStreamManager.__init__ execution_id).
Proof.
  intros []; (split; [split; [apply opened_init | apply line_split_init] | reflexivity]).
Qed.


Lemma flush_buffer_carries o id b n w :
  sound b ->
  let r := OutputStreamManager.flush_buffer o id b n w in
  exists l,
    events (snd r) = events w ++ l
    /\ sound (fst (fst r))
    /\ LineBuffer.is_stderr (fst (fst r)) = LineBuffer.is_stderr b
    /\ Forall (well_formed_chunk id) l
    /\ held (fst (fst r)) = EmptyString
    /\ forall e, sent_content e l
                 = if Bool.eqb (LineBuffer.is_stderr b) e then held b else EmptyString.
Proof.
  intros Hb. unfold OutputStreamManager.flush_buffer.
  destruct (sound_flush b Hb) as (Hs & Hi & Hf).
  destruct (flush_content b) as [Hc Hh].
  destruct (LineBuffer.flush b) as [segments b']. cbn [fst snd] in *.
  destruct segments as [|seg segments]; cbn [list_truthy].
  - exists []. cbn [fst snd]. rewrite app_nil_r.
    split; [reflexivity|]. split; [exact Hs|]. split; [exact Hi|].
    split; [constructor|]. split; [exact Hh|].
    intros e. rewrite <- Hc. now destruct (Bool.eqb _ _).
  - unfold client_call. exists [send_output id (seg :: segments) (LineBuffer.is_stderr b') (n + 1)].
    destruct (client_ok o (calls w)); cbn [fst snd events].
    all: split; [reflexivity|]; split; [exact Hs|]; split; [exact Hi|].
    all: split; [constructor; [|constructor]; cbn [well_formed_chunk];
                 split; [reflexivity|]; split; [discriminate | exact Hf]|].
    all: split; [exact Hh|]; intros e; cbn [sent_content]; rewrite Hi, Hc.
    all: destruct (Bool.eqb _ _); [apply append_nil_r | reflexivity].
Qed.

Lemma _flush_carries o m w :
  manager_sound m ->
  carries o OutputStreamManager.Tick m w
          (fst (OutputStreamManager._flush o m w)) (snd (OutputStreamManager._flush o m w))
  /\ forall e, held (buffer_of e (fst (OutputStreamManager._flush o m w))) = EmptyString.
Proof.
  intros Hm. unfold OutputStreamManager._flush.
  destruct (Hm false) as [Sout Tout]. destruct (Hm true) as [Serr Terr].
  cbn [buffer_of] in Sout, Tout, Serr, Terr.
  destruct (flush_buffer_carries o (OutputStreamManager.execution_id m)
              (OutputStreamManager.stdout_buffer m)
              (OutputStreamManager.chunk_number m) w Sout)
    as (l1 & E1 & S1 & T1 & F1 & H1 & C1).
  destruct (OutputStreamManager.flush_buffer o (OutputStreamManager.execution_id m)
              (OutputStreamManager.stdout_buffer m)
              (OutputStreamManager.chunk_number m) w) as [[out n1] w1].
  cbn [fst snd] in E1, S1, T1, H1.
  destruct (flush_buffer_carries o (OutputStreamManager.execution_id m)
              (OutputStreamManager.stderr_buffer m) n1 w1 Serr)
    as (l2 & E2 & S2 & T2 & F2 & H2 & C2).
  destruct (OutputStreamManager.flush_buffer o (OutputStreamManager.execution_id m)
              (OutputStreamManager.stderr_buffer m) n1 w1) as [[err n2] w2].
  cbn [fst snd] in E2, S2, T2, H2 |- *.
  split; [exists (l1 ++ l2); split; [|split; [|split; [|split]]]|].
  - now rewrite E2, E1, app_assoc.
  - intros []; cbn [buffer_of OutputStreamManager.stdout_buffer
                   OutputStreamManager.stderr_buffer].
    + split; [exact S2 | congruence].
    + split; [exact S1 | congruence].
  - reflexivity.
  - apply Forall_app. now split.
  - intros e. rewrite sent_content_app, C1, C2, Tout, Terr.
    cbn [written]. rewrite append_nil_r.
    destruct e; cbn [Bool.eqb buffer_of OutputStreamManager.stdout_buffer
                     OutputStreamManager.stderr_buffer].
    + now rewrite H2, append_nil_l, append_nil_r.
    + now rewrite H1, !append_nil_r.
  - intros []; cbn [buffer_of OutputStreamManager.stdout_buffer
                   OutputStreamManager.stderr_buffer]; assumption.
Qed.

Lemma finalize_carries o m w :
  manager_sound m ->
  carries o OutputStreamManager.Tick m w
          (fst (OutputStreamManager.finalize o m w))
          (snd (OutputStreamManager.finalize o m w))
  /\ forall e, held (buffer_of e (fst (OutputStreamManager.finalize o m w))) = EmptyString.
Proof.
  intros Hm. unfold OutputStreamManager.finalize.
  exact (_flush_carries o
           {| OutputStreamManager.execution_id := OutputStreamManager.execution_id m;
              OutputStreamManager.stdout_buffer := OutputStreamManager.stdout_buffer m;
              OutputStreamManager.stderr_buffer := OutputStreamManager.stderr_buffer m;
              OutputStreamManager.chunk_number := OutputStreamManager.chunk_number m;
              OutputStreamManager.running := false |} w
           (fun e => match e with true => Hm true | false => Hm false end)).
Qed.

Lemma append_carries o content is_stderr m w :
  manager_sound m ->
  carries o (OutputStreamManager.Append content is_stderr) m w
          (fst (OutputStreamManager.append o content is_stderr m w))
          (snd (OutputStreamManager.append o content is_stderr m w)).
Proof.
  intros Hm. exists []. unfold OutputStreamManager.append.
  destruct (Hm false) as [Sout Tout]. destruct (Hm true) as [Serr Terr].
  cbn [buffer_of] in Sout, Tout, Serr, Terr.
  destruct is_stderr.
  - pose proof (append_events o content (OutputStreamManager.stderr_buffer m) w) as [E _].
    pose proof (held_append o content (OutputStreamManager.stderr_buffer m) w) as Hh.
    destruct (sound_append o content (OutputStreamManager.stderr_buffer m) w Serr) as [S T].
    destruct (LineBuffer.append o content (OutputStreamManager.stderr_buffer m) w)
      as [b w1]. cbn [fst snd] in *.
    split; [now rewrite app_nil_r|]. split; [|split; [reflexivity|split; [constructor|]]].
    + intros []; cbn [buffer_of OutputStreamManager.stdout_buffer
                     OutputStreamManager.stderr_buffer];
        (split; [assumption | congruence]).
    + intros []; cbn [sent_content written Bool.eqb buffer_of
                     OutputStreamManager.stdout_buffer OutputStreamManager.stderr_buffer];
        rewrite ?append_nil_l, ?append_nil_r; [exact Hh | reflexivity].
  - pose proof (append_events o content (OutputStreamManager.stdout_buffer m) w) as [E _].
    pose proof (held_append o content (OutputStreamManager.stdout_buffer m) w) as Hh.
    destruct (sound_append o content (OutputStreamManager.stdout_buffer m) w Sout) as [S T].
    destruct (LineBuffer.append o content (OutputStreamManager.stdout_buffer m) w)
      as [b w1]. cbn [fst snd] in *.
    split; [now rewrite app_nil_r|]. split; [|split; [reflexivity|split; [constructor|]]].
    + intros []; cbn [buffer_of OutputStreamManager.stdout_buffer
                     OutputStreamManager.stderr_buffer];
        (split; [assumption | congruence]).
    + intros []; cbn [sent_content written Bool.eqb buffer_of
                     OutputStreamManager.stdout_buffer OutputStreamManager.stderr_buffer];
        rewrite ?append_nil_l, ?append_nil_r; [reflexivity | exact Hh].
Qed.

Lemma written_cons e op ops :
  written e (op :: ops) = String.append (written e [op]) (written e ops).
Proof.
  destruct op as [s e'|]; cbn [written]; [|reflexivity].
  destruct (Bool.eqb e' e); [now rewrite append_nil_r | reflexivity].
Qed.

(** A whole history carries what its calls wrote. *)
Lemma run_carries o ops : forall m w,
  manager_sound m ->
  let r := OutputStreamManager.run o ops m w in
  exists l,
    events (snd r) = events w ++ l
    /\ manager_sound (fst r)
    /\ OutputStreamManager.execution_id (fst r) = OutputStreamManager.execution_id m
    /\ Forall (well_formed_chunk (OutputStreamManager.execution_id m)) l
    /\ forall e,
         String.append (sent_content e l) (held (buffer_of e (fst r)))
         = String.append (held (buffer_of e m)) (written e ops).
Proof.
  unfold OutputStreamManager.run.
  induction ops as [|op ops IH]; intros m w Hm; cbn [foldl].
  - exists []. cbn [fst snd]. rewrite app_nil_r.
    split; [reflexivity|]. split; [exact Hm|]. split; [reflexivity|].
    split; [constructor|]. intros e. cbn [sent_content written].
    now rewrite append_nil_l, append_nil_r.
  - assert (Hstep : carries o op m w (fst (OutputStreamManager.step o op (m, w)))
                            (snd (OutputStreamManager.step o op (m, w)))).
    { destruct op as [content is_stderr|]; cbn [OutputStreamManager.step fst snd].
      - now apply append_carries.
      - now apply _flush_carries. }
    destruct (OutputStreamManager.step o op (m, w)) as [m1 w1]. cbn [fst snd] in Hstep.
    destruct Hstep as (l1 & E1 & M1 & I1 & F1 & C1).
    destruct (IH m1 w1 M1) as (l2 & E2 & M2 & I2 & F2 & C2).
    exists (l1 ++ l2). split; [now rewrite E2, E1, app_assoc|].
    split; [exact M2|]. split; [congruence|].
    split; [apply Forall_app; split; [exact F1 | now rewrite <- I1]|].
    intros e. rewrite sent_content_app, written_cons.
    rewrite append_assoc, C2, <- append_assoc, C1, append_assoc. reflexivity.
Qed.

(** What a manager sends from its creation to the end of [finalize]. *)
Lemma manager_lifetime o execution_id ops w :
  let r := OutputStreamManager.run o ops (OutputStreamManager.__init__ execution_id) w in
  let r' := OutputStreamManager.finalize o (fst r) (snd r) in
  Forall (well_formed_chunk execution_id) (new_events w (snd r'))
  /\ forall e, sent_content e (new_events w (snd r')) = written e ops.
Proof.
  cbn zeta.
  destruct (run_carries o ops _ w (manager_sound_init execution_id))
    as (l1 & E1 & M1 & I1 & F1 & C1).
  destruct (OutputStreamManager.run o ops (OutputStreamManager.__init__ execution_id) w)
    as [m1 w1]. cbn [fst snd] in *.
  destruct (finalize_carries o m1 w1 M1) as [(l2 & E2 & M2 & I2 & F2 & C2) H2].
  rewrite (new_events_app w _ (l1 ++ l2)) by now rewrite E2, E1, app_assoc.
  split.
  - apply Forall_app. split; [exact F1 | now rewrite I1 in F2].
  - intros e. rewrite sent_content_app.
    specialize (C1 e). specialize (C2 e). rewrite H2 in C2.
    cbn [written] in C2. rewrite !append_nil_r in C2. rewrite C2.
    rewrite C1. destruct e; apply append_nil_l.
Qed.


(** X4. Every chunk a manager sends, from its creation to the end of
    [finalize], is for its execution, holds at least one segment, and each
    of its segments has content and a timestamp; and nothing but chunks is
    sent. *)
Theorem OutputStreamManager_chunks_well_formed (o : Oracle) (execution_id : string)
    (ops : list OutputStreamManager.Op) (w : World) :
  let r := OutputStreamManager.run o ops (OutputStreamManager.__init__ execution_id) w in
  let r' := OutputStreamManager.finalize o (fst r) (snd r) in
  Forall (well_formed_chunk execution_id) (new_events w (snd r')).
Proof. intros r r'. apply (manager_lifetime o execution_id ops w). Qed.

(** ** The stream readers *)

Lemma append_loop_app o s1 s2 : forall st,
  LineBuffer.append_loop o (String.append s1 s2) st
  = LineBuffer.append_loop o s2 (LineBuffer.append_loop o s1 st).
Proof.
  induction s1 as [|c s1 IH]; intros st; [reflexivity|].
  rewrite append_cons. cbn [LineBuffer.append_loop]. apply IH.
Qed.

Lemma manager_append_app o s1 s2 is_stderr m w :
  OutputStreamManager.append o (String.append s1 s2) is_stderr m w
  = OutputStreamManager.append o s2 is_stderr
      (fst (OutputStreamManager.append o s1 is_stderr m w))
      (snd (OutputStreamManager.append o s1 is_stderr m w)).
Proof.
  unfold OutputStreamManager.append, LineBuffer.append.
  destruct is_stderr; rewrite append_loop_app.
  - destruct (LineBuffer.append_loop o s1 (OutputStreamManager.stderr_buffer m, w))
      as [b1 w1].
    cbn [fst snd OutputStreamManager.stderr_buffer OutputStreamManager.stdout_buffer
         OutputStreamManager.execution_id OutputStreamManager.chunk_number
         OutputStreamManager.running].
    reflexivity.
  - destruct (LineBuffer.append_loop o s1 (OutputStreamManager.stdout_buffer m, w))
      as [b1 w1].
    cbn [fst snd OutputStreamManager.stderr_buffer OutputStreamManager.stdout_buffer
         OutputStreamManager.execution_id OutputStreamManager.chunk_number
         OutputStreamManager.running].
    reflexivity.
Qed.

Lemma manager_append_empty o is_stderr m w :
  OutputStreamManager.append o EmptyString is_stderr m w = (m, w).
Proof. destruct m, is_stderr; reflexivity. Qed.

Lemma _read_stream_from o lines is_stderr : forall st,
  foldl (fun st line => OutputStreamManager.append o line is_stderr (fst st) (snd st))
        st lines
  = OutputStreamManager.append o (join lines) is_stderr (fst st) (snd st).
Proof.
  induction lines as [|line lines IH]; intros [m w]; cbn [foldl fst snd].
  - now rewrite join_nil, manager_append_empty.
  - now rewrite IH, join_cons, manager_append_app.
Qed.

(** X5. How a pipe's output is cut into reads is immaterial: a reader that
    hands the manager the pieces [lines] one after the other leaves the
    manager and the clock exactly as one [append] of the pieces joined
    would, so timestamps depend on where lines start, never on where a
    read ended; and the reader sends nothing to the control plane. *)
Theorem read_stream_chunking (o : Oracle) (lines : list string) (is_stderr : bool)
    (stream_manager : OutputStreamManager.t) (w : World) :
  _read_stream o lines is_stderr stream_manager w
  = OutputStreamManager.append o (join lines) is_stderr stream_manager w
  /\ events (snd (_read_stream o lines is_stderr stream_manager w)) = events w.
Proof.
  unfold _read_stream. rewrite _read_stream_from. cbn [fst snd].
  split; [reflexivity|]. apply manager_append_spec.
Qed.

(** ** CommandExecutor.execute: its trace *)

Ltac next_run_carries :=
  match goal with
  | |- context [OutputStreamManager.run ?o ?ops (OutputStreamManager.__init__ ?i) ?w] =>
      let l := fresh "l" in
      let E := fresh "E" in
      let M := fresh "M" in
      let I := fresh "I" in
      let F := fresh "F" in
      let C := fresh "C" in
      destruct (run_carries o ops (OutputStreamManager.__init__ i) w
                  (manager_sound_init i)) as (l & E & M & I & F & C);
      destruct (OutputStreamManager.run o ops (OutputStreamManager.__init__ i) w)
        as [? ?];
      cbn [fst snd] in E, M, I, F, C
  end.

Ltac next_finalize_carries :=
  match goal with
  | M : manager_sound ?m |- context [OutputStreamManager.finalize ?o ?m ?w] =>
      let l := fresh "l" in
      let E := fresh "E" in
      let M' := fresh "M" in
      let I := fresh "I" in
      let F := fresh "F" in
      let C := fresh "C" in
      let H := fresh "H" in
      destruct (finalize_carries o m w M) as [(l & E & M' & I & F & C) H];
      destruct (OutputStreamManager.finalize o m w) as [? ?];
      cbn [fst snd] in E, M', I, F, C, H
  end.

Ltac calm_cbn :=
  with_strategy opaque [OutputStreamManager.run OutputStreamManager.finalize
                        os_path_join OutputStreamManager.__init__
                        CommandExecutor.build_cmd] cbn.

(** Runs [execute] up to its manager calls, with [cmd] as [Hb] gives it. *)
Ltac built Hb :=
  calm_cbn;
  repeat (case_decide; [try congruence | try congruence]; calm_cbn);
  match goal with
  | |- context [CommandExecutor.build_cmd ?o ?exe ?e ?command ?args] =>
      match type of Hb with
      | ?lhs = _ => change (CommandExecutor.build_cmd o exe e command args) with lhs
      end
  end;
  rewrite Hb;
  calm_cbn;
  repeat (case_decide; [try congruence | try congruence]; calm_cbn).

Lemma carried_together execution_id ops m1 m2 l1 l2 :
  OutputStreamManager.execution_id m1 = execution_id ->
  Forall (well_formed_chunk execution_id) l1 ->
  Forall (well_formed_chunk (OutputStreamManager.execution_id m1)) l2 ->
  (forall e, String.append (sent_content e l1) (held (buffer_of e m1))
             = String.append EmptyString (written e ops)) ->
  (forall e, String.append (sent_content e l2) (held (buffer_of e m2))
             = String.append (held (buffer_of e m1))
                             (written e [OutputStreamManager.Tick])) ->
  (forall e, held (buffer_of e m2) = EmptyString) ->
  Forall (well_formed_chunk execution_id) (l1 ++ l2)
  /\ forall e, sent_content e (l1 ++ l2) = written e ops.
Proof.
  intros I F1 F2 C1 C2 H. split.
  - apply Forall_app. split; [exact F1 | now rewrite I in F2].
  - intros e. rewrite sent_content_app.
    specialize (C1 e). specialize (C2 e). rewrite H in C2.
    cbn [written] in C2. rewrite !append_nil_r in C2. rewrite C2, C1.
    apply append_nil_l.
Qed.

(** The events of an [execute] whose child was spawned. *)
Lemma execute_events o exe s execution_id command args timeout ex w cmd :
  CommandExecutor.process ex = None ->
  CommandExecutor.build_cmd o exe ex command args = Returned cmd ->
  spawn_ok s = true ->
  let run := CommandExecutor.execute o exe s execution_id command args timeout ex w in
  exists l1 l2,
    new_events w (CommandExecutor.world run)
    = spawn cmd (CommandExecutor.project_path ex)
        :: watcher_signals s ++ l1 ++ timeout_signals s ++ l2
    /\ Forall (well_formed_chunk execution_id) (l1 ++ l2)
    /\ forall e, sent_content e (l1 ++ l2) = written e (stream s).
Proof.
  intros Hp Hb Hs.
  destruct ex as [path proc flag]. cbn in Hp. subst proc.
  destruct w as [c n evs].
  change (CommandExecutor.build_cmd o exe
            {| CommandExecutor.project_path := path; CommandExecutor.process := None;
               CommandExecutor.cancelled := false |} command args = Returned cmd) in Hb.
  scenario_cases s; cbn in Hs; subst.
  all: unfold timeout_signals, watcher_signals, waited, reaped_by_watcher, escalation;
    cbn [cancel_request child wait_timeout wait_grace wait_killed stream].
  all: unfold CommandExecutor.execute; built Hb.
  all: next_run_carries; quiet_cbn; next_finalize_carries; quiet_cbn.
  all: exists l, l0; (split; [|eapply carried_together; eauto; intros e; specialize (C e); destruct e; exact C]).
  all: unfold new_events; cbn [events]; rewrite E0; cbn [events log]; rewrite E;
    cbn [events log]; rewrite <- ?app_assoc; rewrite drop_app_length; reflexivity.
Qed.


Lemma spawns_app l1 l2 : spawns (l1 ++ l2) = spawns l1 ++ spawns l2.
Proof.
  induction l1 as [|e l1 IH]; [reflexivity|].
  destruct e; cbn [app spawns]; now rewrite ?IH.
Qed.

Lemma chunks_only execution_id l :
  Forall (well_formed_chunk execution_id) l -> signals l = [] /\ spawns l = [].
Proof.
  induction 1 as [|e l He _ IH]; [split; reflexivity|].
  destruct e; cbn [well_formed_chunk] in He; try contradiction. exact IH.
Qed.

Lemma signals_of_signals s :
  signals (watcher_signals s) = watcher_signals s
  /\ spawns (watcher_signals s) = []
  /\ signals (timeout_signals s) = timeout_signals s
  /\ spawns (timeout_signals s) = [].
Proof.
  unfold watcher_signals, timeout_signals, escalation.
  destruct (cancel_request s) as [[[] []]|], (waited s), (wait_grace (child s));
    repeat split; reflexivity.
Qed.



(** X7. An [execute] that gets to spawn its child spawns exactly one, and
    does so before anything else that the outside can see: the first event
    is the spawn, of the command line that [build_cmd] gives, with the
    project path as working directory, and no other spawn follows. *)
Theorem execute_spawns_once (o : Oracle) (exe : string) (s : Scenario)
    (execution_id command args : string) (timeout : Z)
    (ex : CommandExecutor.t) (w : World) (cmd : list string) :
  CommandExecutor.process ex = None ->
  CommandExecutor.build_cmd o exe ex command args = Returned cmd ->
  spawn_ok s = true ->
  let run := CommandExecutor.execute o exe s execution_id command args timeout ex w in
  exists rest,
    new_events w (CommandExecutor.world run)
    = spawn cmd (CommandExecutor.project_path ex) :: rest
    /\ spawns rest = [].
Proof.
  intros Hp Hb Hs run.
  destruct (execute_events o exe s execution_id command args timeout ex w cmd Hp Hb Hs)
    as (l1 & l2 & E & F & _).
  apply Forall_app in F as [F1 F2].
  apply chunks_only in F1 as [_ F1]. apply chunks_only in F2 as [_ F2].
  destruct (signals_of_signals s) as (_ & W & _ & T).
  eexists. split; [exact E|].
  now rewrite !spawns_app, F1, F2, W, T.
Qed.

Lemma execute_spawns_once_witness :
  exists rest,
    new_events world0
      (CommandExecutor.world
         (CommandExecutor.execute oracle_up "python" stubborn_child
            "e1" "migrate" "--check" 300 (CommandExecutor.__init__ "/srv/app") world0))
    = spawn ["python"; "-u"; "/srv/app/manage.py"; "migrate"; "--check"]%string
            "/srv/app" :: rest
    /\ spawns rest = [].
Proof.
  apply (execute_spawns_once oracle_up "python" stubborn_child "e1" "migrate" "--check"
           300 (CommandExecutor.__init__ "/srv/app") world0
           ["python"; "-u"; "/srv/app/manage.py"; "migrate"; "--check"]%string).
  - reflexivity.
  - reflexivity.
  - reflexivity.
Defined.




(** X9. An [execute] that does not get as far as a running child (the
    tokenizer rejects the argument string, or [subprocess.Popen] raises)
    leaves no trace outside: no spawn, no signal, and no chunk, so the
    reason of the failure is not sent to the control plane.  It raises the
    tokenizer's [ValueError], or returns [(-1, failed)] when the spawn
    failed. *)
Theorem execute_unstarted_silent (o : Oracle) (exe : string) (s : Scenario)
    (execution_id command args : string) (timeout : Z)
    (ex : CommandExecutor.t) (w : World) :
  CommandExecutor.process ex = None ->
  started o exe s ex command args = false ->
  let run := CommandExecutor.execute o exe s execution_id command args timeout ex w in
  new_events w (CommandExecutor.world run) = []
  /\ CommandExecutor.outcome run
     = match CommandExecutor.build_cmd o exe ex command args with
       | Returned _ => Returned {| exit_code := -1; status := "failed" |}
       | Raised _ => Raised ValueError
       end.
Proof.
  intros Hp Hs.
  destruct ex as [path proc flag]. cbn in Hp. subst proc.
  destruct w as [c n evs]. unfold started in Hs.
  change (CommandExecutor.build_cmd o exe
            {| CommandExecutor.project_path := path; CommandExecutor.process := None;
               CommandExecutor.cancelled := flag |} command args)
    with (CommandExecutor.build_cmd o exe
            {| CommandExecutor.project_path := path; CommandExecutor.process := None;
               CommandExecutor.cancelled := false |} command args) in Hs |- *.
  destruct (CommandExecutor.build_cmd o exe _ command args) as [cmd|e] eqn:Hb.
  - scenario_cases s; cbn in Hs; subst.
    all: unfold CommandExecutor.execute;
      with_strategy opaque [os_path_join CommandExecutor.build_cmd] cbn;
      repeat (case_decide; [try congruence | try congruence];
              with_strategy opaque [os_path_join CommandExecutor.build_cmd] cbn).
    all: match goal with
         | |- context [CommandExecutor.build_cmd ?o ?exe ?e ?command ?args] =>
             match type of Hb with
             | ?lhs = _ => change (CommandExecutor.build_cmd o exe e command args) with lhs
             end
         end; rewrite Hb; cbn; rewrite drop_all; split; reflexivity.
  - assert (e = ValueError) as ->.
    { unfold CommandExecutor.build_cmd in Hb.
      destruct (str_truthy args); [|discriminate].
      destruct (shlex_split o args); congruence. }
    scenario_cases s.
    all: unfold CommandExecutor.execute;
      with_strategy opaque [os_path_join CommandExecutor.build_cmd] cbn;
      repeat (case_decide; [try congruence | try congruence];
              with_strategy opaque [os_path_join CommandExecutor.build_cmd] cbn).
    all: match goal with
         | |- context [CommandExecutor.build_cmd ?o ?exe ?e ?command ?args] =>
             match type of Hb with
             | ?lhs = _ => change (CommandExecutor.build_cmd o exe e command args) with lhs
             end
         end; rewrite Hb; cbn; rewrite drop_all; split; reflexivity.
Qed.

Lemma execute_unstarted_silent_witness :
  let run := CommandExecutor.execute oracle_up "python" no_spawn
               "e1" "migrate" "--check" 300 (CommandExecutor.__init__ "/srv/app") world0 in
  new_events world0 (CommandExecutor.world run) = []
  /\ CommandExecutor.outcome run = Returned {| exit_code := -1; status := "failed" |}.
Proof.
  apply (execute_unstarted_silent oracle_up "python" no_spawn "e1" "migrate" "--check"
           300 (CommandExecutor.__init__ "/srv/app") world0).
  - reflexivity.
  - reflexivity.
Defined.

(** X10. Between two calls of [execute] the executor holds no process:
    whatever happens in a call entered without a handle (including the
    tokenizer's [ValueError], raised before the [try]), the handle is
    [None] again when the call ends, and the project path is unchanged. *)
Theorem execute_clears_handle (o : Oracle) (exe : string) (s : Scenario)
    (execution_id command args : string) (timeout : Z)
    (ex : CommandExecutor.t) (w : World) :
  CommandExecutor.process ex = None ->
  let run := CommandExecutor.execute o exe s execution_id command args timeout ex w in
  CommandExecutor.process (CommandExecutor.executor run) = None
  /\ CommandExecutor.project_path (CommandExecutor.executor run)
     = CommandExecutor.project_path ex.
Proof.
  intros Hp.
  destruct ex as [path proc flag]. cbn in Hp. subst proc.
  scenario_cases s; destruct sp.
  all: unfold CommandExecutor.execute, CommandExecutor.build_cmd;
    destruct (str_truthy args); [destruct (shlex_split o args)|].
  all: settle; split; reflexivity.
Qed.

Lemma execute_clears_handle_witness :
  let run := CommandExecutor.execute oracle_up "python" stubborn_child
               "e1" "migrate" "--check" 300 (CommandExecutor.__init__ "/srv/app") world0 in
  CommandExecutor.process (CommandExecutor.executor run) = None
  /\ CommandExecutor.project_path (CommandExecutor.executor run) = "/srv/app"%string.
Proof.
  apply (execute_clears_handle oracle_up "python" stubborn_child "e1" "migrate" "--check"
           300 (CommandExecutor.__init__ "/srv/app") world0).
  reflexivity.
Defined.

(** ** The poll loop and the pool *)

Lemma reachable_step settings project_path st st' :
  Agent.reachable settings project_path st -> Agent.step settings st st' ->
  Agent.reachable settings project_path st'.
Proof. intros Hr Hs. eapply rtc_r; [exact Hr | exact Hs]. Qed.

Lemma reachable_poll_items settings project_path n : forall st,
  Agent.reachable settings project_path st ->
  Agent.reachable settings project_path (Nat.iter n Agent.poll_item st).
Proof.
  induction n as [|n IH]; intros st Hr; [exact Hr|].
  cbn [Nat.iter]. eapply reachable_step; [apply IH, Hr | apply Agent.step_poll_item].
Qed.

Lemma poll_items_submit (a : Agent.t) (wks : list Agent.Worker) (l : list Execution) :
  forall q,
  (size (Agent._active_executions a) < Agent.MAX_CONCURRENT_EXECUTIONS)%nat ->
  Forall (fun e => Agent._active_executions a !! id e = None) l ->
  Nat.iter (length l) Agent.poll_item
    {| Agent.agent := a; Agent.pending := l; Agent.queue := q; Agent.workers := wks |}
  = {| Agent.agent := a; Agent.pending := []; Agent.queue := q ++ l;
       Agent.workers := wks |}.
Proof.
  induction l as [|e l IH]; intros q Hs Hl.
  - cbn. now rewrite app_nil_r.
  - cbn [length]. rewrite Nat.iter_succ_r.
    apply Forall_cons in Hl as [He Hl].
    unfold Agent.poll_item at 2. cbn [Agent.pending Agent.agent Agent.queue Agent.workers].
    unfold Agent.consider.
    rewrite bool_decide_eq_false_2 by (rewrite He; intros [x Hx]; discriminate).
    rewrite bool_decide_eq_false_2 by lia.
    rewrite (IH (q ++ [e]) Hs Hl). now rewrite <- app_assoc.
Qed.

(** X11. The capacity check of the poll loop counts the ids that pool
    threads have inserted, not the items submitted: while the dict holds
    fewer than [MAX_CONCURRENT_EXECUTIONS] ids and no pool thread gets to
    its insert, one poll cycle submits every item of the list whose id is
    not in the dict, however many there are (and an id listed twice is
    submitted twice).  The pool's queue is not bounded by the ceiling. *)
Theorem poll_cycle_submits_all (settings : Settings) (project_path : string)
    (l : list Execution) (st : Agent.State) :
  Agent.reachable settings project_path st ->
  Agent.pending st = [] ->
  (size (Agent._active_executions (Agent.agent st)) < Agent.MAX_CONCURRENT_EXECUTIONS)%nat ->
  Forall (untracked st) l ->
  Agent.reachable settings project_path (poll_cycle l st)
  /\ poll_cycle l st
     = {| Agent.agent := Agent.agent st; Agent.pending := [];
          Agent.queue := Agent.queue st ++ l; Agent.workers := Agent.workers st |}.
Proof.
  intros Hr Hp Hs Hl. unfold poll_cycle. split.
  - apply reachable_poll_items. eapply reachable_step; [exact Hr|].
    now apply Agent.step_poll_begin.
  - unfold Agent.poll_begin. now apply poll_items_submit.
Qed.

Lemma poll_cycle_submits_all_witness :
  Agent.reachable default_settings "/srv/app" (poll_cycle backlog (Agent.init "/srv/app"))
  /\ length (Agent.queue (poll_cycle backlog (Agent.init "/srv/app"))) = 10%nat.
Proof.
  destruct (poll_cycle_submits_all default_settings "/srv/app" backlog
              (Agent.init "/srv/app")) as [Hr He].
  - apply rtc_refl.
  - reflexivity.
  - unfold Agent.init, Agent.__init__. cbn [Agent.agent Agent._active_executions].
    rewrite map_size_empty. unfold Agent.MAX_CONCURRENT_EXECUTIONS. lia.
  - apply Forall_forall. intros e _. unfold untracked, Agent.init, Agent.__init__.
    cbn [Agent.agent Agent._active_executions]. apply lookup_empty.
  - split; [exact Hr|]. rewrite He. reflexivity.
Defined.

Lemma worker_start_takes a p e rest wks :
  (length wks < Agent.MAX_CONCURRENT_EXECUTIONS)%nat ->
  Agent.worker_start
    {| Agent.agent := a; Agent.pending := p; Agent.queue := e :: rest;
       Agent.workers := wks |}
  = {| Agent.agent := a; Agent.pending := p; Agent.queue := rest;
       Agent.workers := wks ++ [ {| Agent.job := e; Agent.phase := Agent.Checking |} ] |}.
Proof.
  intros H. unfold Agent.worker_start.
  cbn [Agent.queue Agent.workers Agent.agent Agent.pending].
  now rewrite bool_decide_eq_true_2.
Qed.

(** X12. The dict can lose a running execution.  When an id is submitted
    twice before the first pool thread has inserted it (the server lists
    it in two polls, or twice in one), both threads insert under the same
    key, and the [finally] of whichever ends first pops the key: the other
    thread is still inside its [try], with an id that the dict no longer
    holds.  For every execution that the policy allows such a state can
    be reached. *)
Theorem running_execution_untracked (settings : Settings) (project_path : string)
    (e : Execution) :
  fst (is_command_allowed settings (command e)) = true ->
  exists st,
    Agent.reachable settings project_path st
    /\ Agent.workers st = [ {| Agent.job := e; Agent.phase := Agent.Tracked |} ]
    /\ Agent._active_executions (Agent.agent st) !! id e = None.
Proof.
  intros Ha.
  set (st0 := Agent.init project_path).
  set (st1 := poll_cycle [e] st0).
  set (st2 := poll_cycle [e] st1).
  set (st3 := Agent.worker_start (Agent.worker_start st2)).
  set (st4 := Agent.worker_step settings 1 (Agent.worker_step settings 0 st3)).
  set (st5 := Agent.worker_step settings 0 st4).
  assert (Hs : (size (Agent._active_executions (Agent.__init__ project_path))
                < Agent.MAX_CONCURRENT_EXECUTIONS)%nat).
  { cbn [Agent.__init__ Agent._active_executions]. rewrite map_size_empty.
    unfold Agent.MAX_CONCURRENT_EXECUTIONS. lia. }
  assert (Hl : Forall (fun e' => Agent._active_executions (Agent.__init__ project_path)
                                   !! id e' = None) [e]).
  { constructor; [apply lookup_empty | constructor]. }
  assert (E1 : st1 = {| Agent.agent := Agent.__init__ project_path; Agent.pending := [];
                        Agent.queue := [e]; Agent.workers := [] |}).
  { subst st1 st0. unfold poll_cycle, Agent.poll_begin, Agent.init.
    cbn [Agent.agent Agent.queue Agent.workers].
    now rewrite (poll_items_submit _ _ [e] [] Hs Hl). }
  assert (E2 : st2 = {| Agent.agent := Agent.__init__ project_path; Agent.pending := [];
                        Agent.queue := [e; e]; Agent.workers := [] |}).
  { subst st2. rewrite E1. unfold poll_cycle, Agent.poll_begin.
    cbn [Agent.agent Agent.queue Agent.workers].
    now rewrite (poll_items_submit _ _ [e] [e] Hs Hl). }
  assert (E3 : st3 = {| Agent.agent := Agent.__init__ project_path; Agent.pending := [];
                        Agent.queue := [];
                        Agent.workers := [ {| Agent.job := e; Agent.phase := Agent.Checking |};
                                           {| Agent.job := e; Agent.phase := Agent.Checking |} ] |}).
  { subst st3. rewrite E2.
    rewrite worker_start_takes
      by (cbn [length]; unfold Agent.MAX_CONCURRENT_EXECUTIONS; lia).
    rewrite worker_start_takes
      by (cbn [length app]; unfold Agent.MAX_CONCURRENT_EXECUTIONS; lia).
    reflexivity. }
  assert (E5 : Agent.workers st5 = [ {| Agent.job := e; Agent.phase := Agent.Tracked |} ]
               /\ Agent._active_executions (Agent.agent st5) !! id e = None).
  { subst st5 st4. rewrite E3.
    unfold Agent.worker_step.
    with_strategy opaque [is_command_allowed] cbn. rewrite Ha.
    with_strategy opaque [is_command_allowed] cbn. rewrite ?Ha.
    with_strategy opaque [is_command_allowed] cbn.
    split; [reflexivity | apply lookup_delete_eq]. }
  exists st5. split; [|exact E5].
  subst st5 st4 st3.
  repeat (eapply reachable_step; [|first [apply Agent.step_worker
                                         | apply Agent.step_worker_start]]).
  subst st2. unfold poll_cycle. apply reachable_poll_items.
  eapply reachable_step; [|apply Agent.step_poll_begin; now rewrite E1].
  subst st1. unfold poll_cycle. apply reachable_poll_items.
  eapply reachable_step; [apply rtc_refl | now apply Agent.step_poll_begin].
Qed.

Lemma running_execution_untracked_witness :
  exists st,
    Agent.reachable default_settings "/srv/app" st
    /\ Agent.workers st = [ {| Agent.job := migrate_job; Agent.phase := Agent.Tracked |} ]
    /\ Agent._active_executions (Agent.agent st) !! id migrate_job = None.
Proof.
  apply (running_execution_untracked default_settings "/srv/app" migrate_job).
  reflexivity.
Defined.

(** ** The main loop *)

Section LoopProofs.
Context {Command : Type}.
Implicit Types (k : AgentLoop.Link Command) (a : AgentLoop.t Command)
  (c : AgentLoop.Call Command) (tr : list (AgentLoop.Call Command)).

Lemma stamps_app P tr1 : forall now tr2,
  stamps P now (tr1 ++ tr2) = stamps P now tr1 ++ stamps P (reading now tr1) tr2.
Proof.
  induction tr1 as [|c tr1 IH]; intros now tr2; [reflexivity|].
  destruct c; cbn [app stamps reading]; rewrite ?IH; try reflexivity.
  all: destruct (P _); rewrite ?IH, ?app_assoc; reflexivity.
Qed.

Lemma reading_app tr1 : forall now tr2,
  reading now (tr1 ++ tr2) = reading (reading now tr1) tr2.
Proof.
  induction tr1 as [|c tr1 IH]; intros now tr2; [reflexivity|].
  destruct c; cbn [app reading]; apply IH.
Qed.

Lemma spaced_snoc d ts now :
  spaced d ts ->
  (forall t, last ts = Some t -> (d <= now - t)%Q) ->
  spaced d (ts ++ [now]).
Proof.
  induction ts as [|t1 [|t2 ts] IH]; intros Hs Hl.
  - exact I.
  - split; [apply Hl; reflexivity | exact I].
  - destruct Hs as [H12 Hs]. split; [exact H12|].
    apply IH; [exact Hs|]. intros t Ht. apply Hl. exact Ht.
Qed.

(** What [sync_commands] and [heartbeat] add to the trace. *)
Lemma sync_commands_trace sv a k :
  AgentLoop.trace (AgentLoop.sync_commands sv a k).2
  = AgentLoop.trace k ++ [AgentLoop.sync_commands_call (AgentLoop._commands a)]
  /\ AgentLoop._commands (AgentLoop.sync_commands sv a k).1.2 = AgentLoop._commands a.
Proof.
  unfold AgentLoop.sync_commands.
  destruct (AgentLoop.sync_reply sv (AgentLoop.syncs k)) as [response|];
    [|split; reflexivity].
  destruct (_ && _); split; reflexivity.
Qed.

Lemma heartbeat_trace sv a k :
  exists rest,
    AgentLoop.trace (AgentLoop.heartbeat sv a k).2
    = AgentLoop.trace k ++ AgentLoop.heartbeat_call (AgentLoop._commands_hash a) :: rest
    /\ rest = (if match (AgentLoop.heartbeat sv a k).1.1 with
                  | Some r => negb (default true (AgentLoop.commands_in_sync r))
                  | None => false
                  end
               then [AgentLoop.sync_commands_call (AgentLoop._commands a)] else []).
Proof.
  unfold AgentLoop.heartbeat.
  destruct (AgentLoop.heartbeat_reply sv (AgentLoop.heartbeats k)) as [response|].
  - destruct (negb (default true (AgentLoop.commands_in_sync response))) eqn:E.
    + match goal with
      | |- context [AgentLoop.sync_commands ?sv ?a ?k'] =>
          destruct (sync_commands_trace sv a k') as [Ht _];
          destruct (AgentLoop.sync_commands sv a k') as [[ok a'] k'']
      end.
      cbn [fst snd AgentLoop.trace] in *. rewrite E. eexists. split; [|reflexivity].
      rewrite Ht, <- app_assoc. reflexivity.
    + cbn [fst snd AgentLoop.trace]. rewrite E. eexists. split; reflexivity.
  - cbn [fst snd AgentLoop.trace]. eexists. split; reflexivity.
Qed.

Lemma kept_apart_other (P : AgentLoop.Call Command -> bool) d latest tr now tr' :
  kept_apart P d latest tr ->
  stamps P (Some now) tr' = [] ->
  kept_apart P d latest (tr ++ AgentLoop.time_time_call now :: tr').
Proof.
  intros [Hs Hl] E. unfold kept_apart.
  rewrite stamps_app. cbn [stamps]. rewrite E, app_nil_r. now split.
Qed.

Lemma kept_apart_call (P : AgentLoop.Call Command -> bool) d latest tr now tr' :
  kept_apart P d latest tr ->
  stamps P (Some now) tr' = [now] ->
  Qle_bool d (now - latest) = true ->
  kept_apart P d now (tr ++ AgentLoop.time_time_call now :: tr').
Proof.
  intros [Hs Hl] E Hd. unfold kept_apart.
  rewrite stamps_app. cbn [stamps]. rewrite E. split.
  - apply spaced_snoc; [exact Hs|]. intros t Ht. rewrite (Hl t Ht).
    now apply Qle_bool_iff.
  - intros t. rewrite last_snoc. congruence.
Qed.

Lemma iteration_kept sv heartbeat_interval now (l : AgentLoop.Loop) a k :
  kept_apart is_poll AgentLoop.EXECUTION_POLL_INTERVAL
             (AgentLoop.last_execution_poll l) (AgentLoop.trace k) ->
  kept_apart is_heartbeat heartbeat_interval
             (AgentLoop.last_heartbeat l) (AgentLoop.trace k) ->
  let r := AgentLoop.iteration sv heartbeat_interval now (l, a, k) in
  kept_apart is_poll AgentLoop.EXECUTION_POLL_INTERVAL
             (AgentLoop.last_execution_poll r.1.1) (AgentLoop.trace r.2)
  /\ kept_apart is_heartbeat heartbeat_interval
                (AgentLoop.last_heartbeat r.1.1) (AgentLoop.trace r.2).
Proof.
  intros Hp Hh. unfold AgentLoop.iteration.
  destruct (Qle_bool heartbeat_interval (now - AgentLoop.last_heartbeat l)) eqn:Eh.
  - destruct (heartbeat_trace sv a (AgentLoop.record (AgentLoop.time_time_call now) k))
      as (rest & Et & Er).
    destruct (AgentLoop.heartbeat sv a
                (AgentLoop.record (AgentLoop.time_time_call now) k))
      as [[response a'] k'].
    cbn [fst snd AgentLoop.record AgentLoop.trace] in Et, Er.
    rewrite <- app_assoc in Et. cbn [app] in Et.
    assert (Hrest : stamps is_poll (Some now) rest = []
                    /\ stamps is_heartbeat (Some now) rest = []
                    /\ reading (Some now) rest = Some now).
    { rewrite Er. destruct (match response with Some _ => _ | None => _ end);
        repeat split; reflexivity. }
    destruct Hrest as (Rp & Rh & Rr).
    destruct (match response with
              | Some r => AgentLoop.response_truthy r
              | None => false
              end).
    + cbn [AgentLoop.last_execution_poll AgentLoop.last_heartbeat
           AgentLoop.consecutive_failures].
      destruct (Qle_bool AgentLoop.EXECUTION_POLL_INTERVAL
                  (now - AgentLoop.last_execution_poll l)) eqn:Ep;
        cbn [fst snd AgentLoop.record AgentLoop.trace AgentLoop.last_execution_poll
             AgentLoop.last_heartbeat]; rewrite Et, <- ?app_assoc; cbn [app].
      * split.
        -- eapply kept_apart_call; [exact Hp | | exact Ep].
           cbn [stamps is_poll]. rewrite stamps_app, Rp, Rr. reflexivity.
        -- eapply kept_apart_call; [exact Hh | | exact Eh].
           cbn [stamps is_heartbeat option_list app]. rewrite stamps_app, Rh, Rr.
           reflexivity.
      * split.
        -- apply kept_apart_other; [exact Hp|]. cbn [stamps is_poll]. exact Rp.
        -- eapply kept_apart_call; [exact Hh | | exact Eh].
           cbn [stamps is_heartbeat option_list app]. now rewrite Rh.
    + cbn [AgentLoop.last_execution_poll AgentLoop.last_heartbeat
           AgentLoop.consecutive_failures].
      destruct (bool_decide _);
      destruct (Qle_bool AgentLoop.EXECUTION_POLL_INTERVAL
                  (now - AgentLoop.last_execution_poll l)) eqn:Ep;
        cbn [fst snd AgentLoop.record AgentLoop.trace AgentLoop.last_execution_poll
             AgentLoop.last_heartbeat AgentLoop.heartbeats AgentLoop.syncs];
        rewrite Et, <- ?app_assoc; cbn [app].
      all: split;
        [ first [ eapply kept_apart_call; [exact Hp | | exact Ep]
                | apply kept_apart_other; [exact Hp|] ]
        | eapply kept_apart_call; [exact Hh | | exact Eh] ].
      all: cbn [stamps is_poll is_heartbeat option_list app];
        rewrite ?stamps_app, ?Rp, ?Rh, ?Rr; reflexivity.
  - destruct (Qle_bool AgentLoop.EXECUTION_POLL_INTERVAL
                (now - AgentLoop.last_execution_poll l)) eqn:Ep;
      cbn [fst snd AgentLoop.record AgentLoop.trace AgentLoop.last_execution_poll
           AgentLoop.last_heartbeat]; rewrite <- ?app_assoc; cbn [app].
    + split.
      * eapply kept_apart_call; [exact Hp | reflexivity | exact Ep].
      * apply kept_apart_other; [exact Hh | reflexivity].
    + split; apply kept_apart_other; (assumption || reflexivity).
Qed.

Lemma heartbeat_count sv a k :
  AgentLoop.heartbeats (AgentLoop.heartbeat sv a k).2 = S (AgentLoop.heartbeats k)
  /\ (AgentLoop.heartbeat sv a k).1.1 = AgentLoop.heartbeat_reply sv (AgentLoop.heartbeats k).
Proof.
  unfold AgentLoop.heartbeat.
  destruct (AgentLoop.heartbeat_reply sv (AgentLoop.heartbeats k)) as [response|];
    [|split; reflexivity].
  destruct (negb _); [|split; reflexivity].
  unfold AgentLoop.sync_commands.
  cbn [AgentLoop.syncs AgentLoop.heartbeats AgentLoop.trace].
  destruct (AgentLoop.sync_reply sv (AgentLoop.syncs k)) as [r|]; [|split; reflexivity].
  destruct (_ && _); split; reflexivity.
Qed.

Lemma iteration_streak sv heartbeat_interval now (l : AgentLoop.Loop) a k :
  AgentLoop.consecutive_failures l = streak sv (AgentLoop.heartbeats k) ->
  let r := AgentLoop.iteration sv heartbeat_interval now (l, a, k) in
  AgentLoop.consecutive_failures r.1.1 = streak sv (AgentLoop.heartbeats r.2).
Proof.
  intros Hc. unfold AgentLoop.iteration.
  destruct (Qle_bool heartbeat_interval (now - AgentLoop.last_heartbeat l)).
  - destruct (heartbeat_count sv a (AgentLoop.record (AgentLoop.time_time_call now) k))
      as [En Er].
    destruct (AgentLoop.heartbeat sv a
                (AgentLoop.record (AgentLoop.time_time_call now) k))
      as [[response a'] k'].
    cbn [fst snd AgentLoop.record AgentLoop.heartbeats] in En, Er.
    assert (Hs : streak sv (AgentLoop.heartbeats k')
                 = if match response with
                      | Some r => AgentLoop.response_truthy r
                      | None => false
                      end
                   then O else S (AgentLoop.consecutive_failures l)).
    { rewrite En, Hc. cbn [streak]. unfold failed. rewrite <- Er.
      destruct response as [r|]; [|reflexivity].
      now destruct (AgentLoop.response_truthy r). }
    destruct (match response with
              | Some r => AgentLoop.response_truthy r
              | None => false
              end).
    + destruct (Qle_bool _ _); cbn [fst snd AgentLoop.consecutive_failures
                                     AgentLoop.record AgentLoop.heartbeats]; now rewrite Hs.
    + destruct (bool_decide _); destruct (Qle_bool _ _);
        cbn [fst snd AgentLoop.consecutive_failures AgentLoop.record
             AgentLoop.heartbeats]; now rewrite Hs.
  - destruct (Qle_bool _ _); cbn [fst snd AgentLoop.consecutive_failures
                                   AgentLoop.record AgentLoop.heartbeats]; exact Hc.
Qed.

(** What holds of the loop after any number of rounds. *)
Lemma loop_invariant sv heartbeat_interval nows : forall (l : AgentLoop.Loop) a k,
  kept_apart is_poll AgentLoop.EXECUTION_POLL_INTERVAL
             (AgentLoop.last_execution_poll l) (AgentLoop.trace k) ->
  kept_apart is_heartbeat heartbeat_interval
             (AgentLoop.last_heartbeat l) (AgentLoop.trace k) ->
  AgentLoop.consecutive_failures l = streak sv (AgentLoop.heartbeats k) ->
  let r := foldl (fun st now => AgentLoop.iteration sv heartbeat_interval now st)
                 (l, a, k) nows in
  spaced AgentLoop.EXECUTION_POLL_INTERVAL (stamps is_poll None (AgentLoop.trace r.2))
  /\ spaced heartbeat_interval (stamps is_heartbeat None (AgentLoop.trace r.2))
  /\ AgentLoop.consecutive_failures r.1.1 = streak sv (AgentLoop.heartbeats r.2).
Proof.
  induction nows as [|now nows IH]; intros l a k Hp Hh Hc; cbn [foldl].
  - split; [apply Hp | split; [apply Hh | exact Hc]].
  - pose proof (iteration_kept sv heartbeat_interval now l a k Hp Hh) as [Hp' Hh'].
    pose proof (iteration_streak sv heartbeat_interval now l a k Hc) as Hc'.
    destruct (AgentLoop.iteration sv heartbeat_interval now (l, a, k)) as [[l' a'] k'].
    now apply IH.
Qed.

Lemma run_invariant sv heartbeat_interval
    (discover : gset string -> list Command * string) settings nows a :
  let r := AgentLoop.run sv heartbeat_interval discover settings nows a AgentLoop.link0 in
  spaced AgentLoop.EXECUTION_POLL_INTERVAL (stamps is_poll None (AgentLoop.trace r.2))
  /\ spaced heartbeat_interval (stamps is_heartbeat None (AgentLoop.trace r.2))
  /\ AgentLoop.consecutive_failures r.1.1 = streak sv (AgentLoop.heartbeats r.2).
Proof.
  unfold AgentLoop.run.
  pose proof (sync_commands_trace sv (AgentLoop.discover_commands discover settings a)
                AgentLoop.link0) as [Et _].
  assert (En : AgentLoop.heartbeats
                 (AgentLoop.sync_commands sv (AgentLoop.discover_commands discover settings a)
                    AgentLoop.link0).2 = O).
  { unfold AgentLoop.sync_commands. cbn [AgentLoop.link0 AgentLoop.syncs].
    destruct (AgentLoop.sync_reply sv 0) as [r|]; [|reflexivity].
    destruct (_ && _); reflexivity. }
  destruct (AgentLoop.sync_commands sv (AgentLoop.discover_commands discover settings a)
              AgentLoop.link0) as [[ok a'] k'].
  cbn [fst snd AgentLoop.link0 AgentLoop.trace app] in Et, En.
  apply loop_invariant; cbn [AgentLoop.consecutive_failures AgentLoop.last_heartbeat
                              AgentLoop.last_execution_poll].
  - rewrite Et. split; [exact I | intros t Ht; discriminate Ht].
  - rewrite Et. split; [exact I | intros t Ht; discriminate Ht].
  - now rewrite En.
Qed.

End LoopProofs.

(** X13. The main loop keeps its calls apart: between two polls for
    pending executions the clock readings of their rounds differ by at
    least [EXECUTION_POLL_INTERVAL], and between two heartbeats by at least
    the configured heartbeat interval, however often the loop goes round
    and whatever the clock and the control plane do. *)
Theorem run_keeps_calls_apart {Command : Type} (sv : AgentLoop.Server)
    (heartbeat_interval : Q) (get_commands_with_hash : gset string -> list Command * string)
    (settings : Settings) (nows : list Q) (a : AgentLoop.t Command) :
  let r := AgentLoop.run sv heartbeat_interval get_commands_with_hash settings nows a
             AgentLoop.link0 in
  spaced AgentLoop.EXECUTION_POLL_INTERVAL (stamps is_poll None (AgentLoop.trace r.2))
  /\ spaced heartbeat_interval (stamps is_heartbeat None (AgentLoop.trace r.2)).
Proof.
  intros r.
  destruct (run_invariant sv heartbeat_interval get_commands_with_hash settings nows a) as (Hp & Hh & _).
  split; [exact Hp | exact Hh].
Qed.

(** X14. The failure counter of the main loop is, after every round, the
    number of heartbeats that have failed in a row up to the last one,
    where a heartbeat fails when the client raises and also when the
    control plane answers with an empty dict (which [heartbeat] returns as
    a response, and [run] takes for none). *)
Theorem run_counts_failed_heartbeats {Command : Type} (sv : AgentLoop.Server)
    (heartbeat_interval : Q) (get_commands_with_hash : gset string -> list Command * string)
    (settings : Settings) (nows : list Q) (a : AgentLoop.t Command) :
  let r := AgentLoop.run sv heartbeat_interval get_commands_with_hash settings nows a
             AgentLoop.link0 in
  AgentLoop.consecutive_failures r.1.1 = streak sv (AgentLoop.heartbeats r.2).
Proof.
  intros r.
  destruct (run_invariant sv heartbeat_interval get_commands_with_hash settings nows a) as (_ & _ & Hc).
  exact Hc.
Qed.

(** X15. [run_once] syncs twice or not at all: when the heartbeat finds
    the commands out of sync, [heartbeat] has already synced them when
    [run_once] tests the same answer and syncs them again; otherwise no
    sync is made.  The heartbeat reports the hash just discovered, both
    syncs send the commands just discovered, and the result tells whether
    the heartbeat call returned. *)
Theorem run_once_syncs_twice {Command : Type} (sv : AgentLoop.Server)
    (get_commands_with_hash : gset string -> list Command * string)
    (settings : Settings) (a : AgentLoop.t Command) (k : AgentLoop.Link Command) :
  let discovered := get_commands_with_hash (AgentLoop.excluded settings) in
  let r := AgentLoop.run_once sv get_commands_with_hash settings a k in
  AgentLoop.trace r.2
  = AgentLoop.trace k
    ++ AgentLoop.heartbeat_call discovered.2
    :: (if finds_out_of_sync sv (AgentLoop.heartbeats k)
        then [AgentLoop.sync_commands_call discovered.1;
              AgentLoop.sync_commands_call discovered.1]
        else [])
  /\ r.1.1 = bool_decide (is_Some (AgentLoop.heartbeat_reply sv (AgentLoop.heartbeats k))).
Proof.
  intros discovered. unfold AgentLoop.run_once, finds_out_of_sync.
  destruct (heartbeat_trace sv
              (AgentLoop.discover_commands get_commands_with_hash settings a) k)
    as (rest & Et & Er).
  destruct (heartbeat_count sv
              (AgentLoop.discover_commands get_commands_with_hash settings a) k)
    as [_ Ec].
  destruct (AgentLoop.heartbeat sv
              (AgentLoop.discover_commands get_commands_with_hash settings a) k)
    as [[response a'] k'] eqn:Eh.
  cbn [fst snd] in Et, Er, Ec. rewrite <- Ec.
  unfold AgentLoop.discover_commands in Et, Er, Eh.
  cbn [AgentLoop._commands AgentLoop._commands_hash] in Et, Er.
  fold discovered in Et, Er, Eh.
  destruct response as [r|]; [|subst rest; split; [exact Et | reflexivity]].
  destruct (negb (default true (AgentLoop.commands_in_sync r))) eqn:Es.
  - assert (Hr : AgentLoop.response_truthy r = true).
    { unfold AgentLoop.response_truthy.
      destruct (AgentLoop.commands_in_sync r) as [b|]; [reflexivity | discriminate Es]. }
    rewrite Hr. cbn [andb].
    assert (Ha : AgentLoop._commands a' = discovered.1).
    { unfold AgentLoop.heartbeat in Eh.
      destruct (AgentLoop.heartbeat_reply sv (AgentLoop.heartbeats k)) as [r0|];
        [|discriminate Eh].
      destruct (negb (default true (AgentLoop.commands_in_sync r0))).
      - match type of Eh with
        | context [AgentLoop.sync_commands ?sv ?a0 ?k0] =>
            destruct (sync_commands_trace sv a0 k0) as [_ Hc];
            destruct (AgentLoop.sync_commands sv a0 k0) as [[ok a1] k1]
        end.
        cbn [fst snd] in Hc. inversion Eh; subst. exact Hc.
      - inversion Eh; subst. reflexivity. }
    destruct (sync_commands_trace sv a' k') as [Ht2 _].
    destruct (AgentLoop.sync_commands sv a' k') as [[ok a''] k''].
    cbn [fst snd] in Ht2 |- *. split; [|reflexivity].
    rewrite Ht2, Et, Er, Ha, <- app_assoc. reflexivity.
  - rewrite andb_false_r. cbn [fst snd]. subst rest. split; [exact Et | reflexivity].
Qed.

(** ** Discovery and the security policy *)

(** X16. Without an allowlist, what [discover_commands] hides from the
    control plane is exactly what [is_command_allowed] refuses to run,
    and the agent's own command [djangocommand], which is hidden but not
    refused. *)
Theorem hidden_iff_refused (settings : Settings) (command : string) :
  no_allowlist settings ->
  command ∈ AgentLoop.excluded settings
  <-> fst (is_command_allowed settings command) = false
      \/ command = "djangocommand"%string.
Proof.
  unfold no_allowlist, AgentLoop.excluded, get_disallowed_commands, is_command_allowed,
    AgentLoop.EXCLUDED_COMMANDS.
  intros ->. rewrite elem_of_union, elem_of_list_to_set, list_elem_of_singleton,
    elem_of_list_to_set.
  case_bool_decide; cbn [fst]; split.
  - intros [-> | _]; [now right | now left].
  - intros _. now right.
  - intros [-> | H']; [now right | contradiction].
  - intros [H' | ->]; [discriminate | now left].
Qed.

Lemma hidden_iff_refused_witness :
  "djangocommand"%string ∈ AgentLoop.excluded default_settings
  <-> fst (is_command_allowed default_settings "djangocommand") = false
      \/ "djangocommand"%string = "djangocommand"%string.
Proof. apply (hidden_iff_refused default_settings "djangocommand"). reflexivity. Defined.

(** ** The project path *)

Lemma below_root_snoc cs c :
  below_root (cs ++ [c])
  = String.append (below_root cs) (String sep c).
Proof.
  induction cs as [|c' cs IH]; cbn [app below_root foldr].
  - now rewrite append_nil_r, append_nil_l.
  - unfold below_root in IH. rewrite IH, append_cons, append_assoc. reflexivity.
Qed.

Lemma has_sep_app s1 s2 : has_sep (String.append s1 s2) = has_sep s1 || has_sep s2.
Proof.
  induction s1 as [|c s1 IH]; [reflexivity|].
  rewrite append_cons. cbn [has_sep]. now rewrite IH, orb_assoc.
Qed.

Lemma all_sep_app s1 s2 : all_sep (String.append s1 s2) = all_sep s1 && all_sep s2.
Proof.
  induction s1 as [|c s1 IH]; [reflexivity|].
  rewrite append_cons. cbn [all_sep]. now rewrite IH, andb_assoc.
Qed.

Lemma upto_last_sep_none c : has_sep c = false -> upto_last_sep c = EmptyString.
Proof.
  destruct c as [|a c]; [reflexivity|]. cbn [has_sep upto_last_sep]. now intros ->.
Qed.

(** The head of [x/c] is [x/]. *)
Lemma upto_last_sep_app x c :
  has_sep c = false ->
  upto_last_sep (String.append x (String sep c)) = String.append x (String sep EmptyString).
Proof.
  intros Hc. induction x as [|a x IH].
  - rewrite !append_nil_l. cbn [upto_last_sep]. rewrite Ascii.eqb_refl. cbn [orb].
    now rewrite upto_last_sep_none.
  - rewrite !append_cons. cbn [upto_last_sep].
    rewrite has_sep_app. cbn [has_sep]. rewrite Ascii.eqb_refl, orb_true_r, orb_true_r.
    now rewrite IH.
Qed.

Lemma rstrip_sep_snoc x :
  rstrip_sep (String.append x (String sep EmptyString)) = rstrip_sep x.
Proof.
  induction x as [|a x IH].
  - rewrite append_nil_l. cbn [rstrip_sep all_sep]. now rewrite Ascii.eqb_refl.
  - rewrite append_cons. cbn [rstrip_sep]. rewrite all_sep_app. cbn [all_sep].
    rewrite Ascii.eqb_refl. cbn [andb]. rewrite andb_true_r, IH. reflexivity.
Qed.

(** A string that ends in a component has nothing to strip. *)
Lemma rstrip_sep_component x c :
  component c -> rstrip_sep (String.append x c) = String.append x c.
Proof.
  intros [Hn Hs]. induction x as [|a x IH].
  - rewrite append_nil_l. clear Hn. induction c as [|a c IH]; [reflexivity|].
    cbn [has_sep] in Hs. apply orb_false_iff in Hs as [Ha Hs].
    cbn [rstrip_sep]. rewrite Ha. cbn [andb]. now rewrite IH.
  - rewrite append_cons. cbn [rstrip_sep]. rewrite all_sep_app, IH.
    assert (Hc : all_sep c = false).
    { destruct c as [|b c]; [contradiction|]. cbn [has_sep] in Hs.
      apply orb_false_iff in Hs as [Hb _]. cbn [all_sep]. now rewrite Hb. }
    now rewrite Hc, !andb_false_r.
Qed.

Lemma all_sep_component c : component c -> all_sep c = false.
Proof.
  intros [Hn Hs]. destruct c as [|b c]; [contradiction|]. cbn [has_sep] in Hs.
  apply orb_false_iff in Hs as [Hb _]. cbn [all_sep]. now rewrite Hb.
Qed.

Lemma below_root_component cs c :
  component c -> all_sep (below_root (cs ++ [c])) = false
                 /\ rstrip_sep (below_root (cs ++ [c])) = below_root (cs ++ [c])
                 /\ ends_with_sep (below_root (cs ++ [c])) = false
                 /\ str_truthy (below_root (cs ++ [c])) = true.
Proof.
  intros Hc. rewrite below_root_snoc.
  change (String sep c) with (String.append (String sep EmptyString) c).
  rewrite <- append_assoc. split; [|split; [|split]].
  - rewrite all_sep_app, (all_sep_component c Hc). apply andb_false_r.
  - now apply rstrip_sep_component.
  - destruct Hc as [Hn Hs].
    generalize (String.append (below_root cs) (String sep EmptyString)) as x.
    intros x. induction x as [|a x IH].
    + rewrite append_nil_l. clear Hn.
      induction c as [|a c IH]; [reflexivity|].
      cbn [has_sep] in Hs. apply orb_false_iff in Hs as [Ha Hs].
      destruct c as [|b c]; [exact Ha|]. cbn [ends_with_sep]. now apply IH.
    + rewrite append_cons.
      destruct (String.append x c) as [|b y] eqn:E.
      * destruct x; [rewrite append_nil_l in E; contradiction | discriminate E].
      * cbn [ends_with_sep]. exact IH.
  - destruct (below_root cs); reflexivity.
Qed.

(** One step up from a path with at least one component. *)
Lemma dirname_render cs c :
  Forall component (cs ++ [c]) ->
  os_path_dirname (render (cs ++ [c])) = render cs.
Proof.
  intros Hv. apply Forall_app in Hv as [Hcs Hc].
  apply Forall_cons in Hc as [Hc _].
  unfold os_path_dirname.
  assert (Er : render (cs ++ [c]) = below_root (cs ++ [c])) by now destruct cs.
  rewrite Er, below_root_snoc, upto_last_sep_app by apply Hc.
  destruct cs as [|c0 cs _] using rev_ind.
  - reflexivity.
  - destruct (below_root_component cs c0) as (Ha & Hr & _ & Ht).
    { apply Forall_app in Hcs as [_ Hc0]. now apply Forall_cons in Hc0 as [Hc0 _]. }
    rewrite all_sep_app, Ha. cbn [andb negb]. rewrite andb_true_r.
    assert (Hn : str_truthy (String.append (below_root (cs ++ [c0]))
                                           (String sep EmptyString)) = true).
    { destruct (below_root (cs ++ [c0])); reflexivity. }
    rewrite Hn, rstrip_sep_snoc, Hr. now destruct cs.
Qed.

Lemma render_not_root cs c :
  component c -> String.eqb (render (cs ++ [c])) "/" = false.
Proof.
  intros Hc. apply String.eqb_neq. intros E.
  assert (Er : render (cs ++ [c]) = below_root (cs ++ [c])) by now destruct cs.
  destruct (below_root_component cs c Hc) as (Ha & _).
  rewrite <- Er, E in Ha. discriminate Ha.
Qed.

Lemma holds_manage_py_snoc os_path_exists cs c m :
  (m <= length cs)%nat ->
  holds_manage_py os_path_exists (cs ++ [c]) m <-> holds_manage_py os_path_exists cs m.
Proof. intros Hm. unfold holds_manage_py. now rewrite take_app_le. Qed.

(** The loop on a normal path: the nearest directory that holds a
    [manage.py], the root left out, or none. *)
Lemma _find_project_path_loop_spec os_path_exists cs : forall fuel,
  Forall component cs ->
  (length cs < fuel)%nat ->
  (exists n,
     (1 <= n <= length cs)%nat
     /\ _find_project_path_loop fuel os_path_exists (render cs)
        = Some (Some (render (take n cs)))
     /\ holds_manage_py os_path_exists cs n
     /\ forall m, (n < m <= length cs)%nat -> ~ holds_manage_py os_path_exists cs m)
  \/ (_find_project_path_loop fuel os_path_exists (render cs) = Some None
      /\ forall m, (1 <= m <= length cs)%nat -> ~ holds_manage_py os_path_exists cs m).
Proof.
  induction cs as [|c cs IH] using rev_ind; intros fuel Hv Hf.
  - right. destruct fuel as [|fuel]; [cbn in Hf; lia|]. split; [reflexivity|].
    cbn [length]. intros m Hm. lia.
  - destruct fuel as [|fuel]; [lia|].
    pose proof Hv as Hv'. apply Forall_app in Hv' as [Hcs Hc].
    apply Forall_cons in Hc as [Hc _].
    assert (Hlen : (length cs + 1)%nat = length (cs ++ [c]))
      by (rewrite length_app; reflexivity).
    rewrite <- Hlen in *.
    assert (Hall : take (length cs + 1) (cs ++ [c]) = cs ++ [c])
      by (rewrite Hlen; apply firstn_all).
    cbn [_find_project_path_loop]. rewrite (render_not_root cs c Hc).
    destruct (os_path_exists (os_path_join (render (cs ++ [c])) "manage.py")) eqn:E.
    + left. exists (length cs + 1)%nat. split; [lia|]. split; [|split].
      * now rewrite Hall.
      * unfold holds_manage_py. rewrite Hall. exact E.
      * intros m Hm. lia.
    + rewrite (dirname_render cs c Hv).
      assert (Hlast : ~ holds_manage_py os_path_exists (cs ++ [c]) (length cs + 1)).
      { unfold holds_manage_py. rewrite Hall, E. discriminate. }
      destruct (IH fuel Hcs ltac:(lia)) as [(n & Hn & El & Hh & Hm) | [El Hm]].
      * left. exists n. split; [lia|]. split; [|split].
        -- rewrite El, take_app_le by lia. reflexivity.
        -- apply holds_manage_py_snoc; [lia | exact Hh].
        -- intros m Hr. destruct (decide (m = length cs + 1)%nat) as [->|Hne];
             [exact Hlast|].
           rewrite holds_manage_py_snoc by lia. apply Hm. lia.
      * right. split; [exact El|].
        intros m Hr. destruct (decide (m = length cs + 1)%nat) as [->|Hne];
          [exact Hlast|].
        rewrite holds_manage_py_snoc by lia. apply Hm. lia.
Qed.

(** X17. [_find_project_path] on a working directory in normal form
    [/c1/.../cn]: the loop ends within [n + 1] rounds, and the result is
    the nearest directory from the working directory upwards that holds a
    [manage.py], the root directory left out (the loop stops there without
    looking), or else the working directory itself.  So a [manage.py]
    in [/] is never found. *)
Theorem find_project_path_nearest (fuel : nat) (os_path_exists : string -> bool)
    (cs : list string) :
  Forall component cs ->
  (length cs < fuel)%nat ->
  exists n,
    (n <= length cs)%nat
    /\ _find_project_path fuel os_path_exists (render cs) = Some (render (take n cs))
    /\ (forall m, (n < m <= length cs)%nat -> ~ holds_manage_py os_path_exists cs m)
    /\ ((1 <= n)%nat /\ holds_manage_py os_path_exists cs n
        \/ n = length cs
           /\ forall m, (1 <= m <= length cs)%nat -> ~ holds_manage_py os_path_exists cs m).
Proof.
  intros Hv Hf. unfold _find_project_path.
  destruct (_find_project_path_loop_spec os_path_exists cs fuel Hv Hf)
    as [(n & Hn & -> & Hh & Hm) | [-> Hm]].
  - exists n. split; [lia|]. split; [reflexivity|]. split; [exact Hm|]. left.
    split; [lia | exact Hh].
  - exists (length cs). split; [lia|]. split; [now rewrite firstn_all|].
    split; [intros m Hr; lia|]. right. split; [reflexivity | exact Hm].
Qed.

Lemma find_project_path_nearest_witness :
  exists n,
    (n <= 3)%nat
    /\ _find_project_path 4 one_project "/srv/app/scripts"
       = Some (render (take n ["srv"; "app"; "scripts"]%string))
    /\ (forall m, (n < m <= 3)%nat ->
          ~ holds_manage_py one_project ["srv"; "app"; "scripts"]%string m)
    /\ ((1 <= n)%nat /\ holds_manage_py one_project ["srv"; "app"; "scripts"]%string n
        \/ n = 3%nat
           /\ forall m, (1 <= m <= 3)%nat ->
                ~ holds_manage_py one_project ["srv"; "app"; "scripts"]%string m).
Proof.
  apply (find_project_path_nearest 4 one_project ["srv"; "app"; "scripts"]%string).
  - repeat constructor; discriminate.
  - cbn. lia.
Defined.

(** ** managecommand: discovery *)

Lemma cmd_data_name bound n app loaded :
  ManageCommand.name (ManageCommand.cmd_data bound n app loaded) = n
  /\ ManageCommand.bound_args (ManageCommand.cmd_data bound n app loaded) = bound !! n.
Proof. destruct loaded; split; reflexivity. Qed.

Lemma discover_commands_names_filter raw get_commands load exclude include :
  names (ManageCommand.discover_commands raw get_commands load exclude include)
  = filter (fun n => ManageCommand.listed exclude include n = true) (map fst get_commands).
Proof.
  unfold ManageCommand.discover_commands, names.
  induction get_commands as [|[n app] l IH]; [reflexivity|].
  cbn [omap list_omap map fst]. rewrite filter_cons.
  destruct (ManageCommand.listed exclude include n) eqn:E.
  - rewrite decide_True by reflexivity. cbn [map].
    rewrite (proj1 (cmd_data_name _ _ _ _)). f_equal. exact IH.
  - rewrite decide_False by discriminate. exact IH.
Qed.

(** X18. The names that [discover_commands] returns are the names of
    [get_commands()] that pass the filter, in the order of the dict: a
    command whose class fails to load is listed all the same (the loader
    plays no part), a non-empty [include] decides alone, and an empty
    [include] list stands for no allowlist at all (everything that
    [exclude] does not name is returned), not for an allowlist that admits
    nothing. *)
Theorem discover_commands_names (raw_config : option (gmap string (list ManageCommand.RawArgSet)))
    (get_commands : list (string * ManageCommand.App))
    (load_command_class : ManageCommand.App -> string -> ManageCommand.Loaded)
    (exclude include : option (list string)) :
  names (ManageCommand.discover_commands raw_config get_commands load_command_class
           exclude include)
  = filter (fun n => ManageCommand.listed exclude include n = true) (map fst get_commands)
  /\ (forall n, ManageCommand.listed exclude include n = true
                <-> match include with
                    | Some (i :: rest) => n ∈ i :: rest
                    | _ => n ∉ default [] exclude
                    end)
  /\ ManageCommand.discover_commands raw_config get_commands load_command_class
       exclude (Some [])
     = ManageCommand.discover_commands raw_config get_commands load_command_class
         exclude None.
Proof.
  split; [apply discover_commands_names_filter | split; [|reflexivity]].
  intros n. unfold ManageCommand.listed.
  destruct include as [[|i rest]|]; cbn [list_truthy].
  - rewrite negb_true_iff, bool_decide_eq_false, elem_of_list_to_set. reflexivity.
  - rewrite bool_decide_eq_true, elem_of_list_to_set. reflexivity.
  - rewrite negb_true_iff, bool_decide_eq_false, elem_of_list_to_set. reflexivity.
Qed.

(** *** The order of names *)

Lemma compare_le_trans a : forall b c,
  (a ?= b)%string <> Gt -> (b ?= c)%string <> Gt -> (a ?= c)%string <> Gt.
Proof.
  induction a as [|x a IH]; intros [|y b] [|z c]; cbn [String.compare];
    try congruence.
  unfold Ascii.compare.
  destruct (N.compare_spec (N_of_ascii x) (N_of_ascii y)) as [Exy|Exy|Exy],
           (N.compare_spec (N_of_ascii y) (N_of_ascii z)) as [Eyz|Eyz|Eyz],
           (N.compare_spec (N_of_ascii x) (N_of_ascii z)) as [Exz|Exz|Exz];
    try congruence; try lia.
  apply IH.
Qed.


Lemma name_le_trans : Transitive name_le.
Proof.
  intros c d e. unfold name_le, String.leb. intros H1 H2.
  pose proof (compare_le_trans (ManageCommand.name c) (ManageCommand.name d)
                (ManageCommand.name e)) as H.
  destruct (ManageCommand.name c ?= ManageCommand.name d)%string eqn:E1; try discriminate;
  destruct (ManageCommand.name d ?= ManageCommand.name e)%string eqn:E2; try discriminate;
  destruct (ManageCommand.name c ?= ManageCommand.name e)%string eqn:E3; try reflexivity;
  exfalso; apply H; congruence.
Qed.

Lemma not_ltb_name_le c d :
  String.ltb (ManageCommand.name d) (ManageCommand.name c) = false -> name_le c d.
Proof.
  unfold name_le, String.ltb, String.leb.
  rewrite (String.compare_antisym (ManageCommand.name c) (ManageCommand.name d)).
  now destruct (ManageCommand.name d ?= ManageCommand.name c)%string.
Qed.

Lemma ltb_name_le c d :
  String.ltb (ManageCommand.name d) (ManageCommand.name c) = true -> name_le d c.
Proof.
  unfold name_le, String.ltb, String.leb.
  now destruct (ManageCommand.name d ?= ManageCommand.name c)%string.
Qed.

Lemma insert_by_name_Permutation c l : ManageCommand.insert_by_name c l ≡ₚ c :: l.
Proof.
  induction l as [|d l IH]; [reflexivity|]. cbn [ManageCommand.insert_by_name].
  destruct (String.ltb _ _); [|reflexivity].
  rewrite IH. apply Permutation_swap.
Qed.

Lemma sorted_Permutation l : ManageCommand.sorted l ≡ₚ l.
Proof.
  induction l as [|c l IH]; [reflexivity|].
  unfold ManageCommand.sorted in *. cbn [foldr].
  now rewrite insert_by_name_Permutation, IH.
Qed.

Lemma insert_by_name_HdRel a c l :
  name_le a c -> HdRel name_le a l -> HdRel name_le a (ManageCommand.insert_by_name c l).
Proof.
  intros Hac Hal. destruct l as [|d l]; cbn [ManageCommand.insert_by_name].
  - now constructor.
  - destruct (String.ltb _ _); constructor; [|exact Hac]. now inversion Hal.
Qed.

Lemma insert_by_name_Sorted c l :
  Sorted name_le l -> Sorted name_le (ManageCommand.insert_by_name c l).
Proof.
  induction l as [|d l IH]; intros Hs; cbn [ManageCommand.insert_by_name].
  - repeat constructor.
  - destruct (String.ltb (ManageCommand.name d) (ManageCommand.name c)) eqn:E.
    + inversion Hs as [|? ? Hl Hd]; subst. constructor; [now apply IH|].
      apply insert_by_name_HdRel; [now apply ltb_name_le | exact Hd].
    + constructor; [exact Hs|]. constructor. now apply not_ltb_name_le.
Qed.

Lemma sorted_Sorted l : Sorted name_le (ManageCommand.sorted l).
Proof.
  induction l as [|c l IH]; [constructor|].
  unfold ManageCommand.sorted in *. cbn [foldr]. now apply insert_by_name_Sorted.
Qed.

Lemma same_name_same_command (l : list ManageCommand.Command) c d :
  NoDup (names l) -> c ∈ l -> d ∈ l ->
  ManageCommand.name c = ManageCommand.name d -> c = d.
Proof.
  unfold names. induction l as [|e l IH]; intros Hn Hc Hd E; [inversion Hc|].
  cbn [map] in Hn. apply NoDup_cons in Hn as [Hne Hn].
  apply elem_of_cons in Hc as [-> | Hc]; apply elem_of_cons in Hd as [-> | Hd].
  - reflexivity.
  - exfalso. apply Hne. rewrite E. now apply list_elem_of_fmap_2.
  - exfalso. apply Hne. rewrite <- E. now apply list_elem_of_fmap_2.
  - now apply IH.
Qed.

(** Lists with the same commands, each name once, sort to the same list. *)
Lemma sorted_order l1 l2 :
  l1 ≡ₚ l2 -> NoDup (names l1) -> ManageCommand.sorted l1 = ManageCommand.sorted l2.
Proof.
  intros Hp Hn.
  apply (@Sorted_unique_strong _ name_le name_le_trans).
  - intros c d Hc Hd Hcd Hdc.
    apply (same_name_same_command l1); [exact Hn | | |].
    + now rewrite <- (sorted_Permutation l1).
    + now rewrite Hp, <- (sorted_Permutation l2).
    + now apply String.leb_antisym.
  - apply sorted_Sorted.
  - apply sorted_Sorted.
  - now rewrite !sorted_Permutation.
Qed.

(** X19. The hash of a command list does not depend on the order of the
    list: two lists with the same commands, in which no name occurs twice,
    have the same canonical form and the same hash, whatever the serializer
    and the digest do.  The commands are sorted by name, stably and by [<]
    on the names alone, before they are serialized. *)
Theorem compute_commands_hash_order (json_dumps : list ManageCommand.Command -> string)
    (sha256_hexdigest : string -> string) (l1 l2 : list ManageCommand.Command) :
  l1 ≡ₚ l2 ->
  NoDup (names l1) ->
  ManageCommand.sorted l1 = ManageCommand.sorted l2
  /\ ManageCommand.compute_commands_hash json_dumps sha256_hexdigest l1
     = ManageCommand.compute_commands_hash json_dumps sha256_hexdigest l2.
Proof.
  intros Hp Hn. unfold ManageCommand.compute_commands_hash.
  rewrite (sorted_order l1 l2 Hp Hn). split; reflexivity.
Qed.

Lemma compute_commands_hash_order_witness :
  ManageCommand.sorted
    (ManageCommand.discover_commands bound_config three_commands loader None None)
  = ManageCommand.sorted
      (ManageCommand.discover_commands bound_config (rev three_commands) loader None None)
  /\ ManageCommand.compute_commands_hash (fun l => join (names l)) (fun s => s)
       (ManageCommand.discover_commands bound_config three_commands loader None None)
     = ManageCommand.compute_commands_hash (fun l => join (names l)) (fun s => s)
         (ManageCommand.discover_commands bound_config (rev three_commands) loader
            None None).
Proof.
  apply (compute_commands_hash_order (fun l => join (names l)) (fun s => s)).
  - unfold ManageCommand.discover_commands.
    apply omap_Permutation, Permutation_rev.
  - apply (bool_decide_unpack _). vm_compute. exact I.
Defined.

(** X20. What [get_commands_with_hash] reports does not depend on the
    order in which Django lists its commands: for two listings of the same
    commands (each name once) the discovered lists hold the same commands
    and the hashes are equal, for every configuration, loader, filter,
    serializer and digest. *)
Theorem get_commands_with_hash_order (json_dumps : list ManageCommand.Command -> string)
    (sha256_hexdigest : string -> string)
    (raw_config : option (gmap string (list ManageCommand.RawArgSet)))
    (get_commands1 get_commands2 : list (string * ManageCommand.App))
    (load_command_class : ManageCommand.App -> string -> ManageCommand.Loaded)
    (exclude include : option (list string)) :
  get_commands1 ≡ₚ get_commands2 ->
  NoDup (map fst get_commands1) ->
  let r1 := ManageCommand.get_commands_with_hash json_dumps sha256_hexdigest raw_config
              get_commands1 load_command_class exclude include in
  let r2 := ManageCommand.get_commands_with_hash json_dumps sha256_hexdigest raw_config
              get_commands2 load_command_class exclude include in
  fst r1 ≡ₚ fst r2 /\ snd r1 = snd r2.
Proof.
  intros Hp Hn. cbn zeta. unfold ManageCommand.get_commands_with_hash. cbn [fst snd].
  assert (Hd : ManageCommand.discover_commands raw_config get_commands1
                 load_command_class exclude include
               ≡ₚ ManageCommand.discover_commands raw_config get_commands2
                    load_command_class exclude include).
  { unfold ManageCommand.discover_commands. now apply omap_Permutation. }
  split; [exact Hd|].
  unfold ManageCommand.compute_commands_hash.
  rewrite (sorted_order _ _ Hd); [reflexivity|].
  rewrite discover_commands_names_filter. now apply NoDup_filter.
Qed.

Lemma get_commands_with_hash_order_witness :
  let r1 := ManageCommand.get_commands_with_hash (fun l => join (names l)) (fun s => s)
              bound_config three_commands loader None None in
  let r2 := ManageCommand.get_commands_with_hash (fun l => join (names l)) (fun s => s)
              bound_config (rev three_commands) loader None None in
  fst r1 ≡ₚ fst r2 /\ snd r1 = snd r2.
Proof.
  apply (get_commands_with_hash_order (fun l => join (names l)) (fun s => s)).
  - apply Permutation_rev.
  - apply (bool_decide_unpack _). vm_compute. exact I.
Defined.

(** ** managecommand: bound commands *)

Lemma normalized_nonempty_args (a : string) :
  (if str_truthy a then ManageCommand.strip a else EmptyString) = ManageCommand.strip a.
Proof. now destruct a. Qed.

Lemma are_args_allowed_bound raw command arg_sets args0 :
  ManageCommand.get_bound_commands raw !! command = Some arg_sets ->
  fst (ManageCommand.are_args_allowed raw command args0) = true
  <-> exists a, a ∈ map ManageCommand.args arg_sets
                /\ ManageCommand.strip args0 = ManageCommand.strip a.
Proof.
  intros Hb. unfold ManageCommand.are_args_allowed. rewrite Hb.
  rewrite normalized_nonempty_args.
  destruct (existsb _ _) eqn:E; cbn [fst].
  - split; [intros _|reflexivity].
    apply existsb_exists in E as (a & Ha & Heq).
    exists a. split; [now apply list_elem_of_In | now apply String.eqb_eq].
  - split; [discriminate|]. intros (a & Ha & Heq). exfalso.
    assert (H : existsb (fun allowed =>
                           String.eqb (ManageCommand.strip args0)
                                      (ManageCommand.strip allowed))
                        (map ManageCommand.args arg_sets) = true).
    { apply existsb_exists. exists a. split; [now apply list_elem_of_In|].
      now apply String.eqb_eq. }
    congruence.
Qed.

(** X21. [are_args_allowed] accepts, for a bound command, exactly the
    argument strings that equal one of the command's argument sets up to
    leading and trailing white space, and everything for a command that is
    not bound; it gives a reason exactly when it refuses. *)
Theorem are_args_allowed_spec (raw_config : option (gmap string (list ManageCommand.RawArgSet)))
    (command args0 : string) :
  (fst (ManageCommand.are_args_allowed raw_config command args0) = true
   <-> match ManageCommand.get_allowed_args_for_command raw_config command with
       | None => True
       | Some allowed_args =>
           exists a, a ∈ allowed_args /\ ManageCommand.strip args0 = ManageCommand.strip a
       end)
  /\ (snd (ManageCommand.are_args_allowed raw_config command args0) = EmptyString
      <-> fst (ManageCommand.are_args_allowed raw_config command args0) = true).
Proof.
  split.
  - unfold ManageCommand.get_allowed_args_for_command.
    destruct (ManageCommand.get_bound_commands raw_config !! command) as [arg_sets|] eqn:Hb.
    + now apply are_args_allowed_bound.
    + unfold ManageCommand.are_args_allowed. rewrite Hb. cbn [fst]. tauto.
  - unfold ManageCommand.are_args_allowed.
    destruct (ManageCommand.get_bound_commands raw_config !! command) as [arg_sets|];
      [|cbn [fst snd]; tauto].
    destruct (existsb _ _); cbn [fst snd]; [tauto|].
    split; [|discriminate]. unfold ManageCommand.not_allowed_reason.
    rewrite join_cons, append_cons. discriminate.
Qed.

Lemma all_space_app s1 s2 :
  ManageCommand.all_space (String.append s1 s2)
  = ManageCommand.all_space s1 && ManageCommand.all_space s2.
Proof.
  induction s1 as [|c s1 IH]; [reflexivity|].
  rewrite append_cons. cbn [ManageCommand.all_space]. now rewrite IH, andb_assoc.
Qed.

Lemma lstrip_all_space ws :
  ManageCommand.all_space ws = true -> ManageCommand.lstrip ws = EmptyString.
Proof.
  induction ws as [|c ws IH]; [reflexivity|]. cbn [ManageCommand.all_space].
  intros H. apply andb_true_iff in H as [Hc Hw].
  cbn [ManageCommand.lstrip]. rewrite Hc. now apply IH.
Qed.

Lemma lstrip_app_space ws s :
  ManageCommand.all_space ws = true ->
  ManageCommand.lstrip (String.append ws s) = ManageCommand.lstrip s.
Proof.
  induction ws as [|c ws IH]; [now rewrite append_nil_l|]. cbn [ManageCommand.all_space].
  intros H. apply andb_true_iff in H as [Hc Hw].
  rewrite append_cons. cbn [ManageCommand.lstrip]. rewrite Hc. now apply IH.
Qed.

Lemma rstrip_all_space ws :
  ManageCommand.all_space ws = true -> ManageCommand.rstrip ws = EmptyString.
Proof.
  destruct ws as [|c ws]; [reflexivity|]. cbn [ManageCommand.all_space ManageCommand.rstrip].
  now intros ->.
Qed.

Lemma rstrip_app_space s ws :
  ManageCommand.all_space ws = true ->
  ManageCommand.rstrip (String.append s ws) = ManageCommand.rstrip s.
Proof.
  intros Hw. induction s as [|c s IH].
  - rewrite append_nil_l. now apply rstrip_all_space.
  - rewrite append_cons. cbn [ManageCommand.rstrip].
    now rewrite all_space_app, Hw, andb_true_r, IH.
Qed.

(** White space around a string is stripped with it. *)
Lemma strip_padded ws1 s ws2 :
  ManageCommand.all_space ws1 = true -> ManageCommand.all_space ws2 = true ->
  ManageCommand.strip (String.append ws1 (String.append s ws2)) = ManageCommand.strip s.
Proof.
  intros H1 H2. unfold ManageCommand.strip. rewrite (lstrip_app_space ws1 _ H1).
  induction s as [|c s IH].
  - rewrite append_nil_l, (lstrip_all_space ws2 H2). reflexivity.
  - rewrite append_cons. cbn [ManageCommand.lstrip].
    destruct (ManageCommand.is_space c); [exact IH|].
    rewrite <- append_cons. now apply rstrip_app_space.
Qed.

(** X22. White space before and after an argument string never changes
    the verdict of [are_args_allowed]: the string with any white space
    (blanks, tabs, newlines and the other characters that [str.strip]
    removes) added at its ends is accepted exactly when the string itself
    is. *)
Theorem are_args_allowed_padding (raw_config : option (gmap string (list ManageCommand.RawArgSet)))
    (command args0 ws1 ws2 : string) :
  ManageCommand.all_space ws1 = true ->
  ManageCommand.all_space ws2 = true ->
  fst (ManageCommand.are_args_allowed raw_config command
         (String.append ws1 (String.append args0 ws2)))
  = fst (ManageCommand.are_args_allowed raw_config command args0).
Proof.
  intros H1 H2. unfold ManageCommand.are_args_allowed.
  destruct (ManageCommand.get_bound_commands raw_config !! command) as [arg_sets|];
    [|reflexivity].
  rewrite !normalized_nonempty_args, (strip_padded ws1 args0 ws2 H1 H2).
  now destruct (existsb _ _).
Qed.

Lemma are_args_allowed_padding_witness :
  fst (ManageCommand.are_args_allowed bound_config "runscript"
         (String.append (String "009"%char " ")
            (String.append "backup_db --verbose" (String newline EmptyString))))
  = fst (ManageCommand.are_args_allowed bound_config "runscript" "backup_db --verbose").
Proof.
  apply (are_args_allowed_padding bound_config "runscript" "backup_db --verbose"
           (String "009"%char " ") (String newline EmptyString)).
  - reflexivity.
  - reflexivity.
Defined.

Lemma bound_sets raw command arg_sets :
  ManageCommand.get_bound_commands raw !! command = Some arg_sets ->
  arg_sets <> []
  /\ exists cfg raw_sets,
       raw = Some cfg /\ cfg !! command = Some raw_sets
       /\ arg_sets = omap ManageCommand.normalized raw_sets.
Proof.
  unfold ManageCommand.get_bound_commands. destruct raw as [cfg|].
  - rewrite lookup_omap_Some. intros (raw_sets & Hn & Hl).
    destruct (omap ManageCommand.normalized raw_sets) as [|s l] eqn:E;
      cbn [list_truthy] in Hn; [discriminate|].
    inversion Hn; subst. split; [discriminate|]. eauto.
  - rewrite lookup_empty. discriminate.
Qed.

(** X23. What discovery advertises is what the security check enforces:
    for every discovered command, the [bound_args] of its dict are the
    normalized argument sets of the configuration, they are present
    exactly when [is_command_bound] holds of the command, they are never
    an empty list, their [args] are what [get_allowed_args_for_command]
    returns, and [are_args_allowed] accepts each of them. *)
Theorem advertised_is_enforced (raw_config : option (gmap string (list ManageCommand.RawArgSet)))
    (get_commands : list (string * ManageCommand.App))
    (load_command_class : ManageCommand.App -> string -> ManageCommand.Loaded)
    (exclude include : option (list string)) (c : ManageCommand.Command) :
  c ∈ ManageCommand.discover_commands raw_config get_commands load_command_class
        exclude include ->
  ManageCommand.bound_args c
  = ManageCommand.get_bound_commands raw_config !! ManageCommand.name c
  /\ (is_Some (ManageCommand.bound_args c)
      <-> ManageCommand.is_command_bound raw_config (ManageCommand.name c) = true)
  /\ forall arg_sets,
       ManageCommand.bound_args c = Some arg_sets ->
       arg_sets <> []
       /\ ManageCommand.get_allowed_args_for_command raw_config (ManageCommand.name c)
          = Some (map ManageCommand.args arg_sets)
       /\ forall s, s ∈ arg_sets ->
            ManageCommand.are_args_allowed raw_config (ManageCommand.name c)
              (ManageCommand.args s) = (true, EmptyString).
Proof.
  unfold ManageCommand.discover_commands. rewrite list_elem_of_omap.
  intros ([n app] & _ & Hc).
  destruct (ManageCommand.listed exclude include n); [|discriminate].
  inversion Hc as [Ec]. clear Hc.
  destruct (cmd_data_name (ManageCommand.get_bound_commands raw_config) n app
              (load_command_class app n)) as [-> ->].
  split; [reflexivity|]. split.
  - unfold ManageCommand.is_command_bound. now rewrite bool_decide_eq_true.
  - intros arg_sets Hb. split; [apply (bound_sets _ _ _ Hb)|]. split.
    + unfold ManageCommand.get_allowed_args_for_command. now rewrite Hb.
    + intros s Hs.
      pose proof (proj2 (are_args_allowed_bound raw_config n arg_sets
                           (ManageCommand.args s) Hb)) as Ha.
      unfold ManageCommand.are_args_allowed in *. rewrite Hb in *.
      destruct (existsb _ _); [reflexivity|]. cbn [fst] in Ha.
      exfalso. assert (false = true); [|discriminate]. apply Ha.
      exists (ManageCommand.args s). split; [now apply list_elem_of_fmap_2 | reflexivity].
Qed.

Lemma advertised_is_enforced_witness :
  let c := {| ManageCommand.name := "runscript";
              ManageCommand.app_label := "django_extensions";
              ManageCommand.help_text := "usage: manage.py runscript";
              ManageCommand.bound_args :=
                Some [ {| ManageCommand.args := " backup_db --verbose ";
                          ManageCommand.label := "Backup database" |};
                       {| ManageCommand.args := "cleanup --days=30";
                          ManageCommand.label := "cleanup --days=30" |} ] |}%string in
  ManageCommand.bound_args c
  = ManageCommand.get_bound_commands bound_config !! ManageCommand.name c
  /\ (is_Some (ManageCommand.bound_args c)
      <-> ManageCommand.is_command_bound bound_config (ManageCommand.name c) = true)
  /\ forall arg_sets,
       ManageCommand.bound_args c = Some arg_sets ->
       arg_sets <> []
       /\ ManageCommand.get_allowed_args_for_command bound_config (ManageCommand.name c)
          = Some (map ManageCommand.args arg_sets)
       /\ forall s, s ∈ arg_sets ->
            ManageCommand.are_args_allowed bound_config (ManageCommand.name c)
              (ManageCommand.args s) = (true, EmptyString).
Proof.
  apply (advertised_is_enforced bound_config three_commands loader None None).
  vm_compute. apply list_elem_of_here.
Defined.

(** X24. A command is bound exactly when its entry in
    [MANAGECOMMAND_BOUND_COMMANDS] holds at least one argument set that is
    a string or a dict.  An entry with an empty list, or with nothing but
    values of other types, binds nothing: the command is then not bound,
    and [are_args_allowed] accepts every argument string for it. *)
Theorem bound_iff_usable_entry (raw_config : option (gmap string (list ManageCommand.RawArgSet)))
    (command : string) :
  (ManageCommand.is_command_bound raw_config command = true
   <-> exists cfg raw_sets s,
         raw_config = Some cfg /\ cfg !! command = Some raw_sets
         /\ s ∈ raw_sets /\ s <> ManageCommand.RawOther)
  /\ (ManageCommand.is_command_bound raw_config command = false ->
      forall args0,
        ManageCommand.are_args_allowed raw_config command args0 = (true, EmptyString)).
Proof.
  unfold ManageCommand.is_command_bound. split.
  - rewrite bool_decide_eq_true. split.
    + intros [arg_sets Hb]. destruct (bound_sets _ _ _ Hb) as (Hne & cfg & raw_sets & -> & Hl & ->).
      destruct (omap ManageCommand.normalized raw_sets) as [|a l] eqn:E; [contradiction|].
      assert (Ha : a ∈ omap ManageCommand.normalized raw_sets)
        by (rewrite E; apply list_elem_of_here).
      apply list_elem_of_omap in Ha as (s & Hs & Hn).
      exists cfg, raw_sets, s. split; [reflexivity|]. split; [exact Hl|].
      split; [exact Hs|]. intros ->. discriminate Hn.
    + intros (cfg & raw_sets & s & -> & Hl & Hs & Hn).
      unfold ManageCommand.get_bound_commands. rewrite lookup_omap, Hl. cbn.
      assert (Ha : exists a, a ∈ omap ManageCommand.normalized raw_sets).
      { destruct (ManageCommand.normalized s) as [a|] eqn:E.
        - exists a. apply list_elem_of_omap. eauto.
        - destruct s; try discriminate E. contradiction. }
      destruct Ha as [a Ha].
      destruct (omap ManageCommand.normalized raw_sets) as [|b l]; [inversion Ha|].
      cbn [list_truthy]. eauto.
  - rewrite bool_decide_eq_false. intros Hn args0.
    unfold ManageCommand.are_args_allowed.
    destruct (ManageCommand.get_bound_commands raw_config !! command) as [arg_sets|];
      [|reflexivity].
    exfalso. apply Hn. eauto.
Qed.
